(** * athread: the ThreadGraph scheduler, its Task handles and its workers

    A shallow embedding of [src/athread/{runnable,node,task,threadgraph,worker}]
    and of the matching [.cpp] files.  Objects live in a store indexed by their
    address; a pointer is an optional address, [None] being [nullptr].  Reading
    through a null or dangling pointer has no defined behaviour in C++ and is
    reported here as the outcome [Undefined]. *)

From stdpp Require Import gmap list strings.

Open Scope string_scope.

(** ** runnable.h, node.h *)

Module IRunnable.

Inductive RunnableState := Ready | Executing | Completed.

#[global] Instance RunnableState_eq_dec : EqDecision RunnableState.
Proof. solve_decision. Defined.

End IRunnable.

Module TraceNodeState.

Inductive t := Ready | Pending | Completed.

#[global] Instance t_eq_dec : EqDecision t.
Proof. solve_decision. Defined.

End TraceNodeState.

(** [INode*]: the address of a node, or [nullptr]. *)
Abbreviation ptr := (option nat).
Abbreviation nullptr := (@None nat).

(** An [INode]: the atomic state of [IRunnable] and the two edge vectors. *)
Record INode := mkINode {
  state : IRunnable.RunnableState;
  _predecessors : list ptr;
  _successors : list ptr
}.

(** What a C++ [throw] can carry.  [AT_INVALID_ARGUMENT] and
    [AT_RUNTIME_ERROR] build the first two; [std_exception] stands for any other
    class derived from [std::exception]; [foreign_exception] for a thrown
    object of any other type (it has no [what()]). *)
Inductive exception :=
| invalid_argument (what : string)
| runtime_error (what : string)
| std_exception (what : string)
| foreign_exception (tag : nat).

#[global] Instance exception_eq_dec : EqDecision exception.
Proof. solve_decision. Defined.

(** [e.what()] when [e] is caught by [catch (const std::exception&)]. *)
Definition what_of (e : exception) : option string :=
  match e with
  | invalid_argument w | runtime_error w | std_exception w => Some w
  | foreign_exception _ => None
  end.

(** How a call ends: it returns a value, throws, runs into undefined behaviour
    (a null or dangling pointer is dereferenced), or does not return (the
    recursion is deeper than the fuel given, or the caller stays blocked). *)
Inductive outcome (A : Type) : Type :=
| Returns (a : A)
| Throws (e : exception)
| Undefined
| Diverges.
Arguments Returns {A} a.
Arguments Throws {A} e.
Arguments Undefined {A}.
Arguments Diverges {A}.

Abbreviation store := (gmap nat INode).

(** [p->...]: the node behind a pointer, when there is one. *)
Definition deref (h : store) (p : ptr) : option INode :=
  match p with
  | Some a => h !! a
  | None => None
  end.

(** ** threadgraph.cpp: the trace algorithm *)

Abbreviation verdict := (TraceNodeState.t * ptr)%type.

(** [avoids.size() > 0 && avoids.find(precede) != avoids.end()] *)
Definition avoided (avoids : gset ptr) (precede : ptr) : bool :=
  bool_decide (0 < size avoids) && bool_decide (precede ∈ avoids).

(** The [for (const auto precede : entryNode->_predecessors)] loop of
    [trace_ready_depend] and the two returns after it.  [self] is the
    recursive call, [exe] the local variable of the same name. *)
Fixpoint scan_predecessors (self : ptr → gset ptr → outcome verdict)
    (h : store) (avoids : gset ptr) (entryNode : ptr)
    (preds : list ptr) (exe : verdict) : outcome verdict :=
  match preds with
  | [] => match exe.2 with
          | Some _ => Returns exe
          | None => Returns (TraceNodeState.Ready, entryNode)
          end
  | precede :: rest =>
      match precede with
      | None => scan_predecessors self h avoids entryNode rest exe
      | Some a =>
          if avoided avoids precede
          then scan_predecessors self h avoids entryNode rest exe
          else
            match h !! a with
            | None => Undefined
            | Some np =>
                match state np with
                | IRunnable.Ready =>
                    match self precede avoids with
                    | Returns branch_state =>
                        match branch_state.1 with
                        | TraceNodeState.Ready => Returns branch_state
                        | TraceNodeState.Pending =>
                            scan_predecessors self h avoids entryNode rest branch_state
                        | TraceNodeState.Completed =>
                            scan_predecessors self h avoids entryNode rest exe
                        end
                    | Throws e => Throws e
                    | Undefined => Undefined
                    | Diverges => Diverges
                    end
                | IRunnable.Executing =>
                    scan_predecessors self h avoids entryNode rest
                      (TraceNodeState.Pending, precede)
                | IRunnable.Completed =>
                    scan_predecessors self h avoids entryNode rest exe
                end
            end
      end
  end.

(** [ThreadGraph::trace_ready_depend].  The C++ recursion is not bounded by the
    code, so the embedding carries [fuel], the depth it may reach. *)
Fixpoint trace_ready_depend (fuel : nat) (h : store) (entryNode : ptr)
    (avoids : gset ptr) : outcome verdict :=
  match fuel with
  | 0 => Diverges
  | S fuel' =>
      match entryNode with
      | None =>
          Throws (runtime_error "EntryNode is null. A valid entry node must be provided.")
      | Some e =>
          match h !! e with
          | None => Undefined
          | Some n =>
              match state n with
              | IRunnable.Executing => Returns (TraceNodeState.Pending, entryNode)
              | IRunnable.Completed => Returns (TraceNodeState.Completed, entryNode)
              | IRunnable.Ready =>
                  scan_predecessors (trace_ready_depend fuel' h) h avoids entryNode
                    (_predecessors n) (TraceNodeState.Ready, nullptr)
              end
          end
      end
  end.

(** ** worker.h, threadgraph.h: the graph and its worker contexts *)

(** The shared state behind [IWorker::_done] and the future taken from it. *)
Inductive promise_state :=
| NotSet
| ValueSet
| ExceptionSet (e : exception).

(** Where the thread of a [GraphWorker] stands in [process_tasks]. *)
Inductive worker_phase :=
| AtLoopHead   (* at the top of the loop body, before the test of
                  [_termination_flag] *)
| AtLock       (* the test has found the flag down; before the lock of
                  [_tasks_mutex] *)
| Waiting      (* in [_task_available_condition.wait(lk)], the mutex released *)
| InExecute    (* the mutex is released, [nextNode.second->execute()] runs *)
| Left.        (* [process_tasks] has returned *)

(** A [WorkerContext] with the locals of its worker's [process_tasks]. *)
Record WorkerContext := mkWorkerContext {
  nextNode : verdict;
  phase : worker_phase;
  _done : promise_state;
  future_valid : bool
}.

(** A [ThreadGraph] together with the store its pointers refer to.  An entry
    of [_worker_contexts] is a [unique_ptr], which may be null. *)
Record machine := mkMachine {
  heap : store;
  _task_pool : list ptr;
  _ready_tasks_cache : list ptr;
  _executing_flag : bool;
  _termination_flag : bool;
  _worker_contexts : list (option WorkerContext);
  _thread_count : N;
  _enable_optimized_threads : bool
}.

Definition with_heap (h : store) (m : machine) : machine :=
  mkMachine h (_task_pool m) (_ready_tasks_cache m) (_executing_flag m)
    (_termination_flag m) (_worker_contexts m) (_thread_count m)
    (_enable_optimized_threads m).

Definition with_task_pool (l : list ptr) (m : machine) : machine :=
  mkMachine (heap m) l (_ready_tasks_cache m) (_executing_flag m)
    (_termination_flag m) (_worker_contexts m) (_thread_count m)
    (_enable_optimized_threads m).

Definition with_ready_tasks_cache (l : list ptr) (m : machine) : machine :=
  mkMachine (heap m) (_task_pool m) l (_executing_flag m)
    (_termination_flag m) (_worker_contexts m) (_thread_count m)
    (_enable_optimized_threads m).

Definition with_executing_flag (b : bool) (m : machine) : machine :=
  mkMachine (heap m) (_task_pool m) (_ready_tasks_cache m) b
    (_termination_flag m) (_worker_contexts m) (_thread_count m)
    (_enable_optimized_threads m).

Definition with_termination_flag (b : bool) (m : machine) : machine :=
  mkMachine (heap m) (_task_pool m) (_ready_tasks_cache m) (_executing_flag m)
    b (_worker_contexts m) (_thread_count m) (_enable_optimized_threads m).

Definition with_worker_contexts (l : list (option WorkerContext)) (m : machine) : machine :=
  mkMachine (heap m) (_task_pool m) (_ready_tasks_cache m) (_executing_flag m)
    (_termination_flag m) l (_thread_count m) (_enable_optimized_threads m).

(** [ThreadGraph::executing] *)
Definition executing (m : machine) : bool := _executing_flag m.

(** [IRunnable::set_state] on the node at address [a]. *)
Definition set_state (a : nat) (s : IRunnable.RunnableState) (h : store) : store :=
  alter (λ n, mkINode s (_predecessors n) (_successors n)) a h.

(** The loop [for (const auto task : _task_pool)] of [trace_ready_node] and
    the function's last line, reached when the loop ends. *)
Fixpoint first_executing (h : store) (pool : list ptr) : outcome verdict :=
  match pool with
  | [] => Returns (TraceNodeState.Completed, nullptr)
  | task :: rest =>
      match deref h task with
      | None => Undefined
      | Some n =>
          if decide (state n = IRunnable.Executing)
          then Returns (TraceNodeState.Pending, task)
          else first_executing h rest
      end
  end.

(** The branch [entryNode == nullptr] of [trace_ready_node]. *)
Definition trace_ready_node_null (fuel : nat) (m : machine) : outcome verdict :=
  match _ready_tasks_cache m with
  | first :: _ => trace_ready_depend fuel (heap m) first ∅
  | [] => first_executing (heap m) (_task_pool m)
  end.

(** The successor loop of the branch for an executing [entryNode]:
    [Returns (Some r)] is a [return r] from inside the loop. *)
Fixpoint scan_successors_executing (fuel : nat) (h : store) (succs : list ptr)
    : outcome (option verdict) :=
  match succs with
  | [] => Returns None
  | node :: rest =>
      match deref h node with
      | None => Undefined
      | Some nn =>
          if decide (state nn = IRunnable.Ready)
          then match trace_ready_depend fuel h node ∅ with
               | Returns trackingnode_ =>
                   if decide (trackingnode_.1 = TraceNodeState.Ready)
                   then Returns (Some trackingnode_)
                   else scan_successors_executing fuel h rest
               | Throws e => Throws e
               | Undefined => Undefined
               | Diverges => Diverges
               end
          else scan_successors_executing fuel h rest
      end
  end.

(** The successor loop of the branch for a completed [entryNode]: [inl r] is
    a [return r] from inside the loop, [inr delay] the local [delay] at its
    end. *)
Fixpoint scan_successors_completed (fuel : nat) (h : store) (succs : list ptr)
    (delay : verdict) : outcome (verdict + verdict) :=
  match succs with
  | [] => Returns (inr delay)
  | node :: rest =>
      match deref h node with
      | None => Undefined
      | Some nn =>
          if decide (state nn = IRunnable.Ready)
          then match trace_ready_depend fuel h node ∅ with
               | Returns trackingnode_ =>
                   match trackingnode_.1 with
                   | TraceNodeState.Ready => Returns (inl trackingnode_)
                   | TraceNodeState.Pending =>
                       scan_successors_completed fuel h rest trackingnode_
                   | TraceNodeState.Completed =>
                       scan_successors_completed fuel h rest delay
                   end
               | Throws e => Throws e
               | Undefined => Undefined
               | Diverges => Diverges
               end
          else scan_successors_completed fuel h rest delay
      end
  end.

(** Sequencing of calls that may throw. *)
Definition and_then {A B : Type} (o : outcome A) (k : A → outcome B) : outcome B :=
  match o with
  | Returns a => k a
  | Throws e => Throws e
  | Undefined => Undefined
  | Diverges => Diverges
  end.

(** [ThreadGraph::trace_ready_node].  Its calls to itself all pass [nullptr]
    and so run [trace_ready_node_null]. *)
Definition trace_ready_node (fuel : nat) (m : machine) (entryNode : ptr)
    : outcome verdict :=
  match entryNode with
  | None => trace_ready_node_null fuel m
  | Some e =>
      match heap m !! e with
      | None => Undefined
      | Some n =>
          match state n with
          | IRunnable.Executing =>
              and_then (scan_successors_executing fuel (heap m) (_successors n))
                (λ found,
                  match found with
                  | Some trackingnode_ => Returns trackingnode_
                  | None =>
                      and_then (trace_ready_node_null fuel m)
                        (λ next_ready_task,
                          if decide (next_ready_task.1 = TraceNodeState.Ready)
                          then Returns next_ready_task
                          else Returns (TraceNodeState.Pending, entryNode))
                  end)
          | IRunnable.Ready =>
              and_then (trace_ready_depend fuel (heap m) entryNode ∅)
                (λ ready_depend,
                  match ready_depend.1 with
                  | TraceNodeState.Ready => Returns ready_depend
                  | TraceNodeState.Pending =>
                      and_then (trace_ready_node_null fuel m)
                        (λ next_ready_task,
                          if decide (next_ready_task.1 = TraceNodeState.Ready)
                          then Returns next_ready_task
                          else Returns ready_depend)
                  | TraceNodeState.Completed =>
                      Returns (TraceNodeState.Completed, nullptr)
                  end)
          | IRunnable.Completed =>
              and_then
                (scan_successors_completed fuel (heap m) (_successors n)
                   (TraceNodeState.Pending, nullptr))
                (λ scanned,
                  match scanned with
                  | inl trackingnode_ => Returns trackingnode_
                  | inr delay =>
                      and_then (trace_ready_node_null fuel m)
                        (λ readynode_,
                          if decide (readynode_.1 = TraceNodeState.Ready)
                          then Returns readynode_
                          else if decide (is_Some (delay.2))
                          then Returns delay
                          else if decide (readynode_.1 = TraceNodeState.Pending)
                          then Returns readynode_
                          else Returns (TraceNodeState.Completed, nullptr))
                  end)
          end
      end
  end.

(** ** task.h, task.cpp: the Task handle

    A [Task] holds one field, [_node]; a handle is modelled by that pointer.
    Member functions take the handle they are called on as [this]. *)

Module Task.

Inductive TaskState := READY | EXECUTING | COMPLETED.

(** [static_cast<TaskState>(int)] on the three values a state takes. *)
Definition of_runnable (s : IRunnable.RunnableState) : TaskState :=
  match s with
  | IRunnable.Ready => READY
  | IRunnable.Executing => EXECUTING
  | IRunnable.Completed => COMPLETED
  end.

(** The position a [TaskIterator] wraps: an index into one edge vector of the
    node at [owner], or the value-initialised iterator of [TaskIterator({})]. *)
Inductive edge_kind := Predecessors | Successors.

Inductive TaskIterator :=
| singular
| into (owner : nat) (k : edge_kind) (index : nat).


Definition push_back_predecessor (p : ptr) (n : INode) : INode :=
  mkINode (state n) (_predecessors n ++ [p]) (_successors n).

Definition push_back_successor (p : ptr) (n : INode) : INode :=
  mkINode (state n) (_predecessors n) (_successors n ++ [p]).

(** [v.erase(std::remove(v.begin(), v.end(), p), v.end())] *)
Definition erase_remove (p : ptr) (v : list ptr) : list ptr :=
  filter (λ q, q ≠ p) v.

Definition remove_predecessor (p : ptr) (n : INode) : INode :=
  mkINode (state n) (erase_remove p (_predecessors n)) (_successors n).

Definition remove_successor (p : ptr) (n : INode) : INode :=
  mkINode (state n) (_predecessors n) (erase_remove p (_successors n)).

Definition msg_task_not_valid : string := "Task is not valid".
Definition msg_self_relation : string := "Cannot set relation to itself".
Definition msg_circular : string := "Circular dependency detected".

(** The error the specification calls CYCLE. *)
Definition CYCLE : exception := runtime_error msg_circular.

(** [Task::depend(const Task& t)]: the store after the call and how the call
    ended. *)
Definition depend (this t : ptr) (h : store) : store * outcome unit :=
  match t with
  | None => (h, Throws (invalid_argument msg_task_not_valid))
  | Some ta =>
      if decide (t = this)
      then (h, Throws (invalid_argument msg_self_relation))
      else
        match h !! ta with
        | None => (h, Undefined)
        | Some nt =>
            if decide (this ∈ _predecessors nt)
            then (h, Throws CYCLE)
            else
              match this with
              | None => (h, Undefined)
              | Some me =>
                  match h !! me with
                  | None => (h, Undefined)
                  | Some nme =>
                      let h1 :=
                        if decide (t ∈ _predecessors nme) then h
                        else <[me := push_back_predecessor t nme]> h in
                      match h1 !! ta with
                      | None => (h1, Undefined)
                      | Some nt1 =>
                          let h2 :=
                            if decide (this ∈ _successors nt1) then h1
                            else <[ta := push_back_successor this nt1]> h1 in
                          (h2, Returns ())
                      end
                  end
              end
        end
  end.

(** [Task::precede(const Task& t)]: [tmp = t; tmp.depend( *this )]. *)
Definition precede (this t : ptr) (h : store) : store * outcome unit :=
  depend t this h.

(** [Task::depend(const std::vector<Task>&)]; the first throw ends the loop. *)
Fixpoint depend_all (this : ptr) (others : list ptr) (h : store) : store * outcome unit :=
  match others with
  | [] => (h, Returns ())
  | t :: rest =>
      match depend this t h with
      | (h', Returns _) => depend_all this rest h'
      | failed => failed
      end
  end.

(** [Task::precede(const std::vector<Task>&)] *)
Fixpoint precede_all (this : ptr) (others : list ptr) (h : store) : store * outcome unit :=
  match others with
  | [] => (h, Returns ())
  | t :: rest =>
      match precede this t h with
      | (h', Returns _) => precede_all this rest h'
      | failed => failed
      end
  end.

(** [Task::erase_depend(const Task& other)] *)
Definition erase_depend (this other : ptr) (h : store) : store * outcome unit :=
  match this, other with
  | Some me, Some oa =>
      match h !! me with
      | None => (h, Undefined)
      | Some nme =>
          let h1 := <[me := remove_predecessor other nme]> h in
          match h1 !! oa with
          | None => (h1, Undefined)
          | Some no => (<[oa := remove_successor this no]> h1, Returns ())
          end
      end
  | _, _ => (h, Returns ())
  end.

(** [Task::erase_precede(const Task& other)] *)
Definition erase_precede (this other : ptr) (h : store) : store * outcome unit :=
  match this, other with
  | Some me, Some oa =>
      match h !! me with
      | None => (h, Undefined)
      | Some nme =>
          let h1 := <[me := remove_successor other nme]> h in
          match h1 !! oa with
          | None => (h1, Undefined)
          | Some no => (<[oa := remove_predecessor this no]> h1, Returns ())
          end
      end
  | _, _ => (h, Returns ())
  end.

(** [Task::predecessors_size() const { return _node->_predecessors.size(); }] *)
Definition predecessors_size (this : ptr) (h : store) : outcome nat :=
  match deref h this with
  | Some n => Returns (length (_predecessors n))
  | None => Undefined
  end.

(** [Task::successors_size() const { return _node->_successors.size(); }] *)
Definition successors_size (this : ptr) (h : store) : outcome nat :=
  match deref h this with
  | Some n => Returns (length (_successors n))
  | None => Undefined
  end.

(** [Task::reset_state() { if (_node) _node->set_state(INode::Ready); }] *)
Definition reset_state (this : ptr) (h : store) : store * outcome unit :=
  match this with
  | None => (h, Returns ())
  | Some a =>
      match h !! a with
      | None => (h, Undefined)
      | Some _ => (set_state a IRunnable.Ready h, Returns ())
      end
  end.

(** [Task::empty() const { return _node == nullptr; }] *)
Definition empty (this : ptr) : bool := bool_decide (this = nullptr).

(** [_node ? TaskIterator(_node->_predecessors.begin()) : TaskIterator({})] *)
Definition begin_predecessors (this : ptr) (h : store) : outcome TaskIterator :=
  match this with
  | None => Returns singular
  | Some a =>
      match h !! a with
      | None => Undefined
      | Some _ => Returns (into a Predecessors 0)
      end
  end.

Definition end_predecessors (this : ptr) (h : store) : outcome TaskIterator :=
  match this with
  | None => Returns singular
  | Some a =>
      match h !! a with
      | None => Undefined
      | Some n => Returns (into a Predecessors (length (_predecessors n)))
      end
  end.

Definition begin_successors (this : ptr) (h : store) : outcome TaskIterator :=
  match this with
  | None => Returns singular
  | Some a =>
      match h !! a with
      | None => Undefined
      | Some _ => Returns (into a Successors 0)
      end
  end.

Definition end_successors (this : ptr) (h : store) : outcome TaskIterator :=
  match this with
  | None => Returns singular
  | Some a =>
      match h !! a with
      | None => Undefined
      | Some n => Returns (into a Successors (length (_successors n)))
      end
  end.

(** [Task::state() const { return static_cast<TaskState>(_node->state()); }] *)
Definition state (this : ptr) (h : store) : outcome TaskState :=
  match deref h this with
  | Some n => Returns (of_runnable (state n))
  | None => Undefined
  end.

End Task.

(** ** threadgraph.cpp: mutation of the graph *)

Definition msg_node_null : string :=
  "Node is null. A valid node must be provided.".
Definition msg_push_executing : string :=
  "Cannot push tasks while executing.".
Definition msg_node_not_ready : string :=
  "Node is already in EXECUTING or COMPLETE state. A valid node must be provided.".
Definition msg_node_in_graph : string :=
  "Node is already in the graph. A valid node must be provided.".
Definition msg_erase_executing : string :=
  "Cannot erase tasks while executing.".
Definition msg_start_executing : string :=
  "Cannot start execution while already executing.".
Definition msg_worker_prefix : string :=
  "Exception occurred in worker thread: ".
Definition newline : string := String (Ascii.ascii_of_nat 10) EmptyString.

(** [ThreadGraph::push(at::INode* node)]: the graph after the call and the
    [Task] returned. *)
Definition push (node : ptr) (m : machine) : machine * outcome ptr :=
  match node with
  | None => (m, Throws (invalid_argument msg_node_null))
  | Some a =>
      if executing m then (m, Throws (runtime_error msg_push_executing))
      else
        match heap m !! a with
        | None => (m, Undefined)
        | Some n =>
            if bool_decide (state n = IRunnable.Executing)
               || bool_decide (state n = IRunnable.Completed)
            then (m, Throws (invalid_argument msg_node_not_ready))
            else if decide (node ∈ _task_pool m)
            then (m, Throws (invalid_argument msg_node_in_graph))
            else (with_task_pool (_task_pool m ++ [node]) m, Returns node)
        end
  end.

(** A node as its constructor leaves it: [IRunnable()] sets the state to
    [Ready], the edge vectors are empty. *)
Definition fresh_node : INode := mkINode IRunnable.Ready [] [].

(** The template [push(Fn&&, Args&&...)], that is [push(new NodeHolder(...))],
    the allocator handing out the free address [a]. *)
Definition push_callable (a : nat) (m : machine) : machine * outcome ptr :=
  push (Some a) (with_heap (<[a := fresh_node]> (heap m)) m).

(** [std::find] followed by [erase(it)]: the first occurrence goes. *)
Fixpoint erase_first (p : ptr) (v : list ptr) : list ptr :=
  match v with
  | [] => []
  | q :: rest => if decide (q = p) then rest else q :: erase_first p rest
  end.

(** First loop of [erase]: [t._node] leaves the successors of each of its
    predecessors.  [None]: a null or dangling predecessor was dereferenced. *)
Fixpoint unlink_predecessors (t : ptr) (preds : list ptr) (h : store) : option store :=
  match preds with
  | [] => Some h
  | predecessor :: rest =>
      match predecessor with
      | None => None
      | Some a =>
          match h !! a with
          | None => None
          | Some n => unlink_predecessors t rest (<[a := Task.remove_successor t n]> h)
          end
      end
  end.

(** Second loop of [erase]. *)
Fixpoint unlink_successors (t : ptr) (succs : list ptr) (h : store) : option store :=
  match succs with
  | [] => Some h
  | successor :: rest =>
      match successor with
      | None => None
      | Some a =>
          match h !! a with
          | None => None
          | Some n => unlink_successors t rest (<[a := Task.remove_predecessor t n]> h)
          end
      end
  end.

(** [ThreadGraph::erase(Task& t)]: the graph after the call, the handle [t]
    after the call, and the value returned. *)
Definition erase (t : ptr) (m : machine) : machine * ptr * outcome bool :=
  match t with
  | None => (m, t, Returns false)
  | Some a =>
      if executing m then (m, t, Throws (runtime_error msg_erase_executing))
      else if decide (t ∈ _task_pool m)
      then
        match heap m !! a with
        | None => (m, t, Undefined)
        | Some n =>
            match unlink_predecessors t (_predecessors n) (heap m) with
            | None => (m, t, Undefined)
            | Some h1 =>
                match h1 !! a with
                | None => (m, t, Undefined)
                | Some n1 =>
                    match unlink_successors t (_successors n1) h1 with
                    | None => (m, t, Undefined)
                    | Some h2 =>
                        (with_task_pool (erase_first t (_task_pool m))
                           (with_heap (delete a h2) m),
                         nullptr, Returns true)
                    end
                end
            end
        end
      else (m, t, Returns false)
  end.

(** [ThreadGraph::reset] *)
Definition reset (m : machine) : machine :=
  with_worker_contexts []
    (with_ready_tasks_cache []
       (with_termination_flag false (with_executing_flag false m))).

(** [ThreadGraph::reset_all_tasks_state]; [None] when a pool entry cannot be
    dereferenced. *)
Fixpoint reset_all_tasks_state (pool : list ptr) (h : store) : option store :=
  match pool with
  | [] => Some h
  | t :: rest =>
      match deref h t with
      | None => None
      | Some _ =>
          match t with
          | Some a => reset_all_tasks_state rest (set_state a IRunnable.Ready h)
          | None => None
          end
      end
  end.

(** [ThreadGraph::remove_ready_cache] *)
Definition remove_ready_cache (node : ptr) (m : machine) : machine * bool :=
  if decide (node ∈ _ready_tasks_cache m)
  then (with_ready_tasks_cache (erase_first node (_ready_tasks_cache m)) m, true)
  else (m, false).

(** A context as [create_worker] makes it: the thread is at the start of
    [process_tasks], whose local [nextNode] begins as [(Pending, nullptr)]. *)
Definition new_worker_context : WorkerContext :=
  mkWorkerContext (TraceNodeState.Pending, nullptr) AtLoopHead NotSet true.

(** [ThreadGraph::create_worker] *)
Definition create_worker (count : nat) (m : machine) : machine :=
  with_worker_contexts
    (_worker_contexts m ++ replicate count (Some new_worker_context)) m.

(** ** threadgraph.cpp: wait and start *)

(** How the first loop of [wait] ends. *)
Inductive collected :=
| Collected (exception_msg : string)   (* the loop ran to its end *)
| Escaped (e : exception)              (* [future.get()] rethrew past the handler *)
| Blocked.                             (* a worker has not set its promise *)

Definition invalidate (c : WorkerContext) : WorkerContext :=
  mkWorkerContext (nextNode c) (phase c) (_done c) false.

(** First loop of [ThreadGraph::wait]: [future.get()] on every context with a
    valid future.  The handler is [catch (const std::exception& e)]; an
    exception of another type is not caught.  Returns the contexts as the loop
    leaves them ([get] invalidates a future). *)
Fixpoint collect_futures (contexts : list (option WorkerContext))
    (exception_msg : string) : list (option WorkerContext) * collected :=
  match contexts with
  | [] => ([], Collected exception_msg)
  | context :: rest =>
      match context with
      | None =>
          let '(rest', r) := collect_futures rest exception_msg in (context :: rest', r)
      | Some c =>
          if negb (future_valid c)
          then let '(rest', r) := collect_futures rest exception_msg in
               (context :: rest', r)
          else
            match _done c with
            | NotSet => (context :: rest, Blocked)
            | ValueSet =>
                let '(rest', r) := collect_futures rest exception_msg in
                (Some (invalidate c) :: rest', r)
            | ExceptionSet e =>
                match what_of e with
                | Some w =>
                    let '(rest', r) :=
                      collect_futures rest (exception_msg ++ w ++ newline) in
                    (Some (invalidate c) :: rest', r)
                | None => (Some (invalidate c) :: rest, Escaped e)
                end
            end
      end
  end.

(** How [wait] ends: it returns, throws, or stays blocked on a future. *)
Inductive waited :=
| WaitReturns
| WaitThrows (e : exception)
| WaitBlocks.

(** [ThreadGraph::wait].  Joining the threads changes nothing modelled here:
    a thread ends right after its worker sets the promise. *)
Definition wait (m : machine) : machine * waited :=
  match collect_futures (_worker_contexts m) EmptyString with
  | (contexts', Collected exception_msg) =>
      let m' := reset (with_worker_contexts contexts' m) in
      if decide (exception_msg = EmptyString)
      then (m', WaitReturns)
      else (m', WaitThrows (runtime_error (msg_worker_prefix ++ exception_msg)))
  | (contexts', Escaped e) => (with_worker_contexts contexts' m, WaitThrows e)
  | (contexts', Blocked) => (with_worker_contexts contexts' m, WaitBlocks)
  end.

(** [ThreadGraph::start]; [_thread_count] is a [uint32_t]. *)
Definition start (m : machine) : machine * outcome unit :=
  if executing m then (m, Throws (runtime_error msg_start_executing))
  else
    match wait m with
    | (m1, WaitReturns) =>
        let m2 := reset m1 in
        match reset_all_tasks_state (_task_pool m2) (heap m2) with
        | None => (m2, Undefined)
        | Some h =>
            let m3 :=
              with_ready_tasks_cache (_task_pool m2)
                (with_executing_flag true (with_heap h m2)) in
            let numThreads :=
              if _enable_optimized_threads m3
              then N.min (_thread_count m3)
                     (N.of_nat (length (_task_pool m3)) mod 2 ^ 32)%N
              else _thread_count m3 in
            (create_worker (N.to_nat numThreads) m3, Returns ())
        end
    | (m1, WaitThrows e) => (m1, Throws e)
    | (m1, WaitBlocks) => (m1, Diverges)
    end.

(** ** worker.cpp: GraphWorker::process_tasks

    The body of the [do ... while (true)] loop is cut at every place where
    the worker reads or writes what other threads share.  The load of
    [_termination_flag] is a step of its own: it comes before the lock, and
    the flag is stored without the lock (by the handler below and by
    [terminate]), so the flag may go up between the test and the lock.  The
    block under [_tasks_mutex] is one step, up to the wait on the condition
    variable; the return of that wait (by a notification, or spuriously) is a
    step; the end of the payload with the atomic store of [Completed] is a
    step.  Worker [w] is the one behind [_worker_contexts[w]]. *)

(** How the payload [execute()] of a running node ends. *)
Inductive payload_end :=
| PayloadReturns
| PayloadRaises (e : exception).

(** What an observer of the run sees happen. *)
Inductive event :=
| Started (a : nat)     (* [set_state(Executing)] on the node at [a] *)
| Finished (a : nat).   (* [set_state(Completed)] on the node at [a] *)

#[global] Instance event_eq_dec : EqDecision event.
Proof. solve_decision. Defined.

Definition with_worker (w : nat) (c : WorkerContext) (m : machine) : machine :=
  with_worker_contexts (<[w := Some c]> (_worker_contexts m)) m.

Definition worker_at (w : nat) (m : machine) : option WorkerContext :=
  match _worker_contexts m !! w with
  | Some (Some c) => Some c
  | _ => None
  end.

(** The handler [catch (...)] of [process_tasks]: the flag goes up, then the
    promise takes the exception; the worker reads nothing in between. *)
Definition worker_catch (w : nat) (c : WorkerContext) (e : exception) (m : machine)
    : machine :=
  with_worker w (mkWorkerContext (nextNode c) Left (ExceptionSet e) (future_valid c))
    (with_termination_flag true m).

(** Leaving the loop by [break]: [_done.set_value()]. *)
Definition worker_leave (w : nat) (c : WorkerContext) (next : verdict) (m : machine)
    : machine :=
  with_worker w (mkWorkerContext next Left ValueSet (future_valid c)) m.

(** One step of worker [w]; [pe] tells how its payload ends, should the
    worker be inside [execute()].  [None]: the worker cannot move (it has
    left, or its call of [trace_ready_node] does not return or is undefined). *)
Definition process_tasks_step (fuel : nat) (w : nat) (pe : payload_end) (m : machine)
    : option (machine * list event) :=
  match worker_at w m with
  | None => None
  | Some c =>
      match phase c with
      | Left => None
      | AtLoopHead =>
          if _termination_flag m
          then Some (worker_leave w c (nextNode c) m, [])
          else
            Some (with_worker w
                    (mkWorkerContext (nextNode c) AtLock (_done c) (future_valid c)) m,
                  [])
      | AtLock =>
          match trace_ready_node fuel m ((nextNode c).2) with
          | Returns next =>
              match next.1 with
              | TraceNodeState.Ready =>
                  match next.2 with
                  | Some a =>
                      match heap m !! a with
                      | Some _ =>
                          let m1 := with_heap (set_state a IRunnable.Executing (heap m)) m in
                          let m2 := (remove_ready_cache next.2 m1).1 in
                          Some (with_worker w
                                  (mkWorkerContext next InExecute (_done c) (future_valid c))
                                  m2,
                                [Started a])
                      | None => None
                      end
                  | None => None
                  end
              | TraceNodeState.Pending =>
                  Some (with_worker w
                          (mkWorkerContext next Waiting (_done c) (future_valid c)) m,
                        [])
              | TraceNodeState.Completed => Some (worker_leave w c next m, [])
              end
          | Throws e => Some (worker_catch w c e m, [])
          | Undefined => None
          | Diverges => None
          end
      | Waiting =>
          Some (with_worker w
                  (mkWorkerContext (nextNode c) AtLoopHead (_done c) (future_valid c)) m,
                [])
      | InExecute =>
          match pe with
          | PayloadReturns =>
              match (nextNode c).2 with
              | Some a =>
                  Some (with_worker w
                          (mkWorkerContext (nextNode c) AtLoopHead (_done c) (future_valid c))
                          (with_heap (set_state a IRunnable.Completed (heap m)) m),
                        [Finished a])
              | None => None
              end
          | PayloadRaises e => Some (worker_catch w c e m, [])
          end
      end
  end.

(** A run: the scheduler picks a worker for every step.  The events come out
    in the order they happen. *)
Fixpoint run (fuel : nat) (schedule : list (nat * payload_end)) (m : machine)
    : option (machine * list event) :=
  match schedule with
  | [] => Some (m, [])
  | (w, pe) :: rest =>
      match process_tasks_step fuel w pe m with
      | None => None
      | Some (m1, evs1) =>
          match run fuel rest m1 with
          | None => None
          | Some (m2, evs2) => Some (m2, (evs1 ++ evs2)%list)
          end
      end
  end.

(** ** Client programs: sequences of calls on the graph and on Task handles *)

Inductive client_call :=
| CallNew (a : nat)                       (* [new] of a node class returns [a] *)
| CallPush (node : ptr)
| CallDepend (this t : ptr)
| CallPrecede (this t : ptr)
| CallDependAll (this : ptr) (others : list ptr)
| CallPrecedeAll (this : ptr) (others : list ptr)
| CallEraseDepend (this other : ptr)
| CallErasePrecede (this other : ptr)
| CallErase (t : ptr).

(** Whether a call ended by returning or by throwing, the two ways that
    leave the program in a defined state. *)
Definition defined {A : Type} (o : outcome A) : bool :=
  match o with
  | Returns _ | Throws _ => true
  | Undefined | Diverges => false
  end.

Definition on_heap {A : Type} (f : store → store * outcome A) (m : machine)
    : option machine :=
  let '(h, o) := f (heap m) in
  if defined o then Some (with_heap h m) else None.

(** The graph after one call; [None] when the call is undefined, or when
    [CallNew] names an address that is in use (no allocator returns one). *)
Definition client_step (c : client_call) (m : machine) : option machine :=
  match c with
  | CallNew a =>
      match heap m !! a with
      | None => Some (with_heap (<[a := fresh_node]> (heap m)) m)
      | Some _ => None
      end
  | CallPush node =>
      let '(m', o) := push node m in if defined o then Some m' else None
  | CallDepend this t => on_heap (Task.depend this t) m
  | CallPrecede this t => on_heap (Task.precede this t) m
  | CallDependAll this others => on_heap (Task.depend_all this others) m
  | CallPrecedeAll this others => on_heap (Task.precede_all this others) m
  | CallEraseDepend this other => on_heap (Task.erase_depend this other) m
  | CallErasePrecede this other => on_heap (Task.erase_precede this other) m
  | CallErase t =>
      let '(m', _, o) := erase t m in if defined o then Some m' else None
  end.

Fixpoint client_run (calls : list client_call) (m : machine) : option machine :=
  match calls with
  | [] => Some m
  | c :: rest =>
      match client_step c m with
      | None => None
      | Some m' => client_run rest m'
      end
  end.

(** [ThreadGraph(thread_count, enable_optimized_threads)] with nothing
    allocated yet. *)
Definition new_graph (thread_count : N) (enable_optimized_threads : bool) : machine :=
  mkMachine ∅ [] [] false false [] thread_count enable_optimized_threads.

(** ** The subroutine trace-depend as the specification words it

    For a READY entry node the specification looks at the predecessors that
    are neither null nor in the avoid-set, and picks among what it saw there:
    the first READY result of a recursion, else the PENDING remembered last,
    else READY with the entry node itself. *)

Module Spec.

(** What looking at one predecessor yields. *)
Inductive observation :=
| Recursed (r : verdict)      (* the predecessor is READY: result of the recursion *)
| SawExecuting (p : ptr)      (* the predecessor is EXECUTING *)
| SawCompleted.               (* the predecessor is COMPLETED *)

Definition considered (avoids : gset ptr) (preds : list ptr) : list ptr :=
  filter (λ p, p ≠ nullptr ∧ p ∉ avoids) preds.

Definition observe (fuel : nat) (h : store) (avoids : gset ptr) (p : ptr)
    : outcome observation :=
  match deref h p with
  | None => Undefined
  | Some np =>
      match state np with
      | IRunnable.Ready =>
          and_then (trace_ready_depend fuel h p avoids) (λ r, Returns (Recursed r))
      | IRunnable.Executing => Returns (SawExecuting p)
      | IRunnable.Completed => Returns SawCompleted
      end
  end.

Definition ready_result (o : observation) : option verdict :=
  match o with
  | Recursed r => if decide (r.1 = TraceNodeState.Ready) then Some r else None
  | _ => None
  end.

Definition pending_result (o : observation) : option verdict :=
  match o with
  | Recursed r => if decide (r.1 = TraceNodeState.Pending) then Some r else None
  | SawExecuting p => Some (TraceNodeState.Pending, p)
  | SawCompleted => None
  end.

Definition first_ready (obs : list observation) : option verdict :=
  head (omap ready_result obs).

Definition remembered (obs : list observation) : list verdict :=
  omap pending_result obs.

Definition select (E : ptr) (obs : list observation) : verdict :=
  match first_ready obs with
  | Some r => r
  | None =>
      match last (remembered obs) with
      | Some r => r
      | None => (TraceNodeState.Ready, E)
      end
  end.

End Spec.

(** ** Invariants of the data model *)

(** Every edge entry is the address of a live node. *)
Definition edges_closed (h : store) : Prop :=
  ∀ a n p, h !! a = Some n → p ∈ _predecessors n ∨ p ∈ _successors n →
    ∃ b, p = Some b ∧ is_Some (h !! b).

(** [b ∈ succ(a) ⇔ a ∈ pred(b)] *)
Definition edges_symmetric (h : store) : Prop :=
  ∀ a b na nb, h !! a = Some na → h !! b = Some nb →
    (Some b ∈ _successors na ↔ Some a ∈ _predecessors nb).

Definition edges_nodup (h : store) : Prop :=
  ∀ a n, h !! a = Some n → NoDup (_predecessors n) ∧ NoDup (_successors n).

Definition no_self_edge (h : store) : Prop :=
  ∀ a n, h !! a = Some n → Some a ∉ _predecessors n.

(** The node set holds live nodes, each once. *)
Definition pool_wf (m : machine) : Prop :=
  NoDup (_task_pool m) ∧
  ∀ p, p ∈ _task_pool m → ∃ a, p = Some a ∧ is_Some (heap m !! a).

(** The invariant of the edge lists. *)
Definition store_inv (h : store) : Prop :=
  edges_closed h ∧ edges_symmetric h ∧ edges_nodup h ∧ no_self_edge h.

(** The invariant of the data model. *)
Definition graph_inv (m : machine) : Prop :=
  store_inv (heap m) ∧ pool_wf m.

(** [Task::depend] adds [p] to a vector only when [std::find] misses it. *)
Definition add_predecessor (p : ptr) (n : INode) : INode :=
  if decide (p ∈ _predecessors n) then n else Task.push_back_predecessor p n.

Definition add_successor (p : ptr) (n : INode) : INode :=
  if decide (p ∈ _successors n) then n else Task.push_back_successor p n.

(** Every READY verdict of [trace_ready_depend] names a READY node whose
    predecessors outside the avoid-set are all COMPLETED. *)
Definition claimable (h : store) (avoids : gset ptr) (r : verdict) : Prop :=
  ∃ a n, r.2 = Some a ∧ h !! a = Some n ∧ state n = IRunnable.Ready ∧
    ∀ b, Some b ∈ _predecessors n → Some b ∉ avoids →
      ∃ nb, h !! b = Some nb ∧ state nb = IRunnable.Completed.

(** A topological rank: the recursion of [trace_ready_depend] descends it. *)
Definition ranked (h : store) (rank : nat → nat) : Prop :=
  ∀ a n p, h !! a = Some n → Some p ∈ _predecessors n → rank p < rank a.

(** ** Sample graphs *)

(** The diamond A → {B, C} → D of the test scenarios, at addresses 1..4, as
    [push] and [depend] build it. *)
Definition diamond_calls : list client_call :=
  [ CallNew 1; CallPush (Some 1); CallNew 2; CallPush (Some 2);
    CallNew 3; CallPush (Some 3); CallNew 4; CallPush (Some 4);
    CallDepend (Some 2) (Some 1); CallDepend (Some 3) (Some 1);
    CallDependAll (Some 4) [Some 2; Some 3] ].

Definition diamond : machine :=
  default (new_graph 2 false) (client_run diamond_calls (new_graph 2 false)).

(** Two nodes, [t2.depend(t1)] done. *)
Definition pair_graph : machine :=
  default (new_graph 2 true)
    (client_run [CallNew 1; CallPush (Some 1); CallNew 2; CallPush (Some 2);
                 CallDepend (Some 2) (Some 1)] (new_graph 2 true)).

(** A run of the diamond on two workers, up to the start of D: A runs, then
    B and C side by side, then D is claimed. *)
Definition diamond_schedule : list (nat * payload_end) :=
  [ (0, PayloadReturns); (0, PayloadReturns);   (* worker 0 tests the flag, claims A *)
    (0, PayloadReturns);                        (* A finishes *)
    (0, PayloadReturns); (0, PayloadReturns);   (* worker 0 tests the flag, claims B *)
    (1, PayloadReturns); (1, PayloadReturns);   (* worker 1 tests the flag, claims C *)
    (0, PayloadReturns); (1, PayloadReturns);   (* B finishes, C finishes *)
    (0, PayloadReturns); (0, PayloadReturns) ]. (* worker 0 tests the flag, claims D *)

Definition diamond_started : machine := (start diamond).1.

Definition diamond_running : machine :=
  default diamond (fst <$> run 5 diamond_schedule diamond_started).

(** The edge vectors of a node. *)
Definition edges_of (n : INode) : list ptr * list ptr :=
  (_predecessors n, _successors n).

(** Two stores with the same nodes and the same edges. *)
Definition same_edges (h h' : store) : Prop :=
  ∀ a, edges_of <$> h !! a = edges_of <$> h' !! a.

(** Every node of the pool that is COMPLETED has its [Finished] event in the
    log [evs]. *)
Definition completions_logged (m : machine) (evs : list event) : Prop :=
  ∀ a n, Some a ∈ _task_pool m → heap m !! a = Some n →
    state n = IRunnable.Completed → Finished a ∈ evs.

(** ** What wait reports *)

(** The exceptions held by the futures [wait] reads, in the order of the
    worker contexts. *)
Fixpoint captured (contexts : list (option WorkerContext)) : list exception :=
  match contexts with
  | [] => []
  | Some c :: rest =>
      if future_valid c
      then match _done c with
           | ExceptionSet e => e :: captured rest
           | _ => captured rest
           end
      else captured rest
  | None :: rest => captured rest
  end.

(** Every worker [wait] reads has ended: its promise is set. *)
Definition all_set (contexts : list (option WorkerContext)) : Prop :=
  ∀ c, Some c ∈ contexts → future_valid c = true → _done c ≠ NotSet.

(** [s] occurs in [t]. *)
Definition is_substring (s t : string) : Prop :=
  ∃ before after, t = (before ++ s ++ after)%string.

(** The claim on [wait], word for word: when some worker faulted, [wait]
    throws an error whose message contains the message of every captured
    exception; when none did, it returns. *)
Definition wait_reports_every_fault (m : machine) : Prop :=
  (captured (_worker_contexts m) ≠ [] →
     ∃ e msg, (wait m).2 = WaitThrows e ∧ what_of e = Some msg ∧
       ∀ e' w, e' ∈ captured (_worker_contexts m) → what_of e' = Some w →
         is_substring w msg)
  ∧ (captured (_worker_contexts m) = [] → (wait m).2 = WaitReturns).

(** Two independent nodes on two workers; the payload of the first throws
    [std::runtime_error("boom")], the payload of the second throws an [int]. *)
Definition two_faults : machine :=
  let g := default (new_graph 2 true)
             (client_run [CallNew 1; CallPush (Some 1); CallNew 2; CallPush (Some 2)]
                (new_graph 2 true)) in
  default g
    (fst <$> run 3 [ (0, PayloadReturns); (0, PayloadReturns);
                     (1, PayloadReturns); (1, PayloadReturns);
                     (0, PayloadRaises (runtime_error "boom"));
                     (1, PayloadRaises (foreign_exception 42)) ]
               (start g).1).

(** What the first loop of [wait] appends to [exception_msg]. *)
Fixpoint report (es : list exception) : string :=
  match es with
  | [] => EmptyString
  | e :: rest => default EmptyString (what_of e) ++ newline ++ report rest
  end.

(** The node at [x] once the edge from [oa] to [me] is dropped on both sides:
    [oa] leaves the predecessors of [me], [me] leaves the successors of [oa]. *)
Definition without_edge (me oa : nat) (x : nat) (n : INode) : INode :=
  mkINode (state n)
    (if decide (x = me) then Task.erase_remove (Some oa) (_predecessors n)
     else _predecessors n)
    (if decide (x = oa) then Task.erase_remove (Some me) (_successors n)
     else _successors n).

(** The node at [x] once the edge from [tb] to [me] is there on both sides. *)
Definition with_edge (me tb : nat) (x : nat) (n : INode) : INode :=
  let n1 := if decide (x = me) then add_predecessor (Some tb) n else n in
  if decide (x = tb) then add_successor (Some me) n1 else n1.

(** The node at [x] once every edge to or from the node at [a] is dropped. *)
Definition without_node (a : nat) (n : INode) : INode :=
  Task.remove_predecessor (Some a) (Task.remove_successor (Some a) n).

(** The diamond after worker 0 has found the termination flag down. *)
Definition diamond_past_test : machine :=
  default diamond_started
    (fst <$> process_tasks_step 5 0 PayloadReturns diamond_started).

(** The diamond after the next step of worker 0, which claims A. *)
Definition diamond_first_step : machine :=
  default diamond_past_test
    (fst <$> process_tasks_step 5 0 PayloadReturns diamond_past_test).

(** A call on Task handles that keeps the invariant of the edge lists and
    frees no node, whenever it returns or throws. *)
Definition keeps_store_inv (f : store → store * outcome unit) : Prop :=
  ∀ h h' o, f h = (h', o) → defined o = true → store_inv h →
    store_inv h' ∧ ∀ x, is_Some (h !! x) → is_Some (h' !! x).

(** ** More of task.h: indexed access and iterators *)

(** [Task::predecessor_at(index)]: [Task(_node->_predecessors.at(index))].
    [std::vector::at] throws [std::out_of_range] past the end; its message is
    the standard library's, for which [range_message index size] stands. *)
Definition predecessor_at (range_message : nat → nat → string)
    (this : ptr) (index : nat) (h : store) : outcome ptr :=
  match deref h this with
  | None => Undefined
  | Some n =>
      match _predecessors n !! index with
      | Some p => Returns p
      | None =>
          Throws (std_exception (range_message index (length (_predecessors n))))
      end
  end.

(** [Task::successor_at(index)] *)
Definition successor_at (range_message : nat → nat → string)
    (this : ptr) (index : nat) (h : store) : outcome ptr :=
  match deref h this with
  | None => Undefined
  | Some n =>
      match _successors n !! index with
      | Some p => Returns p
      | None =>
          Throws (std_exception (range_message index (length (_successors n))))
      end
  end.

(** The vector a [TaskIterator] walks. *)
Definition iterator_vector (h : store) (it : Task.TaskIterator) : option (list ptr) :=
  match it with
  | Task.singular => None
  | Task.into owner k _ =>
      match h !! owner with
      | None => None
      | Some n =>
          Some match k with
               | Task.Predecessors => _predecessors n
               | Task.Successors => _successors n
               end
      end
  end.

(** [TaskIterator::operator*]: [Task( *_it )]; reading at the end of the vector,
    or through a value-initialised iterator, is undefined. *)
Definition iterator_deref (it : Task.TaskIterator) (h : store) : outcome ptr :=
  match it, iterator_vector h it with
  | Task.into _ _ index, Some v =>
      match v !! index with
      | Some p => Returns p
      | None => Undefined
      end
  | _, _ => Undefined
  end.

(** [TaskIterator::operator++]: [++_it]; undefined past the end. *)
Definition iterator_next (it : Task.TaskIterator) (h : store)
    : outcome Task.TaskIterator :=
  match it, iterator_vector h it with
  | Task.into owner k index, Some v =>
      if decide (index < length v) then Returns (Task.into owner k (S index))
      else Undefined
  | _, _ => Undefined
  end.

(** [TaskIterator::operator==]: [_it == other._it], defined for two
    positions in one vector and for two value-initialised iterators. *)
Definition iterator_eq (a b : Task.TaskIterator) : outcome bool :=
  match a, b with
  | Task.singular, Task.singular => Returns true
  | Task.into o1 k1 i1, Task.into o2 k2 i2 =>
      if decide (o1 = o2)
      then match k1, k2 with
           | Task.Predecessors, Task.Predecessors
           | Task.Successors, Task.Successors => Returns (bool_decide (i1 = i2))
           | _, _ => Undefined
           end
      else Undefined
  | _, _ => Undefined
  end.

(** The client loop [for (it = first; it != last; ++it) visit( *it )], giving
    the handles visited. *)
Fixpoint traverse (fuel : nat) (h : store) (it last : Task.TaskIterator)
    : outcome (list ptr) :=
  match fuel with
  | 0 => Diverges
  | S fuel' =>
      and_then (iterator_eq it last)
        (λ at_end,
          if at_end then Returns []
          else
            and_then (iterator_deref it h)
              (λ p,
                and_then (iterator_next it h)
                  (λ it',
                    and_then (traverse fuel' h it' last)
                      (λ rest, Returns (p :: rest)))))
  end.

(** ** More of threadgraph.h and threadgraph.cpp *)

(** [ThreadGraph::task_size] *)
Definition task_size (m : machine) : nat := length (_task_pool m).

(** [ThreadGraph::empty] *)
Definition graph_empty (m : machine) : bool := bool_decide (_task_pool m = []).

(** [ThreadGraph::task_at(index)]: [Task(_task_pool[index])]; [operator[]] is
    not bounds-checked. *)
Definition task_at (index : nat) (m : machine) : outcome ptr :=
  match _task_pool m !! index with
  | Some p => Returns p
  | None => Undefined
  end.

(** [ThreadGraph::terminate(call_wait)] *)
Definition terminate (call_wait : bool) (m : machine) : machine * waited :=
  let m1 := with_termination_flag true m in
  if call_wait then wait m1 else (m1, WaitReturns).

(** The loop [for (auto t : _task_pool) delete t] of [clear]: deleting a null
    pointer does nothing, deleting a node that is gone is undefined. *)
Fixpoint delete_all (pool : list ptr) (h : store) : option store :=
  match pool with
  | [] => Some h
  | t :: rest =>
      match t with
      | None => delete_all rest h
      | Some a =>
          match h !! a with
          | None => None
          | Some _ => delete_all rest (delete a h)
          end
      end
  end.

(** [ThreadGraph::clear], for a graph whose worker threads have been joined:
    [reset] destroys the worker contexts, and destroying a context whose
    thread is still joinable ends the program. *)
Definition clear (m : machine) : machine * outcome unit :=
  let m1 := reset m in
  match delete_all (_task_pool m1) (heap m1) with
  | None => (m1, Undefined)
  | Some h => (with_task_pool [] (with_heap h m1), Returns ())
  end.

(** ** Invariants of a run *)

(** READY before EXECUTING before COMPLETED. *)
Definition state_le (s s' : IRunnable.RunnableState) : Prop :=
  match s, s' with
  | IRunnable.Ready, _ => True
  | IRunnable.Executing, IRunnable.Ready => False
  | IRunnable.Executing, _ => True
  | IRunnable.Completed, IRunnable.Completed => True
  | IRunnable.Completed, _ => False
  end.

(** A worker inside [execute()] holds a node that is EXECUTING, and no two
    such workers hold the same node. *)
Definition workers_consistent (m : machine) : Prop :=
  ∀ w c, worker_at w m = Some c → phase c = InExecute →
    ∃ a n, (nextNode c).2 = Some a ∧ heap m !! a = Some n ∧
      state n = IRunnable.Executing ∧
      ∀ w' c', worker_at w' m = Some c' → phase c' = InExecute →
        (nextNode c').2 = Some a → w' = w.

(** The ready-cache holds, each once, exactly the nodes of the pool that are
    still READY. *)
Definition cache_tracks_ready (m : machine) : Prop :=
  NoDup (_ready_tasks_cache m) ∧
  (∀ p, p ∈ _ready_tasks_cache m → p ∈ _task_pool m) ∧
  (∀ p, p ∈ _task_pool m → ∃ a, p = Some a ∧ is_Some (heap m !! a)) ∧
  ∀ a n, Some a ∈ _task_pool m → heap m !! a = Some n →
    (Some a ∈ _ready_tasks_cache m ↔ state n = IRunnable.Ready).

Definition run_inv (m : machine) : Prop :=
  workers_consistent m ∧ cache_tracks_ready m.

(** What a step of worker [w] is: it passes the termination test, leaves,
    goes to wait, wakes up or catches an exception ([StepQuiet]), it claims a
    node, or it finishes one. *)
Inductive step_kind :=
| StepQuiet
| StepClaim (a : nat)
| StepFinish (a : nat).

(** The nodes a log shows as started, in order. *)
Definition started (evs : list event) : list nat :=
  omap (λ ev, match ev with Started a => Some a | Finished _ => None end) evs.

(** No node a log shows as started is READY. *)
Definition started_not_ready (m : machine) (evs : list event) : Prop :=
  ∀ a n, a ∈ started evs → heap m !! a = Some n → state n ≠ IRunnable.Ready.

(** The run of the diamond to its end: D finishes as well. *)
Definition diamond_full_schedule : list (nat * payload_end) :=
  (diamond_schedule ++ [(0, PayloadReturns)])%list.

Definition diamond_done : machine :=
  default diamond (fst <$> run 5 diamond_full_schedule diamond_started).

(** Three nodes in a ring: [t1.depend(t2)], [t2.depend(t3)], [t3.depend(t1)].
    No call finds the reverse edge, so all three return. *)
Definition ring_calls : list client_call :=
  [ CallNew 1; CallPush (Some 1); CallNew 2; CallPush (Some 2);
    CallNew 3; CallPush (Some 3);
    CallDepend (Some 1) (Some 2); CallDepend (Some 2) (Some 3);
    CallDepend (Some 3) (Some 1) ].

Definition ring : machine :=
  default (new_graph 2 true) (client_run ring_calls (new_graph 2 true)).

(** ** threadgraph.cpp: wait_for

    Time is counted in ticks of [steady_clock]: with the usual standard
    libraries a tick is a nanosecond held in a signed 64-bit integer, whose
    overflow has no defined behaviour.  [now k] is what the [k]-th call of
    [steady_clock::now()] returns. *)

Module WaitStatus.

Inductive t := Ready | Timeout | Interrupted.

End WaitStatus.

Definition in_ticks (z : Z) : bool := ((- 2 ^ 63 <=? z) && (z <? 2 ^ 63))%Z.

(** How [wait_for] ends. *)
Inductive waited_for :=
| WaitForReturns (s : WaitStatus.t)
| WaitForThrows (e : exception)   (* thrown by the [wait()] at its end *)
| WaitForPends       (* in [future.wait_for] with time left, the promise not
                        set: the worker decides what comes next *)
| WaitForBlocks      (* blocked in the [wait()] at its end *)
| WaitForUndefined.  (* the tick arithmetic overflowed *)

(** How the loop of [wait_for] ends. *)
Inductive scanned := ScanDone | ScanTimeout | ScanPends | ScanUndefined.

(** The loop of [ThreadGraph::wait_for].  [future.wait_for] leaves the future
    valid, and reports a future that holds an exception as ready. *)
Fixpoint wait_for_scan (contexts : list (option WorkerContext)) (now : nat → Z)
    (k : nat) (end_time remaining_time : Z) : scanned :=
  match contexts with
  | [] => ScanDone
  | context :: rest =>
      match context with
      | None => wait_for_scan rest now k end_time remaining_time
      | Some c =>
          if negb (future_valid c)
          then wait_for_scan rest now k end_time remaining_time
          else
            match _done c with
            | NotSet => if (remaining_time <=? 0)%Z then ScanTimeout else ScanPends
            | _ =>
                let remaining_time' := (end_time - now k)%Z in
                if negb (in_ticks remaining_time') then ScanUndefined
                else if (remaining_time' <=? 0)%Z then ScanTimeout
                else wait_for_scan rest now (S k) end_time remaining_time'
            end
      end
  end.

(** [ThreadGraph::wait_for] *)
Definition wait_for (timeout : Z) (now : nat → Z) (m : machine)
    : machine * waited_for :=
  let end_time := (now 0%nat + timeout)%Z in
  if negb (in_ticks end_time) then (m, WaitForUndefined)
  else
    match wait_for_scan (_worker_contexts m) now 1 end_time timeout with
    | ScanTimeout => (m, WaitForReturns WaitStatus.Timeout)
    | ScanPends => (m, WaitForPends)
    | ScanUndefined => (m, WaitForUndefined)
    | ScanDone =>
        match wait m with
        | (m', WaitReturns) => (m', WaitForReturns WaitStatus.Ready)
        | (m', WaitThrows e) => (m', WaitForThrows e)
        | (m', WaitBlocks) => (m', WaitForBlocks)
        end
    end.


(** A context whose worker has left [process_tasks]: its promise is set. *)
Definition settled (context : option WorkerContext) : bool :=
  match context with
  | None => true
  | Some c => match _done c with NotSet => false | _ => true end
  end.

(** What [wait_for] makes of the end of the [wait()] it calls. *)
Definition of_waited (r : waited) : waited_for :=
  match r with
  | WaitReturns => WaitForReturns WaitStatus.Ready
  | WaitThrows e => WaitForThrows e
  | WaitBlocks => WaitForBlocks
  end.

(** The diamond after both workers have found the graph finished and left
    [process_tasks]. *)
Definition diamond_left : machine :=
  default diamond
    (fst <$> run 5 [ (0, PayloadReturns); (0, PayloadReturns);
                     (1, PayloadReturns); (1, PayloadReturns) ] diamond_done).

(** A clock that advances one tick per reading, from 100. *)
Definition ticking (k : nat) : Z := (100 + Z.of_nat k)%Z.

(** ** The window between the termination test and the lock *)

(** A worker that has found the termination flag down and has not yet taken
    the lock: it will take one more verdict whatever the flag does. *)
Definition past_test (context : option WorkerContext) : bool :=
  match context with
  | Some c => match phase c with AtLock => true | _ => false end
  | None => false
  end.

(** How many of the contexts are in that window. *)
Fixpoint count_past_test (contexts : list (option WorkerContext)) : nat :=
  match contexts with
  | [] => 0
  | context :: rest => Nat.b2n (past_test context) + count_past_test rest
  end.

Definition workers_past_test (m : machine) : nat :=
  count_past_test (_worker_contexts m).

(** The diamond with A claimed by worker 0 and worker 1 between the test and
    the lock. *)
Definition diamond_window : machine :=
  default diamond_first_step
    (fst <$> process_tasks_step 5 1 PayloadReturns diamond_first_step).

(** The same, once [terminate(false)] has been called. *)
Definition diamond_late_flag : machine := (terminate false diamond_window).1.

(** ** What stops the first loop of wait *)

(** A context the first loop of [wait] goes past: no future to read, or a
    promise holding a value or an exception derived from [std::exception]. *)
Definition passed (context : option WorkerContext) : bool :=
  match context with
  | None => true
  | Some c =>
      negb (future_valid c) ||
      match _done c with
      | NotSet => false
      | ValueSet => true
      | ExceptionSet e => bool_decide (is_Some (what_of e))
      end
  end.

(** The diamond after the payload of A, run by worker 0, has thrown while
    worker 1 was between the termination test and the lock, and worker 1 has
    then taken its verdict: B waits for A, which stays EXECUTING, so worker 1
    goes to sleep on the condition variable after the handler's
    [notify_all()]. *)
Definition diamond_stuck : machine :=
  default diamond_window
    (fst <$> run 5 [ (0, PayloadRaises (runtime_error "boom"));
                     (1, PayloadReturns) ] diamond_window).

(** The diamond with the edge from A to D declared as well. *)
Definition diamond_shortcut : store :=
  (Task.depend (Some 4) (Some 1) (heap diamond)).1.

(** * Properties *)

Close Scope string_scope.

(** ** The trace algorithm *)

Lemma avoided_spec (avoids : gset ptr) (p : ptr) :
  avoided avoids p = true ↔ p ∈ avoids.
Proof.
  unfold avoided. rewrite andb_true_iff, !bool_decide_eq_true. split.
  - tauto.
  - intros Hin. split; [| done].
    destruct (decide (size avoids = 0)) as [Hz | Hz]; [| lia].
    apply size_empty_inv in Hz. set_solver.
Qed.

Lemma considered_nil (avoids : gset ptr) : Spec.considered avoids [] = [].
Proof. reflexivity. Qed.

Lemma considered_skip (avoids : gset ptr) (p : ptr) (preds : list ptr) :
  p = nullptr ∨ p ∈ avoids →
  Spec.considered avoids (p :: preds) = Spec.considered avoids preds.
Proof.
  intros Hskip. unfold Spec.considered. rewrite filter_cons_False; [done |].
  intros [Hnn Hna]. destruct Hskip; done.
Qed.

Lemma considered_keep (avoids : gset ptr) (p : ptr) (preds : list ptr) :
  p ≠ nullptr → p ∉ avoids →
  Spec.considered avoids (p :: preds) = p :: Spec.considered avoids preds.
Proof.
  intros Hnn Hna. unfold Spec.considered. by rewrite filter_cons_True.
Qed.

(** The loop of [trace_ready_depend] never hands back a null node, as long as
    the recursive calls do not. *)
Lemma scan_predecessors_second self h avoids (e : nat) preds exe r :
  (∀ p r', self p avoids = Returns r' → is_Some (r'.2)) →
  scan_predecessors self h avoids (Some e) preds exe = Returns r →
  is_Some (r.2).
Proof.
  intros Hself. revert exe.
  induction preds as [| p preds IH]; intros exe; simpl.
  - destruct exe as [v [q |]]; simpl; intros [= <-]; simpl; eauto.
  - destruct p as [a |]; [| by apply IH].
    destruct (avoided avoids (Some a)); [by apply IH |].
    destruct (h !! a) as [np |]; [| done].
    destruct (state np); try by apply IH.
    destruct (self (Some a) avoids) as [bs | | |] eqn:Hrec; try done.
    destruct bs as [[] q]; simpl; try by apply IH.
    intros [= <-]. by apply (Hself _ _ Hrec).
Qed.

Lemma trace_ready_depend_second fuel h E avoids r :
  trace_ready_depend fuel h E avoids = Returns r → is_Some (r.2).
Proof.
  revert E avoids r. induction fuel as [| fuel IH]; intros E avoids r; simpl; [done |].
  destruct E as [e |]; [| done].
  destruct (h !! e) as [n |]; [| done].
  destruct (state n).
  - apply scan_predecessors_second. intros p r'. apply IH.
  - intros [= <-]; simpl; eauto.
  - intros [= <-]; simpl; eauto.
Qed.

(** On a READY entry node the loop never yields the verdict COMPLETED. *)
Lemma scan_predecessors_first self h avoids E preds exe r :
  exe.1 ≠ TraceNodeState.Completed →
  scan_predecessors self h avoids E preds exe = Returns r →
  r.1 ≠ TraceNodeState.Completed.
Proof.
  revert exe. induction preds as [| p preds IH]; intros exe Hexe; simpl.
  - destruct (exe.2); intros [= <-]; done.
  - destruct p as [a |]; [| by apply IH].
    destruct (avoided avoids (Some a)); [by apply IH |].
    destruct (h !! a) as [np |]; [| done].
    destruct (state np); try by apply IH.
    destruct (self (Some a) avoids) as [bs | | |] eqn:Hrec; try done.
    destruct bs as [[] q] eqn:Hbs; simpl; try by apply IH.
    intros [= <-]. done.
Qed.

Lemma trace_ready_depend_of_ready fuel h e n avoids r :
  h !! e = Some n → state n = IRunnable.Ready →
  trace_ready_depend fuel h (Some e) avoids = Returns r →
  r.1 ≠ TraceNodeState.Completed.
Proof.
  intros Hn Hst. destruct fuel as [| fuel]; simpl; [done |].
  rewrite Hn, Hst. by apply scan_predecessors_first.
Qed.

(** What an observation can put into [exe] carries a node. *)
Lemma observe_pending fuel h avoids p o r :
  Spec.observe fuel h avoids p = Returns o →
  Spec.pending_result o = Some r → is_Some (r.2).
Proof.
  unfold Spec.observe. destruct p as [a |]; simpl; [| done].
  destruct (h !! a) as [np |]; [| done].
  destruct (state np).
  - destruct (trace_ready_depend fuel h (Some a) avoids) as [r' | | |] eqn:Hrec;
      simpl; try done.
    intros [= <-]. simpl. case_decide; [| done]. intros [= <-].
    by apply (trace_ready_depend_second _ _ _ _ _ Hrec).
  - intros [= <-]. simpl. intros [= <-]. simpl. eauto.
  - intros [= <-]. done.
Qed.

Lemma observe_completed fuel h avoids p o :
  Spec.observe fuel h avoids p = Returns o →
  Spec.ready_result o = None → Spec.pending_result o = None →
  o = Spec.SawCompleted.
Proof.
  unfold Spec.observe. destruct p as [a |]; simpl; [| done].
  destruct (h !! a) as [np |] eqn:Hnp; [| done].
  destruct (state np) eqn:Hst.
  - destruct (trace_ready_depend fuel h (Some a) avoids) as [r' | | |] eqn:Hrec;
      simpl; try done.
    intros [= <-]. simpl.
    pose proof (trace_ready_depend_of_ready _ _ _ _ _ _ Hnp Hst Hrec) as Hne.
    destruct r' as [[] q]; simpl in *; repeat case_decide; try done.
  - intros [= <-]. done.
  - intros [= <-]. done.
Qed.

Ltac refold_omap l :=
  change (list_omap Spec.observation verdict Spec.ready_result l)
    with (omap Spec.ready_result l);
  change (list_omap Spec.observation verdict Spec.pending_result l)
    with (omap Spec.pending_result l).

(** The loop computes the selection the specification describes. *)
Lemma scan_predecessors_select fuel h avoids E preds obs exe :
  Forall2 (λ p o, Spec.observe fuel h avoids p = Returns o)
    (Spec.considered avoids preds) obs →
  scan_predecessors (trace_ready_depend fuel h) h avoids E preds exe =
  Returns
    match Spec.first_ready obs with
    | Some r => r
    | None =>
        match last (Spec.remembered obs) with
        | Some r => r
        | None => match exe.2 with Some _ => exe | None => (TraceNodeState.Ready, E) end
        end
    end.
Proof.
  revert obs exe. induction preds as [| p preds IH]; intros obs exe Hobs.
  - rewrite considered_nil in Hobs. apply Forall2_nil_inv_l in Hobs as ->.
    simpl. by destruct (exe.2).
  - simpl. destruct p as [a |].
    2:{ rewrite considered_skip in Hobs by auto. by apply IH. }
    destruct (avoided avoids (Some a)) eqn:Hav.
    { apply avoided_spec in Hav. rewrite considered_skip in Hobs by auto.
      by apply IH. }
    assert (Some a ∉ avoids) as Hna.
    { intros Hin. apply avoided_spec in Hin. congruence. }
    rewrite considered_keep in Hobs by done.
    apply Forall2_cons_inv_l in Hobs as (o & obs' & Ho & Hobs' & ->).
    pose proof (λ r, observe_pending _ _ _ _ _ r Ho) as Hsome.
    specialize (IH obs').
    unfold Spec.observe in Ho. simpl in Ho.
    destruct (h !! a) as [np |]; [| done].
    unfold Spec.first_ready, Spec.remembered in *.
    destruct (state np).
    + destruct (trace_ready_depend fuel h (Some a) avoids) as [r | | |] eqn:Hrec;
        simpl in Ho; try done.
      injection Ho as <-. simpl in *.
      destruct r as [[] q]; simpl in *.
      * done.
      * rewrite IH by done. simpl. refold_omap obs'.
        destruct (head (omap Spec.ready_result obs')); [done |].
        destruct (Hsome _ eq_refl) as [q' Hq]. simpl in Hq. subst q.
        rewrite last_cons. by destruct (last (omap Spec.pending_result obs')).
      * by rewrite IH.
    + injection Ho as <-. simpl. rewrite IH by done. simpl. refold_omap obs'.
      destruct (head (omap Spec.ready_result obs')); [done |].
      rewrite last_cons. by destruct (last (omap Spec.pending_result obs')).
    + injection Ho as <-. simpl. by rewrite IH.
Qed.

Lemma omap_nil_inv {A B : Type} (f : A → option B) (l : list A) :
  omap f l = [] → Forall (λ x, f x = None) l.
Proof.
  induction l as [| x l IH]; simpl; [constructor |].
  destruct (f x) eqn:Hfx; [done |]. intros Hl. constructor; auto.
Qed.

(** C2.  [trace_ready_depend(E, A)] on a live node [E]: an EXECUTING node gives
    (PENDING, E), a COMPLETED node gives (COMPLETED, E); for a READY node, given
    what is seen at the predecessors that are neither null nor in [A], it
    returns the first READY result of a recursion, else the PENDING remembered
    last, else (READY, E), and that last case only arises when every such
    predecessor is COMPLETED. *)
Theorem trace_ready_depend_spec (fuel : nat) (h : store) (e : nat) (n : INode)
    (avoids : gset ptr) :
  h !! e = Some n →
  match state n with
  | IRunnable.Executing =>
      trace_ready_depend (S fuel) h (Some e) avoids
      = Returns (TraceNodeState.Pending, Some e)
  | IRunnable.Completed =>
      trace_ready_depend (S fuel) h (Some e) avoids
      = Returns (TraceNodeState.Completed, Some e)
  | IRunnable.Ready =>
      ∀ obs : list Spec.observation,
        Forall2 (λ p o, Spec.observe fuel h avoids p = Returns o)
          (Spec.considered avoids (_predecessors n)) obs →
        trace_ready_depend (S fuel) h (Some e) avoids
        = Returns (Spec.select (Some e) obs)
        ∧ (Spec.first_ready obs = None → Spec.remembered obs = [] →
           Forall (λ o, o = Spec.SawCompleted) obs)
  end.
Proof.
  intros Hn. destruct (state n) eqn:Hst; simpl; rewrite Hn, Hst; try done.
  intros obs Hobs. split.
  - by rewrite (scan_predecessors_select _ _ _ _ _ _ _ Hobs).
  - unfold Spec.first_ready, Spec.remembered. intros Hfr Hrm.
    apply head_None in Hfr. apply omap_nil_inv in Hfr, Hrm.
    assert (Forall (λ o, ∃ p, Spec.observe fuel h avoids p = Returns o) obs)
      as Hex.
    { eapply Forall2_Forall_r; [exact Hobs |].
      apply Forall_forall. intros p Hp o Hpo. by exists p. }
    rewrite Forall_forall in Hfr, Hrm, Hex. apply Forall_forall.
    intros o Ho. destruct (Hex o Ho) as [p Hp].
    eapply observe_completed; eauto.
Qed.

Lemma trace_ready_depend_spec_witness :
  trace_ready_depend 4 (heap diamond) (Some 4) ∅
  = Returns (TraceNodeState.Ready, Some 1).
Proof.
  pose proof (trace_ready_depend_spec 3 (heap diamond) 4
                (mkINode IRunnable.Ready [Some 2; Some 3] []) ∅ eq_refl) as H.
  simpl in H.
  destruct (H [Spec.Recursed (TraceNodeState.Ready, Some 1);
               Spec.Recursed (TraceNodeState.Ready, Some 1)]) as [Heq _].
  - repeat constructor.
  - exact Heq.
Defined.

(** On an acyclic graph without dangling edges the recursion ends: fuel
    above the rank of the entry node is enough. *)
Lemma scan_predecessors_returns self h avoids E preds exe :
  (∀ a, Some a ∈ preds → is_Some (h !! a) ∧ ∃ r, self (Some a) avoids = Returns r) →
  ∃ r, scan_predecessors self h avoids E preds exe = Returns r.
Proof.
  revert exe. induction preds as [| p preds IH]; intros exe Hpreds; simpl.
  - destruct (exe.2); eauto.
  - assert (∀ exe', ∃ r, scan_predecessors self h avoids E preds exe' = Returns r)
      as Hrest.
    { intros exe'. apply IH. intros a Ha. apply Hpreds. by right. }
    destruct p as [a |]; [| done].
    destruct (avoided avoids (Some a)); [done |].
    destruct (Hpreds a) as [[np Hnp] [r Hr]]; [by left |].
    rewrite Hnp, Hr. destruct (state np); [| done | done].
    destruct r as [[] q]; simpl; eauto.
Qed.

Lemma trace_ready_depend_returns h rank avoids fuel e :
  ranked h rank → edges_closed h →
  is_Some (h !! e) → rank e < fuel →
  ∃ r, trace_ready_depend fuel h (Some e) avoids = Returns r.
Proof.
  intros Hrank Hclosed. revert e.
  induction fuel as [| fuel IH]; intros e [n Hn] Hlt; [lia |].
  simpl. rewrite Hn. destruct (state n); eauto.
  apply scan_predecessors_returns. intros a Ha.
  destruct (Hclosed e n (Some a) Hn) as (b & [= <-] & Hlive); [by left |].
  split; [done |]. apply IH; [done |].
  specialize (Hrank e n a Hn Ha). lia.
Qed.

Lemma observations_exist h rank avoids fuel e n :
  ranked h rank → edges_closed h →
  h !! e = Some n → rank e ≤ fuel →
  ∃ obs, Forall2 (λ p o, Spec.observe fuel h avoids p = Returns o)
           (Spec.considered avoids (_predecessors n)) obs.
Proof.
  intros Hrank Hclosed Hn Hle.
  assert (∀ p, p ∈ Spec.considered avoids (_predecessors n) →
               ∃ o, Spec.observe fuel h avoids p = Returns o) as Hall.
  { intros p Hp. apply list_elem_of_filter in Hp as [_ Hp].
    destruct (Hclosed e n p Hn) as (b & -> & [nb Hnb]); [by left |].
    unfold Spec.observe. simpl. rewrite Hnb.
    destruct (state nb); eauto.
    destruct (trace_ready_depend_returns h rank avoids fuel b Hrank Hclosed)
      as [r Hr]; [eauto | |].
    - specialize (Hrank e n b Hn Hp). lia.
    - rewrite Hr. simpl. eauto. }
  induction (Spec.considered avoids (_predecessors n)) as [| p l IH].
  - exists []. constructor.
  - destruct (Hall p) as [o Ho]; [by left |].
    destruct IH as [obs Hobs]; [intros q Hq; apply Hall; by right |].
    exists (o :: obs). by constructor.
Qed.

(** Once a PENDING is remembered, the loop can only end on a recursion's
    READY result or on a remembered PENDING. *)
Lemma scan_predecessors_ready_pending self h avoids E preds exe r :
  (∀ p r', self p avoids = Returns r' → is_Some (r'.2)) →
  is_Some (exe.2) → exe.1 = TraceNodeState.Pending →
  scan_predecessors self h avoids E preds exe = Returns r →
  r.1 = TraceNodeState.Ready →
  ∃ p, self p avoids = Returns r.
Proof.
  intros Hself. revert exe.
  induction preds as [| p preds IH]; intros exe Hsome Hpend; simpl.
  - destruct Hsome as [q Hq]. rewrite Hq. intros [= <-]. congruence.
  - destruct p as [a |]; [| by apply IH].
    destruct (avoided avoids (Some a)); [by apply IH |].
    destruct (h !! a) as [np |]; [| done].
    destruct (state np); [| apply IH; simpl; eauto | by apply IH].
    destruct (self (Some a) avoids) as [bs | | |] eqn:Hrec; try done.
    pose proof (Hself _ _ Hrec) as Hbs.
    destruct bs as [[] q]; simpl in *.
    + intros [= <-] _. eauto.
    + by apply IH.
    + by apply IH.
Qed.

Lemma scan_predecessors_ready self h avoids E preds r :
  (∀ p r', self p avoids = Returns r' → is_Some (r'.2)) →
  (∀ a np r', h !! a = Some np → state np = IRunnable.Ready →
     self (Some a) avoids = Returns r' → r'.1 ≠ TraceNodeState.Completed) →
  scan_predecessors self h avoids E preds (TraceNodeState.Ready, nullptr) = Returns r →
  r.1 = TraceNodeState.Ready →
  (r = (TraceNodeState.Ready, E) ∧
   ∀ b, Some b ∈ preds → Some b ∉ avoids →
     ∃ nb, h !! b = Some nb ∧ state nb = IRunnable.Completed)
  ∨ ∃ p, self p avoids = Returns r.
Proof.
  intros Hself Hself2.
  induction preds as [| p preds IH]; simpl.
  - intros [= <-] _. left. split; [done |]. intros b Hb. by apply elem_of_nil in Hb.
  - assert (∀ P : nat → Prop,
              (∀ b, Some b ∈ preds → Some b ∉ avoids → P b) →
              (∀ b, p = Some b → Some b ∉ avoids → P b) →
              ∀ b, Some b ∈ p :: preds → Some b ∉ avoids → P b) as Hcons.
    { intros P H1 H2 b Hb Hna. apply elem_of_cons in Hb as [<- | Hb]; eauto. }
    destruct p as [a |].
    2:{ intros Hscan Hr. destruct (IH Hscan Hr) as [[-> Hall] | Hex]; [| by right].
        left. split; [done |]. apply Hcons; [done | done]. }
    destruct (avoided avoids (Some a)) eqn:Hav.
    { apply avoided_spec in Hav.
      intros Hscan Hr. destruct (IH Hscan Hr) as [[-> Hall] | Hex]; [| by right].
      left. split; [done |]. apply Hcons; [done |]. by intros b [= <-]. }
    destruct (h !! a) as [np |] eqn:Hnp; [| done].
    destruct (state np) eqn:Hst.
    + destruct (self (Some a) avoids) as [bs | | |] eqn:Hrec; try done.
      pose proof (Hself _ _ Hrec) as Hbs.
      destruct bs as [[] q]; simpl in *.
      * intros [= <-] _. right. eauto.
      * intros Hscan Hr. right.
        eapply scan_predecessors_ready_pending; eauto.
      * by destruct (Hself2 _ _ _ Hnp Hst Hrec).
    + intros Hscan Hr. right.
      eapply scan_predecessors_ready_pending; [done | | | exact Hscan | done];
        simpl; eauto.
    + intros Hscan Hr. destruct (IH Hscan Hr) as [[-> Hall] | Hex]; [| by right].
      left. split; [done |]. apply Hcons; [done |].
      intros b [= <-] _. eauto.
Qed.

Lemma trace_ready_depend_ready fuel h E avoids r :
  trace_ready_depend fuel h E avoids = Returns r →
  r.1 = TraceNodeState.Ready →
  claimable h avoids r.
Proof.
  revert E r. induction fuel as [| fuel IH]; intros E r; simpl; [done |].
  destruct E as [e |]; [| done].
  destruct (h !! e) as [n |] eqn:Hn; [| done].
  destruct (state n) eqn:Hst.
  - intros Hscan Hr.
    destruct (scan_predecessors_ready _ _ _ _ _ _
                (λ p r', trace_ready_depend_second fuel h p avoids r')
                (λ a np r' Ha Hs, trace_ready_depend_of_ready fuel h a np avoids r' Ha Hs)
                Hscan Hr) as [[-> Hall] | [p Hp]].
    + exists e, n. eauto.
    + by eapply IH.
  - intros [= <-]. done.
  - intros [= <-]. done.
Qed.

Lemma first_executing_not_ready h pool r :
  first_executing h pool = Returns r → r.1 ≠ TraceNodeState.Ready.
Proof.
  induction pool as [| t pool IH]; simpl.
  - intros [= <-]. done.
  - destruct (deref h t) as [n |]; [| done].
    case_decide; [| done]. intros [= <-]. done.
Qed.

Lemma trace_ready_node_null_ready fuel m r :
  trace_ready_node_null fuel m = Returns r →
  r.1 = TraceNodeState.Ready →
  claimable (heap m) ∅ r.
Proof.
  unfold trace_ready_node_null. destruct (_ready_tasks_cache m) as [| c cache].
  - intros Hfe Hr. by destruct (first_executing_not_ready _ _ _ Hfe).
  - apply trace_ready_depend_ready.
Qed.

Lemma scan_successors_executing_ready fuel h succs r :
  scan_successors_executing fuel h succs = Returns (Some r) →
  r.1 = TraceNodeState.Ready ∧ claimable h ∅ r.
Proof.
  induction succs as [| s succs IH]; simpl; [done |].
  destruct (deref h s) as [ns |]; [| done].
  case_decide; [| done].
  destruct (trace_ready_depend fuel h s ∅) as [t | | |] eqn:Hrec; try done.
  case_decide as Ht; [| done].
  intros [= <-]. split; [done |]. by eapply trace_ready_depend_ready.
Qed.

Lemma scan_successors_completed_ready fuel h succs delay res :
  delay.1 = TraceNodeState.Pending →
  scan_successors_completed fuel h succs delay = Returns res →
  match res with
  | inl r => r.1 = TraceNodeState.Ready ∧ claimable h ∅ r
  | inr d => d.1 = TraceNodeState.Pending
  end.
Proof.
  revert delay. induction succs as [| s succs IH]; intros delay Hd; simpl.
  - intros [= <-]. done.
  - destruct (deref h s) as [ns |]; [| done].
    case_decide; [| by apply IH].
    destruct (trace_ready_depend fuel h s ∅) as [t | | |] eqn:Hrec; try done.
    destruct t as [[] q] eqn:Ht; simpl.
    + intros [= <-]. split; [done |]. by eapply trace_ready_depend_ready.
    + by apply IH.
    + by apply IH.
Qed.

(** Whatever the hint, a READY verdict of [trace_ready_node] names a READY
    node whose predecessors are all COMPLETED. *)
Lemma trace_ready_node_ready fuel m hint r :
  trace_ready_node fuel m hint = Returns r →
  r.1 = TraceNodeState.Ready →
  claimable (heap m) ∅ r.
Proof.
  unfold trace_ready_node. destruct hint as [e |];
    [| apply trace_ready_node_null_ready].
  destruct (heap m !! e) as [n |]; [| done].
  destruct (state n).
  - destruct (trace_ready_depend fuel (heap m) (Some e) ∅) as [rd | | |] eqn:Hrd;
      simpl; try done.
    destruct rd as [[] q]; simpl.
    + intros [= <-] _. by eapply trace_ready_depend_ready.
    + destruct (trace_ready_node_null fuel m) as [nx | | |] eqn:Hnx; simpl; try done.
      case_decide as Hn.
      * intros [= <-] _. by eapply trace_ready_node_null_ready.
      * intros [= <-]. done.
    + intros [= <-]. done.
  - destruct (scan_successors_executing fuel (heap m) (_successors n))
      as [[t |] | | |] eqn:Hscan; simpl; try done.
    + intros [= <-] _. by eapply scan_successors_executing_ready.
    + destruct (trace_ready_node_null fuel m) as [nx | | |] eqn:Hnx; simpl; try done.
      case_decide as Hn.
      * intros [= <-] _. by eapply trace_ready_node_null_ready.
      * intros [= <-]. done.
  - destruct (scan_successors_completed fuel (heap m) (_successors n)
                (TraceNodeState.Pending, nullptr)) as [[t | d] | | |] eqn:Hscan;
      simpl; try done.
    + apply scan_successors_completed_ready in Hscan; [| done].
      intros [= <-] _. tauto.
    + apply scan_successors_completed_ready in Hscan; [| done].
      destruct (trace_ready_node_null fuel m) as [nx | | |] eqn:Hnx; simpl; try done.
      case_decide as Hn.
      * intros [= <-] _. by eapply trace_ready_node_null_ready.
      * repeat case_decide; intros [= <-] Hr; simpl in *; congruence.
Qed.

Lemma first_executing_found h pool i t nt :
  pool !! i = Some t → deref h t = Some nt → state nt = IRunnable.Executing →
  (∀ j p, j < i → pool !! j = Some p →
     ∃ np, deref h p = Some np ∧ state np ≠ IRunnable.Executing) →
  first_executing h pool = Returns (TraceNodeState.Pending, t).
Proof.
  revert i. induction pool as [| q pool IH]; intros i Hi Ht Hst Hbefore; [done |].
  simpl. destruct i as [| i].
  - injection Hi as ->. rewrite Ht. by rewrite decide_True.
  - destruct (Hbefore 0 q) as (nq & -> & Hnq); [lia | done |].
    rewrite decide_False by done.
    apply (IH i); [done | done | done |].
    intros j p Hj Hp. apply (Hbefore (S j) p); [lia | done].
Qed.

Lemma first_executing_none h pool :
  (∀ p, p ∈ pool → ∃ np, deref h p = Some np ∧ state np ≠ IRunnable.Executing) →
  first_executing h pool = Returns (TraceNodeState.Completed, nullptr).
Proof.
  induction pool as [| q pool IH]; intros Hall; [done |].
  simpl. destruct (Hall q) as (nq & -> & Hnq); [by left |].
  rewrite decide_False by done. apply IH. intros p Hp. apply Hall. by right.
Qed.

(** C3.  [trace_ready_node(nullptr)]: with a non-empty ready-cache, the result
    of [trace_ready_depend] on its first element; with an empty one,
    (PENDING, t) for the first node [t] of the task pool that is EXECUTING,
    and (COMPLETED, null) when the pool has none. *)
Theorem trace_ready_node_entry (fuel : nat) (m : machine) :
  (∀ first rest, _ready_tasks_cache m = first :: rest →
     trace_ready_node fuel m nullptr = trace_ready_depend fuel (heap m) first ∅)
  ∧ (_ready_tasks_cache m = [] →
     ∀ i t nt, _task_pool m !! i = Some t →
       deref (heap m) t = Some nt → state nt = IRunnable.Executing →
       (∀ j p, j < i → _task_pool m !! j = Some p →
          ∃ np, deref (heap m) p = Some np ∧ state np ≠ IRunnable.Executing) →
       trace_ready_node fuel m nullptr = Returns (TraceNodeState.Pending, t))
  ∧ (_ready_tasks_cache m = [] →
     (∀ p, p ∈ _task_pool m →
        ∃ np, deref (heap m) p = Some np ∧ state np ≠ IRunnable.Executing) →
     trace_ready_node fuel m nullptr = Returns (TraceNodeState.Completed, nullptr)).
Proof.
  unfold trace_ready_node, trace_ready_node_null. repeat split.
  - by intros first rest ->.
  - intros -> i t nt. apply first_executing_found.
  - intros ->. apply first_executing_none.
Qed.

Lemma trace_ready_node_entry_witness :
  trace_ready_node 5 diamond_started nullptr
    = trace_ready_depend 5 (heap diamond_started) (Some 1) ∅
  ∧ trace_ready_node 5 diamond_running nullptr
    = Returns (TraceNodeState.Pending, Some 4)
  ∧ trace_ready_node 5 diamond nullptr
    = Returns (TraceNodeState.Completed, nullptr).
Proof.
  split; [| split].
  - apply (proj1 (trace_ready_node_entry 5 diamond_started) (Some 1)
             [Some 2; Some 3; Some 4]).
    reflexivity.
  - apply (proj1 (proj2 (trace_ready_node_entry 5 diamond_running)) eq_refl 3
             (Some 4) (mkINode IRunnable.Executing [Some 2; Some 3] []));
      [reflexivity | reflexivity | reflexivity |].
    intros j p Hj Hp. vm_compute in Hp.
    destruct j as [| [| [| j]]]; [| | | lia];
      injection Hp as <-; eexists; (split; [vm_compute; reflexivity | discriminate]).
  - apply (proj2 (proj2 (trace_ready_node_entry 5 diamond)) eq_refl).
    intros p Hp. change (_task_pool diamond) with [Some 1; Some 2; Some 3; Some 4] in Hp.
    repeat (apply elem_of_cons in Hp as [-> | Hp];
            [eexists; split; [vm_compute; reflexivity | discriminate] |]).
    by apply elem_of_nil in Hp.
Defined.

(** ** The worker loop *)

Lemma same_edges_refl h : same_edges h h.
Proof. by intros a. Qed.

Lemma same_edges_trans h1 h2 h3 :
  same_edges h1 h2 → same_edges h2 h3 → same_edges h1 h3.
Proof. intros H12 H23 a. by rewrite H12. Qed.

Lemma same_edges_set_state a s h : same_edges h (set_state a s h).
Proof.
  intros b. unfold set_state. rewrite lookup_alter. case_decide as Hab; [| done].
  subst b. by destruct (h !! a).
Qed.

Lemma same_edges_lookup h h' a n :
  same_edges h h' → h !! a = Some n →
  ∃ n', h' !! a = Some n' ∧ _predecessors n' = _predecessors n
        ∧ _successors n' = _successors n.
Proof.
  intros Hse Hn. specialize (Hse a). rewrite Hn in Hse.
  destruct (h' !! a) as [n' |]; [| done].
  injection Hse as Hp Hs. eauto.
Qed.

Lemma heap_remove_ready_cache p m : heap (remove_ready_cache p m).1 = heap m.
Proof. unfold remove_ready_cache. by case_decide. Qed.

Lemma task_pool_remove_ready_cache p m :
  _task_pool (remove_ready_cache p m).1 = _task_pool m.
Proof. unfold remove_ready_cache. by case_decide. Qed.

(** What one step of a worker does to the nodes. *)
Lemma process_tasks_step_cases fuel w pe m m' evs :
  process_tasks_step fuel w pe m = Some (m', evs) →
  _task_pool m' = _task_pool m ∧
  ((evs = [] ∧ heap m' = heap m)
   ∨ (∃ a, evs = [Started a] ∧ claimable (heap m) ∅ (TraceNodeState.Ready, Some a)
           ∧ heap m' = set_state a IRunnable.Executing (heap m))
   ∨ (∃ a, evs = [Finished a]
           ∧ heap m' = set_state a IRunnable.Completed (heap m))).
Proof.
  unfold process_tasks_step.
  destruct (worker_at w m) as [c |]; [| done].
  destruct (phase c).
  - destruct (_termination_flag m); intros [= <- <-]; (split; [done |]); by left.
  - destruct (trace_ready_node fuel m (nextNode c).2) as [next | e | |] eqn:Htr;
      try done.
    2:{ intros [= <- <-]. split; [done |]. by left. }
    destruct next as [[] q] eqn:Hnext; simpl.
    + destruct q as [a |]; [| done].
      destruct (heap m !! a) as [n |] eqn:Hn; [| done].
      intros [= <- <-]. split.
      * simpl. by rewrite task_pool_remove_ready_cache.
      * right. left. exists a. split; [done |]. split.
        -- by apply (trace_ready_node_ready _ _ _ _ Htr).
        -- simpl. by rewrite heap_remove_ready_cache.
    + intros [= <- <-]. split; [done |]. by left.
    + intros [= <- <-]. split; [done |]. by left.
  - intros [= <- <-]. split; [done |]. by left.
  - destruct pe as [| e].
    + destruct ((nextNode c).2) as [a |]; [| done].
      intros [= <- <-]. split; [done |]. right. right. by exists a.
    + intros [= <- <-]. split; [done |]. by left.
  - done.
Qed.

Lemma process_tasks_step_same_edges fuel w pe m m' evs :
  process_tasks_step fuel w pe m = Some (m', evs) → same_edges (heap m) (heap m').
Proof.
  intros Hstep. apply process_tasks_step_cases in Hstep as [_ Hc].
  destruct Hc as [[_ ->] | [(a & _ & _ & ->) | (a & _ & ->)]];
    auto using same_edges_refl, same_edges_set_state.
Qed.

Lemma lookup_set_state a s h b :
  set_state a s h !! b =
  if decide (a = b)
  then (λ n, mkINode s (_predecessors n) (_successors n)) <$> h !! b
  else h !! b.
Proof. unfold set_state. rewrite lookup_alter. by case_decide; subst. Qed.

Lemma process_tasks_step_logged fuel w pe m m' evs pre :
  process_tasks_step fuel w pe m = Some (m', evs) →
  completions_logged m pre → completions_logged m' (pre ++ evs).
Proof.
  intros Hstep Hlog. apply process_tasks_step_cases in Hstep as [Hpool Hc].
  intros b n Hb Hn Hst. rewrite Hpool in Hb. apply elem_of_app.
  destruct Hc as [[-> Hh] | [(a & -> & _ & Hh) | (a & -> & Hh)]];
    rewrite Hh in Hn.
  - left. by apply (Hlog b n).
  - rewrite lookup_set_state in Hn. case_decide.
    + destruct (heap m !! b); simplify_eq/=.
    + left. by apply (Hlog b n).
  - rewrite lookup_set_state in Hn. case_decide.
    + subst. right. by left.
    + left. by apply (Hlog b n).
Qed.

(** In a run, a node that starts has had each of its predecessors in the pool
    finish earlier; [pre] is the log before the run. *)
Lemma run_timeline fuel schedule :
  ∀ m m' evs pre,
    run fuel schedule m = Some (m', evs) →
    completions_logged m pre →
    ∀ i S nS P, evs !! i = Some (Started S) →
      heap m !! S = Some nS → Some P ∈ _predecessors nS →
      Some P ∈ _task_pool m →
      ∃ j, j < length pre + i ∧ (pre ++ evs) !! j = Some (Finished P).
Proof.
  induction schedule as [| [w pe] rest IH]; intros m m' evs pre; simpl.
  - intros [= <- <-]. done.
  - destruct (process_tasks_step fuel w pe m) as [[m1 evs1] |] eqn:Hstep; [| done].
    destruct (run fuel rest m1) as [[m2 evs2] |] eqn:Hrun; [| done].
    intros [= <- <-] Hlog i S nS P Hi HS HP Hpool.
    pose proof (process_tasks_step_logged _ _ _ _ _ _ pre Hstep Hlog) as Hlog1.
    pose proof (process_tasks_step_same_edges _ _ _ _ _ _ Hstep) as Hse.
    pose proof (process_tasks_step_cases _ _ _ _ _ _ Hstep) as [Hpool1 Hc].
    destruct (decide (i < length evs1)) as [Hlt | Hge].
    + rewrite lookup_app_l in Hi by done.
      destruct Hc as [[-> _] | [(a & -> & Hcl & _) | (a & -> & _)]];
        simpl in Hlt; [lia | | ].
      * destruct i; [| simpl in Hlt; lia]. injection Hi as ->.
        destruct Hcl as (a' & n' & [= <-] & Hn' & _ & Hall).
        rewrite HS in Hn'. injection Hn' as <-.
        destruct (Hall P HP) as (nP & HnP & HstP); [set_solver |].
        pose proof (Hlog P nP Hpool HnP HstP) as Hin.
        apply list_elem_of_lookup in Hin as [j Hj].
        exists j. pose proof (lookup_lt_Some _ _ _ Hj).
        split; [lia |]. by rewrite lookup_app_l.
      * destruct i; [| simpl in Hlt; lia]. done.
    + rewrite lookup_app_r in Hi by lia.
      destruct (same_edges_lookup _ _ _ _ Hse HS) as (nS1 & HS1 & Hp1 & _).
      destruct (IH m1 m2 evs2 (pre ++ evs1) Hrun Hlog1 _ S nS1 P Hi HS1)
        as (j & Hj & Hlook).
      * by rewrite Hp1.
      * by rewrite Hpool1.
      * exists j. rewrite length_app in Hj. split; [lia |].
        by rewrite app_assoc.
Qed.

Lemma reset_all_tasks_state_lookup pool h h' b :
  reset_all_tasks_state pool h = Some h' →
  h' !! b =
  if decide (Some b ∈ pool)
  then (λ n, mkINode IRunnable.Ready (_predecessors n) (_successors n)) <$> h !! b
  else h !! b.
Proof.
  revert h. induction pool as [| t pool IH]; intros h Hreset.
  - injection Hreset as <-.
    destruct (decide (Some b ∈ [])) as [Hin | _]; [| done].
    by apply elem_of_nil in Hin.
  - cbn [reset_all_tasks_state] in Hreset.
    destruct (deref h t) as [nt |] eqn:Ht; [| done].
    destruct t as [a |]; [| done].
    rewrite (IH _ Hreset), lookup_set_state.
    destruct (decide (a = b)) as [-> | Hab].
    + destruct (decide (Some b ∈ Some b :: pool)) as [_ | Hnin];
        [| destruct Hnin; by left].
      destruct (decide (Some b ∈ pool)); [| done]. by destruct (h !! b).
    + destruct (decide (Some b ∈ pool)) as [Hin | Hnin];
        destruct (decide (Some b ∈ Some a :: pool)) as [Hin' | Hnin']; try done.
      * destruct Hnin'. by right.
      * apply elem_of_cons in Hin' as [Heq | Hin']; [congruence | done].
Qed.

Lemma heap_wait m : heap (wait m).1 = heap m.
Proof.
  unfold wait. destruct (collect_futures (_worker_contexts m) EmptyString) as [cs []];
    try done.
  by case_decide.
Qed.

Lemma task_pool_wait m : _task_pool (wait m).1 = _task_pool m.
Proof.
  unfold wait. destruct (collect_futures (_worker_contexts m) EmptyString) as [cs []];
    try done.
  by case_decide.
Qed.

(** [start] leaves every node of the pool READY and touches no edge. *)
Lemma start_ready m0 m :
  start m0 = (m, Returns ()) →
  _task_pool m = _task_pool m0 ∧
  same_edges (heap m0) (heap m) ∧
  ∀ a n, Some a ∈ _task_pool m → heap m !! a = Some n → state n = IRunnable.Ready.
Proof.
  unfold start. destruct (executing m0); [done |].
  pose proof (heap_wait m0) as Hh. pose proof (task_pool_wait m0) as Hp.
  destruct (wait m0) as [m1 []]; simpl in Hh, Hp; try done.
  destruct (reset_all_tasks_state (_task_pool (reset m1)) (heap (reset m1)))
    as [h |] eqn:Hreset; [| done].
  intros [= <-]. simpl in *. rewrite Hp in *. rewrite Hh in *.
  split; [done |]. split.
  - intros a. rewrite (reset_all_tasks_state_lookup _ _ _ a Hreset).
    case_decide; [| done]. by destruct (heap m0 !! a).
  - intros a n Ha. rewrite (reset_all_tasks_state_lookup _ _ _ a Hreset).
    rewrite decide_True by done.
    destruct (heap m0 !! a); simpl; [| done]. by intros [= <-].
Qed.

(** C1.  A step of a worker turns a node's state into EXECUTING only when
    each of the node's predecessors is COMPLETED at that moment (the step is the
    one that got the verdict READY for the node); hence in a run begun by
    [start], whenever a node S starts, each predecessor P of S in the graph has
    finished at an earlier time. *)
Theorem dependency_respect (fuel : nat) :
  (∀ w pe m m' evs a n n',
     process_tasks_step fuel w pe m = Some (m', evs) →
     heap m !! a = Some n → heap m' !! a = Some n' →
     state n ≠ IRunnable.Executing → state n' = IRunnable.Executing →
     evs = [Started a] ∧ state n = IRunnable.Ready ∧
     ∀ b, Some b ∈ _predecessors n →
       ∃ nb, heap m !! b = Some nb ∧ state nb = IRunnable.Completed)
  ∧
  (∀ m0 m schedule m' evs,
     start m0 = (m, Returns ()) →
     run fuel schedule m = Some (m', evs) →
     ∀ i S nS P, evs !! i = Some (Started S) →
       heap m !! S = Some nS → Some P ∈ _predecessors nS →
       Some P ∈ _task_pool m →
       ∃ j, j < i ∧ evs !! j = Some (Finished P)).
Proof.
  split.
  - intros w pe m m' evs a n n' Hstep Hn Hn' Hst Hst'.
    apply process_tasks_step_cases in Hstep as [_ Hc].
    destruct Hc as [[-> Hh] | [(a0 & -> & Hcl & Hh) | (a0 & -> & Hh)]];
      rewrite Hh in Hn'.
    + congruence.
    + rewrite lookup_set_state in Hn'. case_decide as Ha; [| congruence].
      subst a0. destruct Hcl as (a' & n0 & [= <-] & Hn0 & Hready & Hall).
      rewrite Hn in Hn0. injection Hn0 as <-.
      split; [done |]. split; [done |].
      intros b Hb. apply Hall; [done | set_solver].
    + rewrite lookup_set_state in Hn'. case_decide as Ha; [| congruence].
      subst a0. rewrite Hn in Hn'. simpl in Hn'. injection Hn' as <-. done.
  - intros m0 m schedule m' evs Hstart Hrun i S nS P Hi HS HP Hpool.
    apply start_ready in Hstart as (_ & _ & Hready).
    destruct (run_timeline fuel schedule m m' evs [] Hrun) with (i := i) (S := S)
      (nS := nS) (P := P) as (j & Hj & Hlook); try done.
    + intros a n Ha Hn Hst. rewrite (Hready a n Ha Hn) in Hst. done.
    + exists j. simpl in *. done.
Qed.

Lemma dependency_respect_witness :
  ([Started 1] = [Started 1] ∧ IRunnable.Ready = IRunnable.Ready
   ∧ ∀ b, Some b ∈ [] →
       ∃ nb, heap diamond_past_test !! b = Some nb ∧ state nb = IRunnable.Completed)
  ∧ ∃ j, j < 6 ∧
      [Started 1; Finished 1; Started 2; Started 3; Finished 2; Finished 3;
       Started 4] !! j = Some (Finished 2).
Proof.
  split.
  - apply (proj1 (dependency_respect 5) 0 PayloadReturns diamond_past_test
             diamond_first_step [Started 1] 1
             (mkINode IRunnable.Ready [] [Some 2; Some 3])
             (mkINode IRunnable.Executing [] [Some 2; Some 3])).
    + vm_compute. reflexivity.
    + vm_compute. reflexivity.
    + vm_compute. reflexivity.
    + discriminate.
    + reflexivity.
  - apply (proj2 (dependency_respect 5) diamond diamond_started diamond_schedule
             diamond_running
             [Started 1; Finished 1; Started 2; Started 3; Finished 2; Finished 3;
              Started 4]) with (S := 4) (nS := mkINode IRunnable.Ready [Some 2; Some 3] []).
    + vm_compute. reflexivity.
    + vm_compute. reflexivity.
    + reflexivity.
    + vm_compute. reflexivity.
    + by left.
    + change (_task_pool diamond_started) with [Some 1; Some 2; Some 3; Some 4].
      right. by left.
Defined.

(** ** Task::depend *)

(** C4.  Once [a.depend(b)] has returned, [b.depend(a)] throws the CYCLE error
    and leaves the store, hence every edge list, as it was. *)
Theorem direct_cycle_rejected (a b : ptr) (h h' : store) :
  Task.depend a b h = (h', Returns ()) →
  a ≠ b ∧ is_Some (deref h a) ∧ is_Some (deref h b) ∧
  Task.depend b a h' = (h', Throws Task.CYCLE).
Proof.
  unfold Task.depend at 1.
  destruct b as [tb |]; [| done].
  case_decide as Hab; [done |].
  destruct (h !! tb) as [nt |] eqn:Hnt; [| done].
  case_decide as Hcyc; [done |].
  destruct a as [me |]; [| done].
  destruct (h !! me) as [nme |] eqn:Hnme; [| done].
  assert (me ≠ tb) as Hne by congruence.
  set (h1 := if decide (Some tb ∈ _predecessors nme) then h
             else <[me := Task.push_back_predecessor (Some tb) nme]> h).
  assert (h1 !! tb = Some nt) as Hnt1.
  { unfold h1. case_decide; [done |]. by rewrite lookup_insert_ne. }
  assert (∃ nme1, h1 !! me = Some nme1 ∧ Some tb ∈ _predecessors nme1)
    as (nme1 & Hnme1 & Hin).
  { unfold h1. case_decide.
    - eauto.
    - eexists. rewrite lookup_insert_eq. split; [done |]. simpl.
      apply elem_of_app. right. by left. }
  rewrite Hnt1. intros [= <-].
  split; [congruence |]. split; [simpl; eauto |]. split; [simpl; eauto |].
  unfold Task.depend. rewrite decide_False by congruence.
  assert ((if decide (Some me ∈ _successors nt) then h1
           else <[tb := Task.push_back_successor (Some me) nt]> h1) !! me
          = Some nme1) as ->.
  { case_decide; [done |]. by rewrite lookup_insert_ne. }
  by rewrite decide_True.
Qed.

Lemma direct_cycle_rejected_witness :
  Some 2 ≠ Some 1 ∧ is_Some (deref (heap diamond) (Some 2))
  ∧ is_Some (deref (heap diamond) (Some 1))
  ∧ Task.depend (Some 1) (Some 2) (heap diamond)
    = (heap diamond, Throws Task.CYCLE).
Proof.
  apply (direct_cycle_rejected (Some 2) (Some 1) (heap diamond) (heap diamond)).
  reflexivity.
Defined.

(** The guards [depend] does have: an empty [other], and [other == this]. *)
Lemma depend_other_empty (this : ptr) (h : store) :
  Task.depend this nullptr h = (h, Throws (invalid_argument Task.msg_task_not_valid)).
Proof. reflexivity. Qed.

Lemma depend_self (a : nat) (h : store) :
  Task.depend (Some a) (Some a) h
  = (h, Throws (invalid_argument Task.msg_self_relation)).
Proof. unfold Task.depend. by rewrite decide_True. Qed.

(** An empty [this] with a valid [other] passes both guards and reaches
    [_node->_predecessors] with [_node == nullptr]. *)
Lemma depend_this_empty (b : nat) (nb : INode) (h : store) :
  h !! b = Some nb → nullptr ∉ _predecessors nb →
  Task.depend nullptr (Some b) h = (h, Undefined).
Proof.
  intros Hb Hnn. unfold Task.depend. rewrite decide_False by done.
  rewrite Hb. by rewrite decide_False.
Qed.

(** C5.  [Task().depend(t)] on a pushed task [t]: no INVALID_ARGUMENT, the
    null [_node] is dereferenced. *)
Theorem depend_empty_this_undefined :
  Task.depend nullptr (Some 1) (heap pair_graph) = (heap pair_graph, Undefined).
Proof. reflexivity. Qed.

(** ** Accessors of a Task handle *)

(** C10.  On an empty handle [state()], [predecessors_size()] and
    [successors_size()] dereference the null node and have no defined result,
    whereas [reset_state()], [empty()] and the four iterator accessors test the
    node first; [erase] leaves such an empty handle behind when it succeeds. *)
Theorem empty_handle_accessors (h : store) :
  Task.state nullptr h = Undefined
  ∧ Task.predecessors_size nullptr h = Undefined
  ∧ Task.successors_size nullptr h = Undefined
  ∧ Task.reset_state nullptr h = (h, Returns ())
  ∧ Task.empty nullptr = true
  ∧ Task.begin_predecessors nullptr h = Returns Task.singular
  ∧ Task.end_predecessors nullptr h = Returns Task.singular
  ∧ Task.begin_successors nullptr h = Returns Task.singular
  ∧ Task.end_successors nullptr h = Returns Task.singular
  ∧ ∀ t m m' t', erase t m = (m', t', Returns true) →
      t' = nullptr ∧ Task.state t' (heap m') = Undefined.
Proof.
  repeat split; try reflexivity;
    revert H; unfold erase; destruct t as [a |]; try done;
    repeat (case_match; try done); by intros [= <- <-].
Qed.

Lemma empty_handle_accessors_witness :
  ∃ m', erase (Some 4) diamond = (m', nullptr, Returns true)
        ∧ Task.state nullptr (heap m') = Undefined.
Proof.
  eexists. split; [reflexivity |].
  apply (proj2 (proj2 (proj2 (proj2 (proj2 (proj2 (proj2 (proj2 (proj2
           (empty_handle_accessors ∅))))))))) (Some 4) diamond _ nullptr eq_refl).
Defined.

(** ** ThreadGraph::push *)

(** C7.  [push(node)] on a null pointer throws INVALID_ARGUMENT; on a live
    node it throws RUNTIME_ERROR while the graph is executing and otherwise
    INVALID_ARGUMENT when the node is not READY or is in the pool already;
    every throw leaves the graph as it was; in the remaining case the node
    is appended to the pool and the handle returned refers to it. *)
Theorem push_spec (node : ptr) (m : machine) :
  (node = nullptr → push node m = (m, Throws (invalid_argument msg_node_null)))
  ∧ (∀ n, deref (heap m) node = Some n →
       (executing m = true →
          push node m = (m, Throws (runtime_error msg_push_executing)))
       ∧ (executing m = false → state n ≠ IRunnable.Ready →
          push node m = (m, Throws (invalid_argument msg_node_not_ready)))
       ∧ (executing m = false → node ∈ _task_pool m →
          ∃ w, push node m = (m, Throws (invalid_argument w)))
       ∧ (executing m = false → state n = IRunnable.Ready →
          node ∉ _task_pool m →
          push node m = (with_task_pool (_task_pool m ++ [node]) m, Returns node)))
  ∧ (∀ m' e, push node m = (m', Throws e) →
       m' = m ∧
       ((∃ w, e = invalid_argument w) ∧
          (node = nullptr
           ∨ (∃ n, deref (heap m) node = Some n ∧ state n ≠ IRunnable.Ready)
           ∨ node ∈ _task_pool m)
        ∨ (∃ w, e = runtime_error w) ∧ executing m = true)).
Proof.
  unfold push. split; [by intros -> |]. split.
  - intros n Hn. destruct node as [a |]; [| done]. simpl in Hn. rewrite Hn.
    repeat split.
    + by intros ->.
    + intros -> Hst. destruct (state n); done.
    + intros -> Hin. destruct (state n); simpl; eauto.
      rewrite decide_True by done. eauto.
    + intros -> -> Hnin. simpl. by rewrite decide_False.
  - intros m' e. destruct node as [a |].
    2:{ intros [= <- <-]. split; [done |]. left. eauto. }
    destruct (executing m) eqn:Hex.
    { intros [= <- <-]. split; [done |]. right. eauto. }
    destruct (heap m !! a) as [n |] eqn:Hn; [| done].
    destruct (state n) eqn:Hst; simpl.
    + case_decide; [| done]. intros [= <- <-]. split; [done |]. left. eauto.
    + intros [= <- <-]. split; [done |]. left. split; [eauto |].
      right. left. exists n. rewrite Hst. done.
    + intros [= <- <-]. split; [done |]. left. split; [eauto |].
      right. left. exists n. rewrite Hst. done.
Qed.

Lemma push_spec_witness :
  push nullptr diamond = (diamond, Throws (invalid_argument msg_node_null))
  ∧ push (Some 1) diamond_running
    = (diamond_running, Throws (runtime_error msg_push_executing))
  ∧ push (Some 4) (reset diamond_running)
    = (reset diamond_running, Throws (invalid_argument msg_node_not_ready))
  ∧ (∃ w, push (Some 1) diamond = (diamond, Throws (invalid_argument w)))
  ∧ push (Some 2) (with_task_pool [Some 1] pair_graph)
    = (with_task_pool ([Some 1] ++ [Some 2]) (with_task_pool [Some 1] pair_graph),
       Returns (Some 2))
  ∧ diamond = diamond.
Proof.
  split; [| split; [| split; [| split; [| split]]]].
  - by apply (proj1 (push_spec nullptr diamond)).
  - by apply (proj1 (proj1 (proj2 (push_spec (Some 1) diamond_running))
                       (mkINode IRunnable.Completed [] [Some 2; Some 3]) eq_refl)).
  - apply (proj1 (proj2 (proj1 (proj2 (push_spec (Some 4) (reset diamond_running)))
                          (mkINode IRunnable.Executing [Some 2; Some 3] []) eq_refl)));
      done.
  - apply (proj1 (proj2 (proj2 (proj1 (proj2 (push_spec (Some 1) diamond))
                          (mkINode IRunnable.Ready [] [Some 2; Some 3]) eq_refl))));
      [done | by left].
  - apply (proj2 (proj2 (proj2 (proj1 (proj2
             (push_spec (Some 2) (with_task_pool [Some 1] pair_graph)))
             (mkINode IRunnable.Ready [Some 1] []) eq_refl))));
      [done | done |].
    by intros [[=] | []%elem_of_nil]%elem_of_cons.
  - apply (proj1 (proj2 (proj2 (push_spec nullptr diamond)) diamond
                   (invalid_argument msg_node_null) eq_refl)).
Defined.

(** ** ThreadGraph::wait *)

Lemma string_append_cons (c : Ascii.ascii) (s1 s2 : string) :
  String c s1 +:+ s2 = String c (s1 +:+ s2).
Proof. reflexivity. Qed.

Lemma string_append_nil_l (s : string) : EmptyString +:+ s = s.
Proof. reflexivity. Qed.

Lemma string_append_assoc (s1 s2 s3 : string) :
  (s1 +:+ s2) +:+ s3 = s1 +:+ (s2 +:+ s3).
Proof.
  induction s1 as [| c s1 IH]; [done |].
  rewrite !string_append_cons. by rewrite IH.
Qed.

Lemma string_append_nil_r (s : string) : s +:+ EmptyString = s.
Proof.
  induction s as [| c s IH]; [done |]. rewrite string_append_cons. by rewrite IH.
Qed.

Lemma is_substring_report (e : exception) (w : string) (es : list exception) :
  e ∈ es → what_of e = Some w → is_substring w (report es).
Proof.
  intros Hin Hw. induction es as [| e' es IH]; [by apply elem_of_nil in Hin |].
  apply elem_of_cons in Hin as [<- | Hin].
  - exists EmptyString, (newline +:+ report es). simpl. by rewrite Hw.
  - destruct (IH Hin) as (before & after & Heq).
    exists ((default EmptyString (what_of e') +:+ newline) +:+ before), after.
    simpl. rewrite Heq. by rewrite !string_append_assoc.
Qed.

Lemma all_set_cons c contexts : all_set (c :: contexts) → all_set contexts.
Proof. intros Hall c' Hc'. apply Hall. by right. Qed.

(** The first loop of [wait] over workers that have all ended: it either
    collects the report of every captured exception, or stops at one that is
    not a [std::exception]. *)
Lemma collect_futures_spec contexts exception_msg :
  all_set contexts →
  match (collect_futures contexts exception_msg).2 with
  | Collected s =>
      Forall (λ e, is_Some (what_of e)) (captured contexts)
      ∧ s = exception_msg +:+ report (captured contexts)
  | Escaped e => e ∈ captured contexts ∧ what_of e = None
  | Blocked => False
  end.
Proof.
  revert exception_msg. induction contexts as [| c contexts IH];
    intros exception_msg Hall; simpl.
  - split; [constructor |]. by rewrite string_append_nil_r.
  - pose proof (all_set_cons _ _ Hall) as Hall'.
    destruct c as [c |].
    2:{ specialize (IH exception_msg Hall').
        by destruct (collect_futures contexts exception_msg) as [cs r]. }
    destruct (future_valid c) eqn:Hv; simpl.
    2:{ specialize (IH exception_msg Hall').
        by destruct (collect_futures contexts exception_msg) as [cs r]. }
    destruct (_done c) as [| | e] eqn:Hd.
    + destruct (Hall c); [by left | done | done].
    + specialize (IH exception_msg Hall').
      by destruct (collect_futures contexts exception_msg) as [cs r].
    + destruct (what_of e) as [w |] eqn:Hw; simpl.
      * specialize (IH (exception_msg +:+ w +:+ newline) Hall').
        destruct (collect_futures contexts (exception_msg +:+ w +:+ newline))
          as [cs r].
        simpl in *. destruct r as [s | e' |]; [| | done].
        -- destruct IH as [Hf ->]. split; [constructor; eauto |].
           rewrite Hw. simpl. by rewrite !string_append_assoc.
        -- destruct IH as [Hin Hnone]. split; [by right | done].
      * split; [by left | done].
Qed.

Lemma report_nonempty (es : list exception) : es ≠ [] → report es ≠ EmptyString.
Proof.
  destruct es as [| e es]; [done |]. intros _. simpl.
  destruct (default EmptyString (what_of e)); done.
Qed.

Lemma reset_with_worker_contexts cs m : reset (with_worker_contexts cs m) = reset m.
Proof. reflexivity. Qed.

(** What [wait] does once every worker has ended.  When every captured
    exception derives from [std::exception]: with at least one of them [wait]
    resets the graph and throws a [std::runtime_error] whose message is the
    prefix followed by the message of each faulted worker and a newline; with
    none, [wait] resets the graph and returns.  Otherwise an exception of
    another type leaves [wait]. *)
Lemma wait_reports_ended_workers (m : machine) :
  all_set (_worker_contexts m) →
  (Forall (λ e, is_Some (what_of e)) (captured (_worker_contexts m)) →
     wait_reports_every_fault m
     ∧ (wait m).1 = reset m
     ∧ (captured (_worker_contexts m) ≠ [] →
        (wait m).2 = WaitThrows
          (runtime_error (msg_worker_prefix +:+ report (captured (_worker_contexts m))))))
  ∧ (¬ Forall (λ e, is_Some (what_of e)) (captured (_worker_contexts m)) →
     ∃ e, e ∈ captured (_worker_contexts m) ∧ what_of e = None
          ∧ (wait m).2 = WaitThrows e).
Proof.
  intros Hall.
  pose proof (collect_futures_spec (_worker_contexts m) EmptyString Hall) as Hc.
  unfold wait_reports_every_fault, wait.
  destruct (collect_futures (_worker_contexts m) EmptyString) as [cs [s | e |]];
    simpl in Hc; [| | done].
  - destruct Hc as [Hf ->]. simpl. split; [| done]. intros _.
    rewrite reset_with_worker_contexts.
    destruct (decide (captured (_worker_contexts m) = [])) as [Hnil | Hne].
    + rewrite Hnil. simpl. split; [| done]. split; [done |]. done.
    + pose proof (report_nonempty _ Hne). rewrite decide_False by done. simpl.
      split; [| done]. split; [| done]. intros _.
      eexists _, _. split; [done |]. split; [done |].
      intros e' w Hin Hw.
      destruct (is_substring_report _ _ _ Hin Hw) as (before & after & ->).
      exists (msg_worker_prefix +:+ before), after.
      by rewrite string_append_assoc.
  - destruct Hc as [Hin Hnone]. split.
    + intros Hf. rewrite Forall_forall in Hf. destruct (Hf e Hin) as [w Hw].
      congruence.
    + intros _. exists e. simpl. done.
Qed.

Lemma collect_futures_escape before c after e :
  forallb passed before = true →
  future_valid c = true → _done c = ExceptionSet e → what_of e = None →
  ∀ msg, ∃ before',
    length before' = length before ∧
    collect_futures (before ++ Some c :: after) msg
    = (before' ++ Some (invalidate c) :: after, Escaped e).
Proof.
  intros Hpassed Hvalid Hdone Hwhat.
  induction before as [| [c0 |] before IH]; intros msg; cbn [app collect_futures].
  - exists []. split; [done |]. rewrite Hvalid, Hdone, Hwhat. done.
  - cbn [forallb passed] in Hpassed. apply andb_true_iff in Hpassed as [Hc0 Hrest].
    destruct (future_valid c0); simpl in *.
    + destruct (_done c0) as [| | e0]; [done | |].
      * destruct (IH Hrest msg) as (before' & Hlen & ->).
        exists (Some (invalidate c0) :: before'). split; [simpl; lia | done].
      * apply bool_decide_eq_true in Hc0 as [w ->].
        destruct (IH Hrest (msg +:+ w +:+ newline)) as (before' & Hlen & ->).
        exists (Some (invalidate c0) :: before'). split; [simpl; lia | done].
    + destruct (IH Hrest msg) as (before' & Hlen & ->).
      exists (Some c0 :: before'). split; [simpl; lia | done].
  - cbn [forallb passed] in Hpassed. simpl in Hpassed.
    destruct (IH Hpassed msg) as (before' & Hlen & ->).
    exists (None :: before'). split; [simpl; lia | done].
Qed.

Lemma captured_middle before c after e :
  future_valid c = true → _done c = ExceptionSet e →
  e ∈ captured (before ++ Some c :: after).
Proof.
  intros Hvalid Hdone.
  induction before as [| [c0 |] before IH]; cbn [app captured].
  - rewrite Hvalid, Hdone. by left.
  - destruct (future_valid c0); [| done].
    destruct (_done c0); [done | done | by right].
  - done.
Qed.

(** C9.  What [wait] does against the claim.  The handler of its first loop is
    [catch (const std::exception&)], while a worker's promise holds whatever
    the worker's [catch (...)] caught.  When the loop, having gone past the
    contexts before it, comes to a worker whose exception does not derive
    from [std::exception], [future.get()] rethrows it out of [wait]: what
    [wait] throws is that exception, which has no message, so the messages
    collected from the workers before are lost and the report the claim
    promises is not given; the threads are not joined and the graph is not
    reset: the flags and the ready-cache are as before, and the worker
    contexts stay, those after the worker untouched. *)
Theorem wait_foreign_exception_escapes (m : machine)
    (before after : list (option WorkerContext)) (c : WorkerContext)
    (e : exception) :
  _worker_contexts m = before ++ Some c :: after →
  forallb passed before = true →
  future_valid c = true → _done c = ExceptionSet e → what_of e = None →
  (wait m).2 = WaitThrows e ∧
  ¬ wait_reports_every_fault m ∧
  _executing_flag (wait m).1 = _executing_flag m ∧
  _termination_flag (wait m).1 = _termination_flag m ∧
  _ready_tasks_cache (wait m).1 = _ready_tasks_cache m ∧
  ∃ before', length before' = length before ∧
    _worker_contexts (wait m).1 = before' ++ Some (invalidate c) :: after.
Proof.
  intros Hctx Hpassed Hvalid Hdone Hwhat.
  destruct (collect_futures_escape before c after e Hpassed Hvalid Hdone Hwhat
              EmptyString) as (before' & Hlen & Hcollect).
  assert (wait m = (with_worker_contexts (before' ++ Some (invalidate c) :: after) m,
                    WaitThrows e)) as Hwait.
  { unfold wait. rewrite Hctx, Hcollect. done. }
  rewrite Hwait. simpl. split; [done |].
  split; [| repeat split; try done; by exists before'].
  intros [Hthrows _].
  destruct Hthrows as (e' & msg & He' & Hmsg & _).
  { rewrite Hctx. intros Hnil.
    pose proof (captured_middle before c after e Hvalid Hdone) as Hin.
    rewrite Hnil in Hin. by apply elem_of_nil in Hin. }
  rewrite Hwait in He'. simpl in He'. injection He' as <-. congruence.
Qed.

Lemma wait_foreign_exception_escapes_witness :
  (wait two_faults).2 = WaitThrows (foreign_exception 42) ∧
  ¬ wait_reports_every_fault two_faults ∧
  _executing_flag (wait two_faults).1 = _executing_flag two_faults ∧
  _termination_flag (wait two_faults).1 = _termination_flag two_faults ∧
  _ready_tasks_cache (wait two_faults).1 = _ready_tasks_cache two_faults ∧
  ∃ before', length before' = 1 ∧
    _worker_contexts (wait two_faults).1
    = before' ++ [Some (mkWorkerContext (TraceNodeState.Ready, Some 2) Left
                          (ExceptionSet (foreign_exception 42)) false)].
Proof.
  apply (wait_foreign_exception_escapes two_faults
           [Some (mkWorkerContext (TraceNodeState.Ready, Some 1) Left
                    (ExceptionSet (runtime_error "boom")) true)]
           []
           (mkWorkerContext (TraceNodeState.Ready, Some 2) Left
              (ExceptionSet (foreign_exception 42)) true)
           (foreign_exception 42)).
  - vm_compute. reflexivity.
  - vm_compute. reflexivity.
  - reflexivity.
  - reflexivity.
  - reflexivity.
Defined.

(** ** Edge lists under the client's calls *)

Lemma elem_of_erase_remove (p q : ptr) (v : list ptr) :
  q ∈ Task.erase_remove p v ↔ q ∈ v ∧ q ≠ p.
Proof. unfold Task.erase_remove. rewrite list_elem_of_filter. tauto. Qed.

Lemma erase_remove_id (p : ptr) (v : list ptr) :
  p ∉ v → Task.erase_remove p v = v.
Proof.
  unfold Task.erase_remove. induction v as [| q v IH]; intros Hnin; [done |].
  apply not_elem_of_cons in Hnin as [Hne Hnin].
  rewrite filter_cons_True by done. by rewrite IH.
Qed.

Lemma NoDup_erase_remove (p : ptr) (v : list ptr) :
  NoDup v → NoDup (Task.erase_remove p v).
Proof. apply NoDup_filter. Qed.

Lemma elem_of_erase_first (p q : ptr) (v : list ptr) :
  NoDup v → q ∈ erase_first p v ↔ q ∈ v ∧ q ≠ p.
Proof.
  induction v as [| x v IH]; intros Hnd; simpl.
  - split; [by intros ?%elem_of_nil | by intros [?%elem_of_nil _]].
  - apply NoDup_cons in Hnd as [Hx Hnd]. case_decide as Hxp.
    + subst x. rewrite elem_of_cons. split.
      * intros Hq. split; [by right |]. by intros ->.
      * intros [[-> | Hq] Hne]; done.
    + rewrite !elem_of_cons, IH by done. split.
      * intros [-> | [Hq Hne]]; [split; [by left | done] | split; [by right | done]].
      * intros [[-> | Hq] Hne]; [by left | by right].
Qed.

Lemma NoDup_erase_first (p : ptr) (v : list ptr) :
  NoDup v → NoDup (erase_first p v).
Proof.
  induction v as [| x v IH]; intros Hnd; simpl; [constructor |].
  pose proof Hnd as Hnd0.
  apply NoDup_cons in Hnd as [Hx Hnd]. case_decide; [done |].
  apply NoDup_cons. split; [| by apply IH].
  intros Hin. apply elem_of_erase_first in Hin as [Hin _]; done.
Qed.

Lemma elem_of_add_predecessor (p q : ptr) (n : INode) :
  q ∈ _predecessors (add_predecessor p n) ↔ q ∈ _predecessors n ∨ q = p.
Proof.
  unfold add_predecessor. case_decide as Hin; simpl.
  - split; [tauto |]. intros [Hq | ->]; done.
  - rewrite elem_of_app, list_elem_of_singleton. tauto.
Qed.

Lemma elem_of_add_successor (p q : ptr) (n : INode) :
  q ∈ _successors (add_successor p n) ↔ q ∈ _successors n ∨ q = p.
Proof.
  unfold add_successor. case_decide as Hin; simpl.
  - split; [tauto |]. intros [Hq | ->]; done.
  - rewrite elem_of_app, list_elem_of_singleton. tauto.
Qed.

Lemma NoDup_add_predecessor (p : ptr) (n : INode) :
  NoDup (_predecessors n) → NoDup (_predecessors (add_predecessor p n)).
Proof.
  unfold add_predecessor. case_decide as Hin; simpl; [done |].
  intros Hnd. apply NoDup_app. split; [done |]. split; [| apply NoDup_singleton].
  intros x Hx ->%list_elem_of_singleton. done.
Qed.

Lemma NoDup_add_successor (p : ptr) (n : INode) :
  NoDup (_successors n) → NoDup (_successors (add_successor p n)).
Proof.
  unfold add_successor. case_decide as Hin; simpl; [done |].
  intros Hnd. apply NoDup_app. split; [done |]. split; [| apply NoDup_singleton].
  intros x Hx ->%list_elem_of_singleton. done.
Qed.

Lemma add_predecessor_successors p n :
  _successors (add_predecessor p n) = _successors n.
Proof. unfold add_predecessor. by case_decide. Qed.

Lemma add_successor_predecessors p n :
  _predecessors (add_successor p n) = _predecessors n.
Proof. unfold add_successor. by case_decide. Qed.

(** The store a successful [depend] leaves. *)
Lemma depend_returns (this t : ptr) (h h' : store) :
  Task.depend this t h = (h', Returns ()) →
  ∃ me tb nme ntb,
    this = Some me ∧ t = Some tb ∧ me ≠ tb ∧
    h !! me = Some nme ∧ h !! tb = Some ntb ∧
    h' = <[tb := add_successor (Some me) ntb]>
           (<[me := add_predecessor (Some tb) nme]> h).
Proof.
  unfold Task.depend.
  destruct t as [tb |]; [| done].
  case_decide as Hab; [done |].
  destruct (h !! tb) as [ntb |] eqn:Hntb; [| done].
  case_decide as Hcyc; [done |].
  destruct this as [me |]; [| done].
  destruct (h !! me) as [nme |] eqn:Hnme; [| done].
  assert (me ≠ tb) as Hne by congruence.
  assert ((if decide (Some tb ∈ _predecessors nme) then h
           else <[me := Task.push_back_predecessor (Some tb) nme]> h)
          = <[me := add_predecessor (Some tb) nme]> h) as ->.
  { unfold add_predecessor. case_decide; [| done]. by rewrite insert_id. }
  rewrite lookup_insert_ne by done. rewrite Hntb.
  intros [= <-]. exists me, tb, nme, ntb. repeat split; try done.
  unfold add_successor. case_decide; [| done].
  rewrite (insert_id (<[me := _]> h) tb ntb); [done |].
  by rewrite lookup_insert_ne.
Qed.

Lemma depend_throws (this t : ptr) (h h' : store) (e : exception) :
  Task.depend this t h = (h', Throws e) → h' = h.
Proof.
  unfold Task.depend. repeat (case_match; try done); by intros [= <-].
Qed.

Lemma depend_returns_lookup (this t : ptr) (h h' : store) :
  Task.depend this t h = (h', Returns ()) →
  ∃ me tb, this = Some me ∧ t = Some tb ∧ me ≠ tb ∧
    is_Some (h !! me) ∧ is_Some (h !! tb) ∧
    ∀ x, h' !! x = with_edge me tb x <$> h !! x.
Proof.
  intros (me & tb & nme & ntb & -> & -> & Hne & Hme & Htb & ->)%depend_returns.
  exists me, tb. repeat split; eauto.
  intros x. unfold with_edge.
  destruct (decide (x = tb)) as [-> | Hxtb].
  - rewrite lookup_insert_eq, Htb. simpl. by rewrite decide_False.
  - rewrite lookup_insert_ne by done.
    destruct (decide (x = me)) as [-> | Hxme].
    + by rewrite lookup_insert_eq, Hme.
    + rewrite lookup_insert_ne by done. by destruct (h !! x).
Qed.

Lemma erase_depend_lookup (this other : ptr) (h h' : store) :
  Task.erase_depend this other h = (h', Returns ()) →
  h' = h ∨
  ∃ me oa, this = Some me ∧ other = Some oa ∧
    ∀ x, h' !! x = without_edge me oa x <$> h !! x.
Proof.
  unfold Task.erase_depend.
  destruct this as [me |]; [| intros [= <-]; by left].
  destruct other as [oa |]; [| intros [= <-]; by left].
  destruct (h !! me) as [nme |] eqn:Hme; [| done].
  destruct (<[me := Task.remove_predecessor (Some oa) nme]> h !! oa) as [no |] eqn:Hoa;
    [| done].
  intros [= <-]. right. exists me, oa. repeat split; try done.
  intros x. unfold without_edge.
  destruct (decide (x = oa)) as [-> | Hxoa].
  - rewrite lookup_insert_eq.
    destruct (decide (oa = me)) as [-> | Hne].
    + rewrite lookup_insert_eq in Hoa. injection Hoa as <-. by rewrite Hme.
    + rewrite lookup_insert_ne in Hoa by done. rewrite Hoa. by destruct no.
  - rewrite lookup_insert_ne by done.
    destruct (decide (x = me)) as [-> | Hxme].
    + by rewrite lookup_insert_eq, Hme.
    + rewrite lookup_insert_ne by done. destruct (h !! x) as [[]|]; done.
Qed.

Lemma erase_precede_lookup (this other : ptr) (h h' : store) :
  Task.erase_precede this other h = (h', Returns ()) →
  h' = h ∨
  ∃ me oa, this = Some me ∧ other = Some oa ∧
    ∀ x, h' !! x = without_edge oa me x <$> h !! x.
Proof.
  unfold Task.erase_precede.
  destruct this as [me |]; [| intros [= <-]; by left].
  destruct other as [oa |]; [| intros [= <-]; by left].
  destruct (h !! me) as [nme |] eqn:Hme; [| done].
  destruct (<[me := Task.remove_successor (Some oa) nme]> h !! oa) as [no |] eqn:Hoa;
    [| done].
  intros [= <-]. right. exists me, oa. repeat split; try done.
  intros x. unfold without_edge.
  destruct (decide (x = oa)) as [-> | Hxoa].
  - rewrite lookup_insert_eq.
    destruct (decide (oa = me)) as [-> | Hne].
    + rewrite lookup_insert_eq in Hoa. injection Hoa as <-. by rewrite Hme.
    + rewrite lookup_insert_ne in Hoa by done. rewrite Hoa. simpl.
      repeat case_decide; done.
  - rewrite lookup_insert_ne by done.
    destruct (decide (x = me)) as [-> | Hxme].
    + by rewrite lookup_insert_eq, Hme.
    + rewrite lookup_insert_ne by done. destruct (h !! x) as [[]|]; done.
Qed.

Lemma erase_depend_throws (this other : ptr) (h h' : store) (e : exception) :
  Task.erase_depend this other h = (h', Throws e) → h' = h.
Proof. unfold Task.erase_depend. repeat (case_match; try done). Qed.

Lemma erase_precede_throws (this other : ptr) (h h' : store) (e : exception) :
  Task.erase_precede this other h = (h', Throws e) → h' = h.
Proof. unfold Task.erase_precede. repeat (case_match; try done). Qed.

Lemma elem_of_with_edge_predecessors me tb x n p :
  p ∈ _predecessors (with_edge me tb x n)
  ↔ p ∈ _predecessors n ∨ (x = me ∧ p = Some tb).
Proof.
  unfold with_edge. repeat case_decide;
    rewrite ?add_successor_predecessors, ?elem_of_add_predecessor; naive_solver.
Qed.

Lemma elem_of_with_edge_successors me tb x n p :
  p ∈ _successors (with_edge me tb x n)
  ↔ p ∈ _successors n ∨ (x = tb ∧ p = Some me).
Proof.
  unfold with_edge. repeat case_decide;
    rewrite ?elem_of_add_successor, ?add_predecessor_successors; naive_solver.
Qed.

Lemma NoDup_with_edge me tb x n :
  NoDup (_predecessors n) ∧ NoDup (_successors n) →
  NoDup (_predecessors (with_edge me tb x n))
  ∧ NoDup (_successors (with_edge me tb x n)).
Proof.
  intros [Hp Hs]. unfold with_edge. repeat case_decide;
    rewrite ?add_successor_predecessors, ?add_predecessor_successors;
    split; auto using NoDup_add_predecessor, NoDup_add_successor.
  - apply NoDup_add_successor. by rewrite add_predecessor_successors.
Qed.

Lemma elem_of_without_edge_predecessors me oa x n p :
  p ∈ _predecessors (without_edge me oa x n)
  ↔ p ∈ _predecessors n ∧ ¬ (x = me ∧ p = Some oa).
Proof.
  unfold without_edge. simpl. case_decide; rewrite ?elem_of_erase_remove; naive_solver.
Qed.

Lemma elem_of_without_edge_successors me oa x n p :
  p ∈ _successors (without_edge me oa x n)
  ↔ p ∈ _successors n ∧ ¬ (x = oa ∧ p = Some me).
Proof.
  unfold without_edge. simpl. case_decide; rewrite ?elem_of_erase_remove; naive_solver.
Qed.

Lemma NoDup_without_edge me oa x n :
  NoDup (_predecessors n) ∧ NoDup (_successors n) →
  NoDup (_predecessors (without_edge me oa x n))
  ∧ NoDup (_successors (without_edge me oa x n)).
Proof.
  intros [Hp Hs]. unfold without_edge. simpl.
  split; case_decide; auto using NoDup_erase_remove.
Qed.

Lemma lookup_pointwise (f : nat → INode → INode) (h h' : store) x n' :
  (∀ x, h' !! x = f x <$> h !! x) →
  h' !! x = Some n' → ∃ n, h !! x = Some n ∧ n' = f x n.
Proof. intros Hpt. rewrite Hpt. destruct (h !! x); naive_solver. Qed.

Lemma live_pointwise (f : nat → INode → INode) (h h' : store) x :
  (∀ x, h' !! x = f x <$> h !! x) → is_Some (h !! x) → is_Some (h' !! x).
Proof. intros Hpt [n Hn]. rewrite Hpt, Hn. simpl. eauto. Qed.

Lemma store_inv_with_edge h h' me tb :
  store_inv h → me ≠ tb → is_Some (h !! me) → is_Some (h !! tb) →
  (∀ x, h' !! x = with_edge me tb x <$> h !! x) →
  store_inv h'.
Proof.
  intros (Hc & Hs & Hn & Hl) Hne Hme Htb Hpt.
  pose proof (λ x, live_pointwise _ _ _ x Hpt) as Hlive.
  repeat split.
  - intros a n' p (n & Ha & ->)%(lookup_pointwise _ _ _ _ _ Hpt).
    rewrite elem_of_with_edge_predecessors, elem_of_with_edge_successors.
    intros [[Hp | [-> ->]] | [Hp | [-> ->]]]; eauto.
    + destruct (Hc a n p Ha) as (b & -> & Hb); eauto.
    + destruct (Hc a n p Ha) as (b & -> & Hb); eauto.
  - destruct (lookup_pointwise _ _ _ _ _ Hpt H) as (n & Ha & ->).
    destruct (lookup_pointwise _ _ _ _ _ Hpt H0) as (n0 & Hb & ->).
    rewrite elem_of_with_edge_predecessors, elem_of_with_edge_successors.
    rewrite (Hs a b n n0 Ha Hb). naive_solver.
  - destruct (lookup_pointwise _ _ _ _ _ Hpt H) as (n & Ha & ->).
    destruct (lookup_pointwise _ _ _ _ _ Hpt H0) as (n0 & Hb & ->).
    rewrite elem_of_with_edge_predecessors, elem_of_with_edge_successors.
    rewrite (Hs a b n n0 Ha Hb). naive_solver.
  - destruct (lookup_pointwise _ _ _ _ _ Hpt H) as (n0 & Ha & ->).
    apply NoDup_with_edge, (Hn a n0 Ha).
  - destruct (lookup_pointwise _ _ _ _ _ Hpt H) as (n0 & Ha & ->).
    apply NoDup_with_edge, (Hn a n0 Ha).
  - intros a n' (n & Ha & ->)%(lookup_pointwise _ _ _ _ _ Hpt).
    rewrite elem_of_with_edge_predecessors. intros [Hp | [-> [= ->]]]; [| done].
    by apply (Hl a n Ha).
Qed.

Lemma store_inv_without_edge h h' me oa :
  store_inv h →
  (∀ x, h' !! x = without_edge me oa x <$> h !! x) →
  store_inv h'.
Proof.
  intros (Hc & Hs & Hn & Hl) Hpt.
  pose proof (λ x, live_pointwise _ _ _ x Hpt) as Hlive.
  repeat split.
  - intros a n' p (n & Ha & ->)%(lookup_pointwise _ _ _ _ _ Hpt).
    rewrite elem_of_without_edge_predecessors, elem_of_without_edge_successors.
    intros [[Hp _] | [Hp _]]; destruct (Hc a n p Ha) as (b & -> & Hb); eauto.
  - destruct (lookup_pointwise _ _ _ _ _ Hpt H) as (n & Ha & ->).
    destruct (lookup_pointwise _ _ _ _ _ Hpt H0) as (n0 & Hb & ->).
    rewrite elem_of_without_edge_predecessors, elem_of_without_edge_successors.
    rewrite (Hs a b n n0 Ha Hb). naive_solver.
  - destruct (lookup_pointwise _ _ _ _ _ Hpt H) as (n & Ha & ->).
    destruct (lookup_pointwise _ _ _ _ _ Hpt H0) as (n0 & Hb & ->).
    rewrite elem_of_without_edge_predecessors, elem_of_without_edge_successors.
    rewrite (Hs a b n n0 Ha Hb). naive_solver.
  - destruct (lookup_pointwise _ _ _ _ _ Hpt H) as (n0 & Ha & ->).
    apply NoDup_without_edge, (Hn a n0 Ha).
  - destruct (lookup_pointwise _ _ _ _ _ Hpt H) as (n0 & Ha & ->).
    apply NoDup_without_edge, (Hn a n0 Ha).
  - intros a n' (n & Ha & ->)%(lookup_pointwise _ _ _ _ _ Hpt).
    rewrite elem_of_without_edge_predecessors. intros [Hp _].
    by apply (Hl a n Ha).
Qed.

(** ** ThreadGraph::erase *)

Lemma unlink_predecessors_lookup t preds h :
  NoDup preds →
  (∀ p, p ∈ preds → ∃ b, p = Some b ∧ is_Some (h !! b)) →
  ∃ h', unlink_predecessors t preds h = Some h' ∧
    ∀ b, h' !! b =
         if decide (Some b ∈ preds) then Task.remove_successor t <$> h !! b
         else h !! b.
Proof.
  revert h. induction preds as [| p preds IH]; intros h Hnd Hlive.
  - exists h. split; [done |]. intros b.
    destruct (decide (Some b ∈ [])) as [Hin | _]; [| done].
    by apply elem_of_nil in Hin.
  - apply NoDup_cons in Hnd as [Hp Hnd].
    destruct (Hlive p) as (a & -> & [n Hn]); [by left |].
    cbn [unlink_predecessors]. rewrite Hn.
    destruct (IH (<[a := Task.remove_successor t n]> h) Hnd) as (h' & Hun & Hlook).
    { intros q Hq. destruct (Hlive q) as (b & -> & Hb); [by right |].
      exists b. split; [done |]. rewrite lookup_insert.
      case_decide; eauto. }
    exists h'. split; [done |]. intros b. rewrite Hlook.
    destruct (decide (a = b)) as [<- | Hab].
    + rewrite decide_False by done. rewrite lookup_insert_eq, Hn.
      rewrite decide_True; [done | by left].
    + rewrite lookup_insert_ne by done.
      destruct (decide (Some b ∈ preds)) as [Hin | Hnin].
      * rewrite decide_True; [done | by right].
      * rewrite decide_False; [done |].
        intros [Heq | Hin]%elem_of_cons; [congruence | done].
Qed.

Lemma unlink_successors_lookup t succs h :
  NoDup succs →
  (∀ p, p ∈ succs → ∃ b, p = Some b ∧ is_Some (h !! b)) →
  ∃ h', unlink_successors t succs h = Some h' ∧
    ∀ b, h' !! b =
         if decide (Some b ∈ succs) then Task.remove_predecessor t <$> h !! b
         else h !! b.
Proof.
  revert h. induction succs as [| p succs IH]; intros h Hnd Hlive.
  - exists h. split; [done |]. intros b.
    destruct (decide (Some b ∈ [])) as [Hin | _]; [| done].
    by apply elem_of_nil in Hin.
  - apply NoDup_cons in Hnd as [Hp Hnd].
    destruct (Hlive p) as (a & -> & [n Hn]); [by left |].
    cbn [unlink_successors]. rewrite Hn.
    destruct (IH (<[a := Task.remove_predecessor t n]> h) Hnd) as (h' & Hun & Hlook).
    { intros q Hq. destruct (Hlive q) as (b & -> & Hb); [by right |].
      exists b. split; [done |]. rewrite lookup_insert.
      case_decide; eauto. }
    exists h'. split; [done |]. intros b. rewrite Hlook.
    destruct (decide (a = b)) as [<- | Hab].
    + rewrite decide_False by done. rewrite lookup_insert_eq, Hn.
      rewrite decide_True; [done | by left].
    + rewrite lookup_insert_ne by done.
      destruct (decide (Some b ∈ succs)) as [Hin | Hnin].
      * rewrite decide_True; [done | by right].
      * rewrite decide_False; [done |].
        intros [Heq | Hin]%elem_of_cons; [congruence | done].
Qed.

Lemma remove_successor_id t n :
  t ∉ _successors n → Task.remove_successor t n = n.
Proof.
  intros Hnin. unfold Task.remove_successor. rewrite erase_remove_id by done.
  by destruct n.
Qed.

Lemma remove_predecessor_id t n :
  t ∉ _predecessors n → Task.remove_predecessor t n = n.
Proof.
  intros Hnin. unfold Task.remove_predecessor. rewrite erase_remove_id by done.
  by destruct n.
Qed.

(** On a graph that keeps its invariant, [erase] of a node of the pool
    succeeds; every other node loses its edges to and from the erased one. *)
Lemma erase_returns (a : nat) (m : machine) :
  graph_inv m → executing m = false → Some a ∈ _task_pool m →
  ∃ n h',
    heap m !! a = Some n ∧
    erase (Some a) m
    = (with_task_pool (erase_first (Some a) (_task_pool m)) (with_heap h' m),
       nullptr, Returns true) ∧
    ∀ x, h' !! x = if decide (x = a) then None else without_node a <$> heap m !! x.
Proof.
  intros [(Hc & Hs & Hn & Hl) [Hpnd Hplive]] Hex Hin.
  destruct (Hplive _ Hin) as (a' & [= <-] & [n Ha]).
  destruct (Hn a n Ha) as [Hndp Hnds].
  destruct (unlink_predecessors_lookup (Some a) (_predecessors n) (heap m) Hndp)
    as (h1 & Hun1 & Hlook1).
  { intros p Hp. apply (Hc a n p Ha). by left. }
  assert (h1 !! a = Some n) as Ha1.
  { rewrite Hlook1. rewrite decide_False; [done |]. by apply (Hl a n). }
  destruct (unlink_successors_lookup (Some a) (_successors n) h1 Hnds)
    as (h2 & Hun2 & Hlook2).
  { intros p Hp. destruct (Hc a n p Ha) as (b & -> & [nb Hb]); [by right |].
    exists b. split; [done |]. rewrite Hlook1, Hb. case_decide; simpl; eauto. }
  exists n, (delete a h2). split; [done |]. split.
  - unfold erase. rewrite Hex. rewrite decide_True by done.
    rewrite Ha, Hun1, Ha1, Hun2. done.
  - intros x. destruct (decide (x = a)) as [-> | Hxa].
    + by rewrite lookup_delete_eq.
    + rewrite lookup_delete_ne by done. rewrite Hlook2, Hlook1.
      destruct (heap m !! x) as [nx |] eqn:Hx.
      2:{ repeat case_decide; done. }
      unfold without_node.
      destruct (decide (Some x ∈ _predecessors n)) as [Hxp | Hxp];
        destruct (decide (Some x ∈ _successors n)) as [Hxs | Hxs]; simpl.
      * done.
      * f_equal. rewrite (remove_predecessor_id (Some a)); [done |].
        simpl. intros Hin'. apply Hxs. by apply (Hs a x n nx Ha Hx).
      * f_equal. rewrite (remove_successor_id (Some a) nx); [done |].
        intros Hin'. apply Hxp. by apply (Hs x a nx n Hx Ha).
      * f_equal. rewrite (remove_successor_id (Some a) nx).
        -- rewrite remove_predecessor_id; [done |].
           intros Hin'. apply Hxs. by apply (Hs a x n nx Ha Hx).
        -- intros Hin'. apply Hxp. by apply (Hs x a nx n Hx Ha).
Qed.

Lemma elem_of_without_node_predecessors a n p :
  p ∈ _predecessors (without_node a n) ↔ p ∈ _predecessors n ∧ p ≠ Some a.
Proof. unfold without_node. simpl. apply elem_of_erase_remove. Qed.

Lemma elem_of_without_node_successors a n p :
  p ∈ _successors (without_node a n) ↔ p ∈ _successors n ∧ p ≠ Some a.
Proof. unfold without_node. simpl. apply elem_of_erase_remove. Qed.

Lemma lookup_without_node (h h' : store) a x n' :
  (∀ x, h' !! x = if decide (x = a) then None else without_node a <$> h !! x) →
  h' !! x = Some n' → x ≠ a ∧ ∃ n, h !! x = Some n ∧ n' = without_node a n.
Proof.
  intros Hpt. rewrite Hpt. case_decide; [done |].
  destruct (h !! x) as [n |]; [| done]. intros [= <-]. eauto.
Qed.

Lemma live_without_node (h h' : store) a x :
  (∀ x, h' !! x = if decide (x = a) then None else without_node a <$> h !! x) →
  x ≠ a → is_Some (h !! x) → is_Some (h' !! x).
Proof.
  intros Hpt Hne [n Hn]. rewrite Hpt, Hn. rewrite decide_False by done.
  simpl. eauto.
Qed.

Lemma store_inv_without_node h h' a :
  store_inv h →
  (∀ x, h' !! x = if decide (x = a) then None else without_node a <$> h !! x) →
  store_inv h'.
Proof.
  intros (Hc & Hs & Hn & Hl) Hpt. split; [| split; [| split]].
  - intros x n' p Hx Hp.
    destruct (lookup_without_node _ _ _ _ _ Hpt Hx) as (Hxa & n & Hn0 & ->).
    rewrite elem_of_without_node_predecessors, elem_of_without_node_successors in Hp.
    assert (p ∈ _predecessors n ∨ p ∈ _successors n) as Hp' by tauto.
    destruct (Hc x n p Hn0 Hp') as (b & -> & Hb).
    exists b. split; [done |].
    apply (live_without_node _ _ _ _ Hpt); [| done].
    intros ->. tauto.
  - intros x y nx' ny' Hx Hy.
    destruct (lookup_without_node _ _ _ _ _ Hpt Hx) as (Hxa & nx & Hnx & ->).
    destruct (lookup_without_node _ _ _ _ _ Hpt Hy) as (Hya & ny & Hny & ->).
    rewrite elem_of_without_node_predecessors, elem_of_without_node_successors.
    rewrite (Hs x y nx ny Hnx Hny). split; intros [H1 _]; (split; [done | congruence]).
  - intros x n' Hx.
    destruct (lookup_without_node _ _ _ _ _ Hpt Hx) as (Hxa & n & Hn0 & ->).
    destruct (Hn x n Hn0) as [Hp Hsu]. unfold without_node. simpl.
    split; by apply NoDup_erase_remove.
  - intros x n' Hx.
    destruct (lookup_without_node _ _ _ _ _ Hpt Hx) as (Hxa & n & Hn0 & ->).
    rewrite elem_of_without_node_predecessors. intros [Hin _].
    by apply (Hl x n Hn0).
Qed.

(** C8.  [erase(t)]: an empty handle gives [false]; a non-empty one throws
    RUNTIME_ERROR while the graph is executing; otherwise a node that is not in
    the pool gives [false]; in these cases the graph and the handle stay as
    they were.  Otherwise, on a graph that keeps its invariant, the call
    returns [true], the handle is nulled, the node leaves the pool and the store,
    and every former predecessor or successor is still there with the node
    absent from both its edge lists. *)
Theorem erase_spec (t : ptr) (m : machine) :
  (t = nullptr → erase t m = (m, nullptr, Returns false))
  ∧ (t ≠ nullptr → executing m = true →
     erase t m = (m, t, Throws (runtime_error msg_erase_executing)))
  ∧ (executing m = false → t ∉ _task_pool m → erase t m = (m, t, Returns false))
  ∧ (∀ a, t = Some a → graph_inv m → executing m = false → t ∈ _task_pool m →
     ∃ n m',
       heap m !! a = Some n ∧
       erase t m = (m', nullptr, Returns true) ∧
       t ∉ _task_pool m' ∧
       (∀ p, p ∈ _task_pool m' ↔ p ∈ _task_pool m ∧ p ≠ t) ∧
       heap m' !! a = None ∧
       (∀ b, Some b ∈ _predecessors n ∨ Some b ∈ _successors n →
          ∃ nb', heap m' !! b = Some nb' ∧
            t ∉ _predecessors nb' ∧ t ∉ _successors nb') ∧
       graph_inv m').
Proof.
  split; [by intros -> |]. split; [| split].
  - intros Hnn Hex. unfold erase. destruct t as [a |]; [| done]. by rewrite Hex.
  - intros Hex Hnin. unfold erase. destruct t as [a |]; [| done].
    rewrite Hex. by rewrite decide_False.
  - intros a -> Hinv Hex Hin.
    destruct (erase_returns a m Hinv Hex Hin) as (n & h' & Ha & Herase & Hlook).
    pose proof Hinv as [(Hc & Hs & Hn & Hl) [Hpnd Hplive]].
    exists n, (with_task_pool (erase_first (Some a) (_task_pool m)) (with_heap h' m)).
    split; [done |]. split; [done |]. simpl.
    assert (∀ p, p ∈ erase_first (Some a) (_task_pool m)
                 ↔ p ∈ _task_pool m ∧ p ≠ Some a) as Hpool
      by (intros p; by apply elem_of_erase_first).
    split; [rewrite Hpool; tauto |]. split; [done |].
    split; [rewrite Hlook; by rewrite decide_True |]. split.
    + intros b Hb.
      destruct (Hc a n (Some b) Ha Hb) as (b' & [= <-] & [nb Hnb]).
      assert (b ≠ a) as Hba.
      { intros ->. destruct Hb as [Hb | Hb]; [by apply (Hl a n Ha) |].
        apply (Hl a n Ha). by apply (Hs a a n n Ha Ha). }
      exists (without_node a nb). split.
      * rewrite Hlook, Hnb. by rewrite decide_False.
      * rewrite elem_of_without_node_predecessors, elem_of_without_node_successors.
        tauto.
    + split; [by apply (store_inv_without_node (heap m) h' a) |].
      split; [by apply NoDup_erase_first |].
      intros p [Hp Hne]%Hpool. simpl.
      destruct (Hplive p Hp) as (b & -> & Hb). exists b. split; [done |].
      apply (live_without_node _ _ _ _ Hlook); [congruence | done].
Qed.

(** ** The invariant under client calls *)

Lemma keeps_store_inv_depend this t : keeps_store_inv (Task.depend this t).
Proof.
  intros h h' o Hdep Hdef Hinv. destruct o as [[] | e | |]; try done.
  - destruct (depend_returns_lookup _ _ _ _ Hdep)
      as (me & tb & -> & -> & Hne & Hme & Htb & Hpt).
    split; [by eapply store_inv_with_edge |].
    intros x. by apply (live_pointwise _ _ _ _ Hpt).
  - apply depend_throws in Hdep as ->. done.
Qed.

Lemma keeps_store_inv_precede this t : keeps_store_inv (Task.precede this t).
Proof. apply keeps_store_inv_depend. Qed.

Lemma keeps_store_inv_erase_depend this other :
  keeps_store_inv (Task.erase_depend this other).
Proof.
  intros h h' o Herase Hdef Hinv. destruct o as [[] | e | |]; try done.
  - destruct (erase_depend_lookup _ _ _ _ Herase) as [-> | (me & oa & -> & -> & Hpt)];
      [done |].
    split; [by eapply store_inv_without_edge |].
    intros x. by apply (live_pointwise _ _ _ _ Hpt).
  - apply erase_depend_throws in Herase as ->. done.
Qed.

Lemma keeps_store_inv_erase_precede this other :
  keeps_store_inv (Task.erase_precede this other).
Proof.
  intros h h' o Herase Hdef Hinv. destruct o as [[] | e | |]; try done.
  - destruct (erase_precede_lookup _ _ _ _ Herase) as [-> | (me & oa & -> & -> & Hpt)];
      [done |].
    split; [by eapply store_inv_without_edge |].
    intros x. by apply (live_pointwise _ _ _ _ Hpt).
  - apply erase_precede_throws in Herase as ->. done.
Qed.

Lemma keeps_store_inv_depend_all this others :
  keeps_store_inv (Task.depend_all this others).
Proof.
  induction others as [| t others IH]; intros h h' o; cbn [Task.depend_all].
  - intros [= <- <-]. done.
  - destruct (Task.depend this t h) as [h1 o1] eqn:Hdep.
    pose proof (keeps_store_inv_depend this t h h1 o1 Hdep) as Hone.
    destruct o1 as [[] | e | |].
    + intros Hall Hdef Hinv. destruct (Hone eq_refl Hinv) as [Hinv1 Hlive1].
      destruct (IH h1 h' o Hall Hdef Hinv1) as [Hinv' Hlive'].
      split; [done |]. intros x Hx. by apply Hlive', Hlive1.
    + intros [= <- <-] _ Hinv. by apply Hone.
    + intros [= <- <-]. done.
    + intros [= <- <-]. done.
Qed.

Lemma keeps_store_inv_precede_all this others :
  keeps_store_inv (Task.precede_all this others).
Proof.
  induction others as [| t others IH]; intros h h' o; cbn [Task.precede_all].
  - intros [= <- <-]. done.
  - destruct (Task.precede this t h) as [h1 o1] eqn:Hdep.
    pose proof (keeps_store_inv_precede this t h h1 o1 Hdep) as Hone.
    destruct o1 as [[] | e | |].
    + intros Hall Hdef Hinv. destruct (Hone eq_refl Hinv) as [Hinv1 Hlive1].
      destruct (IH h1 h' o Hall Hdef Hinv1) as [Hinv' Hlive'].
      split; [done |]. intros x Hx. by apply Hlive', Hlive1.
    + intros [= <- <-] _ Hinv. by apply Hone.
    + intros [= <- <-]. done.
    + intros [= <- <-]. done.
Qed.

Lemma on_heap_inv f m m' :
  keeps_store_inv f → graph_inv m → on_heap f m = Some m' → graph_inv m'.
Proof.
  intros Hkeeps [Hstore [Hnd Hlive]]. unfold on_heap.
  destruct (f (heap m)) as [h o] eqn:Hf.
  destruct (defined o) eqn:Hdef; [| done]. intros [= <-].
  destruct (Hkeeps _ _ _ Hf Hdef Hstore) as [Hstore' Hlive'].
  split; [done |]. split; [done |].
  intros p Hp. destruct (Hlive p Hp) as (a & -> & Ha). eauto.
Qed.

(** A node fresh from its constructor joins the store. *)
Lemma graph_inv_new a m :
  heap m !! a = None → graph_inv m →
  graph_inv (with_heap (<[a := fresh_node]> (heap m)) m).
Proof.
  intros Hfree [(Hc & Hs & Hn & Hl) [Hnd Hlive]].
  assert (∀ x n, heap m !! x = Some n →
            Some a ∉ _predecessors n ∧ Some a ∉ _successors n) as Hnot.
  { intros x n Hx. split; intros Hin.
    - destruct (Hc x n (Some a) Hx) as (b & [= <-] & [nb Hb]); [by left | congruence].
    - destruct (Hc x n (Some a) Hx) as (b & [= <-] & [nb Hb]); [by right | congruence]. }
  assert (∀ x n', <[a := fresh_node]> (heap m) !! x = Some n' →
            (x = a ∧ n' = fresh_node) ∨ (x ≠ a ∧ heap m !! x = Some n')) as Hlook.
  { intros x n'. rewrite lookup_insert. case_decide; naive_solver. }
  assert (∀ x, is_Some (heap m !! x) → is_Some (<[a := fresh_node]> (heap m) !! x))
    as Hkeep.
  { intros x Hx. rewrite lookup_insert. case_decide; eauto. }
  split; [split; [| split; [| split]] | split]; simpl.
  - intros x n' p [[-> ->] | [Hxa Hx]]%Hlook.
    + simpl. intros [[]%elem_of_nil | []%elem_of_nil].
    + intros Hp. destruct (Hc x n' p Hx Hp) as (b & -> & Hb). eauto.
  - intros x y nx ny [[-> ->] | [Hxa Hx]]%Hlook [[-> ->] | [Hya Hy]]%Hlook; simpl.
    + done.
    + destruct (Hnot y ny Hy) as [Hp _].
      split; [by intros ?%elem_of_nil | done].
    + destruct (Hnot x nx Hx) as [_ Hsu].
      split; [done | by intros ?%elem_of_nil].
    + by apply Hs.
  - intros x n' [[-> ->] | [Hxa Hx]]%Hlook.
    + simpl. split; constructor.
    + by apply (Hn x).
  - intros x n' [[-> ->] | [Hxa Hx]]%Hlook.
    + simpl. by intros ?%elem_of_nil.
    + by apply (Hl x).
  - done.
  - intros p Hp. destruct (Hlive p Hp) as (b & -> & Hb). eauto.
Qed.

Lemma push_inv node m m' o :
  push node m = (m', o) → defined o = true → graph_inv m → graph_inv m'.
Proof.
  unfold push. destruct node as [a |]; [| by intros [= <- <-]].
  destruct (executing m); [by intros [= <- <-] |].
  destruct (heap m !! a) as [n |] eqn:Ha; [| by intros [= <- <-]].
  destruct (bool_decide (state n = IRunnable.Executing)
            || bool_decide (state n = IRunnable.Completed));
    [by intros [= <- <-] |].
  case_decide as Hin; [by intros [= <- <-] |].
  intros [= <- <-] _ [Hstore [Hnd Hlive]].
  split; [done |]. split; simpl.
  - apply NoDup_app. split; [done |]. split; [| apply NoDup_singleton].
    intros x Hx ->%list_elem_of_singleton. done.
  - intros p [Hp | ->%list_elem_of_singleton]%elem_of_app; [by apply Hlive |].
    exists a. eauto.
Qed.

Lemma erase_inv t m m' t' o :
  erase t m = (m', t', o) → defined o = true → graph_inv m → graph_inv m'.
Proof.
  intros Herase Hdef Hinv.
  destruct t as [a |]; [| by injection Herase as <- _ _].
  destruct (executing m) eqn:Hex.
  { unfold erase in Herase. rewrite Hex in Herase. by injection Herase as <- _ _. }
  destruct (decide (Some a ∈ _task_pool m)) as [Hin | Hnin].
  - destruct (erase_returns a m Hinv Hex Hin) as (n & h' & Ha & Heq & Hlook).
    rewrite Heq in Herase. injection Herase as <- _ _.
    destruct Hinv as [Hstore [Hpnd Hplive]].
    split; [by apply (store_inv_without_node (heap m) h' a) |].
    split; [by apply NoDup_erase_first |].
    intros p [Hp Hne]%elem_of_erase_first; [| done]. simpl.
    destruct (Hplive p Hp) as (b & -> & Hb). exists b. split; [done |].
    apply (live_without_node _ _ _ _ Hlook); [congruence | done].
  - unfold erase in Herase. rewrite Hex in Herase.
    rewrite decide_False in Herase by done. by injection Herase as <- _ _.
Qed.

Lemma client_step_inv c m m' :
  graph_inv m → client_step c m = Some m' → graph_inv m'.
Proof.
  intros Hinv. destruct c; cbn [client_step].
  - destruct (heap m !! a) eqn:Ha; [done |]. intros [= <-]. by apply graph_inv_new.
  - destruct (push node m) as [m1 o] eqn:Hpush.
    destruct (defined o) eqn:Hdef; [| done]. intros [= <-]. by eapply push_inv.
  - apply on_heap_inv; [apply keeps_store_inv_depend | done].
  - apply on_heap_inv; [apply keeps_store_inv_precede | done].
  - apply on_heap_inv; [apply keeps_store_inv_depend_all | done].
  - apply on_heap_inv; [apply keeps_store_inv_precede_all | done].
  - apply on_heap_inv; [apply keeps_store_inv_erase_depend | done].
  - apply on_heap_inv; [apply keeps_store_inv_erase_precede | done].
  - destruct (erase t m) as [[m1 t1] o] eqn:Herase.
    destruct (defined o) eqn:Hdef; [| done]. intros [= <-]. by eapply erase_inv.
Qed.

Lemma client_run_inv calls m m' :
  graph_inv m → client_run calls m = Some m' → graph_inv m'.
Proof.
  revert m. induction calls as [| c calls IH]; intros m Hinv; cbn [client_run].
  - by intros [= <-].
  - destruct (client_step c m) as [m1 |] eqn:Hstep; [| done].
    apply IH. by eapply client_step_inv.
Qed.

Lemma graph_inv_new_graph thread_count enable_optimized_threads :
  graph_inv (new_graph thread_count enable_optimized_threads).
Proof.
  split; [split; [| split; [| split]] | split]; simpl.
  - intros a n p Ha. by rewrite lookup_empty in Ha.
  - intros a b na nb Ha. by rewrite lookup_empty in Ha.
  - intros a n Ha. by rewrite lookup_empty in Ha.
  - intros a n Ha. by rewrite lookup_empty in Ha.
  - constructor.
  - by intros p ?%elem_of_nil.
Qed.

(** C6.  From a graph that keeps its invariant (a new graph does), any
    sequence of [new], [push], [depend], [precede], [erase_depend],
    [erase_precede] and [erase] calls, each returning or throwing, leads to a
    graph where for all nodes [a] and [b]: [b] is in [succ(a)] exactly when
    [a] is in [pred(b)], and neither edge list of a node has duplicates. *)
Theorem edge_symmetry_invariant (calls : list client_call) (m0 m : machine) :
  graph_inv m0 → client_run calls m0 = Some m →
  ∀ a b na nb, heap m !! a = Some na → heap m !! b = Some nb →
    (Some b ∈ _successors na ↔ Some a ∈ _predecessors nb)
    ∧ NoDup (_predecessors na) ∧ NoDup (_successors na).
Proof.
  intros Hinv Hrun.
  destruct (client_run_inv calls m0 m Hinv Hrun) as [(Hc & Hs & Hn & Hl) _].
  intros a b na nb Ha Hb. split; [by apply Hs |]. by apply (Hn a).
Qed.

Lemma edge_symmetry_invariant_witness :
  (Some 4 ∈ [Some 2; Some 3] ↔ Some 1 ∈ [Some 2; Some 3])
  ∧ NoDup ([] : list ptr) ∧ NoDup [Some 2; Some 3].
Proof.
  apply (edge_symmetry_invariant diamond_calls (new_graph 2 false) diamond)
    with (a := 1) (b := 4) (na := mkINode IRunnable.Ready [] [Some 2; Some 3])
         (nb := mkINode IRunnable.Ready [Some 2; Some 3] []).
  - apply graph_inv_new_graph.
  - vm_compute. reflexivity.
  - vm_compute. reflexivity.
  - vm_compute. reflexivity.
Defined.

Lemma graph_inv_diamond : graph_inv diamond.
Proof.
  apply (client_run_inv diamond_calls (new_graph 2 false));
    [apply graph_inv_new_graph | vm_compute; reflexivity].
Qed.

Lemma erase_spec_witness :
  erase nullptr diamond = (diamond, nullptr, Returns false)
  ∧ erase (Some 1) diamond_running
    = (diamond_running, Some 1, Throws (runtime_error msg_erase_executing))
  ∧ erase (Some 7) diamond = (diamond, Some 7, Returns false)
  ∧ ∃ n m',
      heap diamond !! 2 = Some n ∧
      erase (Some 2) diamond = (m', nullptr, Returns true) ∧
      Some 2 ∉ _task_pool m' ∧
      (∀ p, p ∈ _task_pool m' ↔ p ∈ _task_pool diamond ∧ p ≠ Some 2) ∧
      heap m' !! 2 = None ∧
      (∀ b, Some b ∈ _predecessors n ∨ Some b ∈ _successors n →
         ∃ nb', heap m' !! b = Some nb' ∧
           Some 2 ∉ _predecessors nb' ∧ Some 2 ∉ _successors nb') ∧
      graph_inv m'.
Proof.
  split; [| split; [| split]].
  - by apply (proj1 (erase_spec nullptr diamond)).
  - apply (proj1 (proj2 (erase_spec (Some 1) diamond_running))); [done |].
    vm_compute. reflexivity.
  - apply (proj1 (proj2 (proj2 (erase_spec (Some 7) diamond))));
      [vm_compute; reflexivity |].
    change (_task_pool diamond) with [Some 1; Some 2; Some 3; Some 4].
    intros Hin. repeat (apply elem_of_cons in Hin as [[=] | Hin]).
    by apply elem_of_nil in Hin.
  - apply (proj2 (proj2 (proj2 (erase_spec (Some 2) diamond))) 2 eq_refl
             graph_inv_diamond); [vm_compute; reflexivity |].
    change (_task_pool diamond) with [Some 1; Some 2; Some 3; Some 4].
    right. by left.
Defined.

(** * Further properties of the code *)

(** ** Task::depend, erase_depend, erase_precede *)

(** X1.  A [depend] that returns has appended [t] to the predecessors of [this]
    and [this] to the successors of [t], each only when [std::find] missed
    it, and has changed nothing else: no state, no other list, no other
    node. *)
Theorem depend_postcondition (this t : ptr) (h h' : store) :
  Task.depend this t h = (h', Returns ()) →
  ∃ me tb nme ntb,
    this = Some me ∧ t = Some tb ∧ me ≠ tb ∧
    h !! me = Some nme ∧ h !! tb = Some ntb ∧
    h' !! me = Some
      (mkINode (state nme)
         (if decide (t ∈ _predecessors nme) then _predecessors nme
          else _predecessors nme ++ [t])
         (_successors nme)) ∧
    h' !! tb = Some
      (mkINode (state ntb) (_predecessors ntb)
         (if decide (this ∈ _successors ntb) then _successors ntb
          else _successors ntb ++ [this])) ∧
    ∀ x, x ≠ me → x ≠ tb → h' !! x = h !! x.
Proof.
  intros (me & tb & nme & ntb & -> & -> & Hne & Hme & Htb & ->)%depend_returns.
  exists me, tb, nme, ntb. repeat split; try done.
  - rewrite lookup_insert_ne by done. rewrite lookup_insert_eq.
    unfold add_predecessor. case_decide; [by destruct nme | done].
  - rewrite lookup_insert_eq.
    unfold add_successor. case_decide; [by destruct ntb | done].
  - intros x Hxme Hxtb. by rewrite !lookup_insert_ne.
Qed.

Lemma depend_postcondition_witness :
  ∃ me tb nme ntb,
    Some 3 = Some me ∧ Some 2 = Some tb ∧ me ≠ tb ∧
    heap diamond !! me = Some nme ∧ heap diamond !! tb = Some ntb ∧
    (Task.depend (Some 3) (Some 2) (heap diamond)).1 !! me = Some
      (mkINode (state nme)
         (if decide (Some 2 ∈ _predecessors nme) then _predecessors nme
          else _predecessors nme ++ [Some 2])
         (_successors nme)) ∧
    (Task.depend (Some 3) (Some 2) (heap diamond)).1 !! tb = Some
      (mkINode (state ntb) (_predecessors ntb)
         (if decide (Some 3 ∈ _successors ntb) then _successors ntb
          else _successors ntb ++ [Some 3])) ∧
    ∀ x, x ≠ me → x ≠ tb →
      (Task.depend (Some 3) (Some 2) (heap diamond)).1 !! x = heap diamond !! x.
Proof.
  apply (depend_postcondition (Some 3) (Some 2) (heap diamond)).
  vm_compute. reflexivity.
Defined.

Lemma depend_returns_no_reverse (this t : ptr) (h h' : store) tb ntb :
  Task.depend this t h = (h', Returns ()) →
  t = Some tb → h !! tb = Some ntb → this ∉ _predecessors ntb.
Proof.
  unfold Task.depend. intros Hdep -> Htb. rewrite Htb in Hdep.
  repeat case_decide; done.
Qed.

(** X2.  Declaring the same dependency again changes nothing and does not throw. *)
Theorem depend_idempotent (this t : ptr) (h h' : store) :
  Task.depend this t h = (h', Returns ()) →
  Task.depend this t h' = (h', Returns ()).
Proof.
  intros Hdep.
  destruct (depend_returns _ _ _ _ Hdep)
    as (me & tb & nme & ntb & -> & -> & Hne & Hme & Htb & ->).
  pose proof (depend_returns_no_reverse _ _ _ _ tb ntb Hdep eq_refl Htb) as Hcyc.
  unfold Task.depend. rewrite decide_False by congruence.
  rewrite lookup_insert_eq. rewrite add_successor_predecessors.
  rewrite decide_False by done.
  rewrite lookup_insert_ne by done. rewrite lookup_insert_eq.
  rewrite decide_True by (apply elem_of_add_predecessor; by right).
  rewrite lookup_insert_eq.
  rewrite decide_True by (apply elem_of_add_successor; by right).
  done.
Qed.

Lemma depend_idempotent_witness :
  Task.depend (Some 2) (Some 1) (heap diamond) = (heap diamond, Returns ()).
Proof.
  apply (depend_idempotent (Some 2) (Some 1) (heap diamond) (heap diamond)).
  vm_compute. reflexivity.
Defined.

Lemma erase_remove_app_singleton (p : ptr) (v : list ptr) :
  p ∉ v → Task.erase_remove p (v ++ [p]) = v.
Proof.
  intros Hnin. unfold Task.erase_remove. rewrite filter_app.
  change (filter (λ q, q ≠ p) v) with (Task.erase_remove p v).
  rewrite erase_remove_id by done.
  rewrite filter_cons_False by (intros Hne; by apply Hne).
  by rewrite filter_nil, app_nil_r.
Qed.

(** X3.  [erase_depend] takes back a dependency that [depend] has just added:
    the store is again what it was before the two calls. *)
Theorem erase_depend_undoes_depend (this t : ptr) (h h' : store) :
  Task.depend this t h = (h', Returns ()) →
  (∀ n, deref h this = Some n → t ∉ _predecessors n) →
  (∀ n, deref h t = Some n → this ∉ _successors n) →
  Task.erase_depend this t h' = (h, Returns ()).
Proof.
  intros (me & tb & nme & ntb & -> & -> & Hne & Hme & Htb & ->)%depend_returns
    Hfresh1 Hfresh2.
  specialize (Hfresh1 nme Hme). specialize (Hfresh2 ntb Htb).
  unfold Task.erase_depend.
  rewrite lookup_insert_ne by done. rewrite lookup_insert_eq.
  rewrite lookup_insert_ne by done. rewrite lookup_insert_eq.
  f_equal. apply map_eq. intros x.
  unfold add_predecessor, add_successor.
  rewrite !decide_False by done.
  destruct (decide (x = tb)) as [-> | Hxtb].
  - rewrite lookup_insert_eq, Htb. f_equal.
    unfold Task.remove_successor, Task.push_back_successor. simpl.
    rewrite erase_remove_app_singleton by done. by destruct ntb.
  - rewrite lookup_insert_ne by done.
    destruct (decide (x = me)) as [-> | Hxme].
    + rewrite lookup_insert_eq, Hme. f_equal.
      unfold Task.remove_predecessor, Task.push_back_predecessor. simpl.
      rewrite erase_remove_app_singleton by done. by destruct nme.
    + by rewrite !lookup_insert_ne by done.
Qed.

Lemma erase_depend_undoes_depend_witness :
  Task.erase_depend (Some 3) (Some 2)
    (Task.depend (Some 3) (Some 2) (heap diamond)).1
  = (heap diamond, Returns ()).
Proof.
  apply (erase_depend_undoes_depend (Some 3) (Some 2) (heap diamond)).
  - vm_compute. reflexivity.
  - intros n Hn. vm_compute in Hn. injection Hn as <-.
    intros [[=] | []%elem_of_nil]%elem_of_cons.
  - intros n Hn. vm_compute in Hn. injection Hn as <-.
    intros [[=] | []%elem_of_nil]%elem_of_cons.
Defined.

(** X4.  [a.erase_precede(b)] does what [b.erase_depend(a)] does. *)
Theorem erase_precede_mirror (me oa : nat) (h : store) :
  is_Some (h !! me) → is_Some (h !! oa) →
  Task.erase_precede (Some me) (Some oa) h
  = Task.erase_depend (Some oa) (Some me) h.
Proof.
  intros [nme Hme] [noa Hoa]. unfold Task.erase_precede, Task.erase_depend.
  rewrite Hme, Hoa.
  destruct (decide (me = oa)) as [-> | Hne].
  - rewrite !lookup_insert_eq. rewrite !insert_insert_eq.
    assert (nme = noa) as -> by congruence. done.
  - rewrite !lookup_insert_ne by done. rewrite Hme, Hoa.
    f_equal. by apply insert_insert_ne.
Qed.

Lemma erase_precede_mirror_witness :
  Task.erase_precede (Some 1) (Some 2) (heap diamond)
  = Task.erase_depend (Some 2) (Some 1) (heap diamond).
Proof.
  apply (erase_precede_mirror 1 2 (heap diamond)); vm_compute; eauto.
Defined.

(** X5.  [erase_depend] on an empty handle, or for an edge that is not there,
    returns without touching the store; it never throws. *)
Theorem erase_depend_no_edge (this other : ptr) (h : store) :
  (this = nullptr ∨ other = nullptr →
     Task.erase_depend this other h = (h, Returns ()))
  ∧ (∀ nme no, deref h this = Some nme → deref h other = Some no →
       other ∉ _predecessors nme → this ∉ _successors no →
       Task.erase_depend this other h = (h, Returns ()))
  ∧ (∀ h' e, Task.erase_depend this other h ≠ (h', Throws e)).
Proof.
  split; [| split].
  - intros [-> | ->]; [done |]. by destruct this.
  - intros nme no Hme Ho Hp Hs.
    destruct this as [me |]; [| done]. destruct other as [oa |]; [| done].
    simpl in Hme, Ho. unfold Task.erase_depend. rewrite Hme.
    rewrite (remove_predecessor_id _ _ Hp). rewrite (insert_id h me nme Hme).
    rewrite Ho. rewrite (remove_successor_id _ _ Hs). by rewrite insert_id.
  - intros h' e. unfold Task.erase_depend. repeat case_match; done.
Qed.

Lemma erase_depend_no_edge_witness :
  Task.erase_depend (Some 4) (Some 1) (heap diamond) = (heap diamond, Returns ()).
Proof.
  apply (proj1 (proj2 (erase_depend_no_edge (Some 4) (Some 1) (heap diamond)))
           (mkINode IRunnable.Ready [Some 2; Some 3] [])
           (mkINode IRunnable.Ready [] [Some 2; Some 3])).
  - vm_compute. reflexivity.
  - vm_compute. reflexivity.
  - simpl. intros [[=] | [[=] | []%elem_of_nil]%elem_of_cons]%elem_of_cons.
  - simpl. intros [[=] | [[=] | []%elem_of_nil]%elem_of_cons]%elem_of_cons.
Defined.

(** [depend] on a vector of handles runs left to right and stops at the first
    call that does not return: over [ts1 ++ ts2] it is [ts1] followed by
    [ts2]. *)
Lemma depend_all_app (this : ptr) (ts1 ts2 : list ptr) (h : store) :
  Task.depend_all this (ts1 ++ ts2) h =
  match Task.depend_all this ts1 h with
  | (h1, Returns _) => Task.depend_all this ts2 h1
  | failed => failed
  end.
Proof.
  revert h. induction ts1 as [| t ts1 IH]; intros h; [done |].
  cbn [app Task.depend_all].
  destruct (Task.depend this t h) as [h1 [[] | e | |]];
    [apply IH | done | done | done].
Qed.

Lemma depend_keeps_edges (this t : ptr) (h h' : store) x n :
  Task.depend this t h = (h', Returns ()) →
  h !! x = Some n →
  ∃ n', h' !! x = Some n' ∧
    (∀ p, p ∈ _predecessors n → p ∈ _predecessors n') ∧
    (∀ p, p ∈ _successors n → p ∈ _successors n').
Proof.
  intros (me & tb & -> & -> & _ & _ & _ & Hlook)%depend_returns_lookup Hx.
  exists (with_edge me tb x n). rewrite Hlook, Hx. split; [done |].
  split; intros p Hp.
  - apply elem_of_with_edge_predecessors. by left.
  - apply elem_of_with_edge_successors. by left.
Qed.

Lemma depend_all_keeps_edges (this : ptr) (ts : list ptr) :
  ∀ h h1 x n,
    Task.depend_all this ts h = (h1, Returns ()) →
    h !! x = Some n →
    ∃ n', h1 !! x = Some n' ∧
      (∀ p, p ∈ _predecessors n → p ∈ _predecessors n') ∧
      (∀ p, p ∈ _successors n → p ∈ _successors n').
Proof.
  induction ts as [| t ts IH]; intros h h1 x n; cbn [Task.depend_all].
  - intros [= <-] Hx. eauto.
  - destruct (Task.depend this t h) as [h' [[] | e | |]] eqn:Hdep; try done.
    intros Hrest Hx.
    destruct (depend_keeps_edges _ _ _ _ x n Hdep Hx) as (n' & Hx' & Hp' & Hs').
    destruct (IH h' h1 x n' Hrest Hx') as (n1 & Hx1 & Hp1 & Hs1).
    exists n1. split; [done |]. split; auto.
Qed.

(** Every dependency of a vector call that returns is in place, on both
    sides. *)
Lemma depend_all_edges (this : ptr) (ts : list ptr) :
  ∀ h h1,
    Task.depend_all this ts h = (h1, Returns ()) →
    ∀ t, t ∈ ts →
      ∃ n1 nt, deref h1 this = Some n1 ∧ t ∈ _predecessors n1 ∧
               deref h1 t = Some nt ∧ this ∈ _successors nt.
Proof.
  induction ts as [| t0 ts IH]; intros h h1; cbn [Task.depend_all].
  - intros _ t Hin. by apply elem_of_nil in Hin.
  - destruct (Task.depend this t0 h) as [h' [[] | e | |]] eqn:Hdep; try done.
    intros Hrest t [-> | Hin]%elem_of_cons; [| by eapply IH].
    destruct (depend_returns_lookup _ _ _ _ Hdep)
      as (me & tb & -> & -> & Hne & [nme Hme] & [ntb Htb] & Hlook).
    destruct (depend_all_keeps_edges _ _ _ _ me (with_edge me tb me nme) Hrest)
      as (n1 & Hn1 & Hp1 & _); [by rewrite Hlook, Hme |].
    destruct (depend_all_keeps_edges _ _ _ _ tb (with_edge me tb tb ntb) Hrest)
      as (nt & Hnt & _ & Hs1); [by rewrite Hlook, Htb |].
    exists n1, nt. simpl. split; [done |]. split.
    { apply Hp1. apply elem_of_with_edge_predecessors. by right. }
    split; [done |].
    apply Hs1. apply elem_of_with_edge_successors. by right.
Qed.

(** X6.  A vector call is not atomic: when the handle at the end is rejected,
    the call throws and the store is the one the dependencies before it have
    made, with each of these dependencies in place on both sides. *)
Theorem depend_all_keeps_prefix (this : ptr) (ts : list ptr) (bad : ptr)
    (h h1 h2 : store) (e : exception) :
  Task.depend_all this ts h = (h1, Returns ()) →
  Task.depend this bad h1 = (h2, Throws e) →
  Task.depend_all this (ts ++ [bad]) h = (h1, Throws e) ∧
  ∀ t, t ∈ ts →
    ∃ n1 nt, deref h1 this = Some n1 ∧ t ∈ _predecessors n1 ∧
             deref h1 t = Some nt ∧ this ∈ _successors nt.
Proof.
  intros Hts Hbad. split.
  - rewrite depend_all_app, Hts. cbn [Task.depend_all].
    rewrite Hbad. by apply depend_throws in Hbad as ->.
  - by eapply depend_all_edges.
Qed.

Lemma depend_all_keeps_prefix_witness :
  (Task.depend_all (Some 4) ([Some 1] ++ [nullptr]) (heap diamond)
   = (diamond_shortcut, Throws (invalid_argument Task.msg_task_not_valid)) ∧
   ∀ t, t ∈ [Some 1] →
     ∃ n1 nt, deref diamond_shortcut (Some 4) = Some n1 ∧ t ∈ _predecessors n1 ∧
              deref diamond_shortcut t = Some nt ∧ Some 4 ∈ _successors nt)
  ∧ diamond_shortcut ≠ heap diamond.
Proof.
  split.
  - apply (depend_all_keeps_prefix (Some 4) [Some 1] nullptr (heap diamond)
             diamond_shortcut diamond_shortcut).
    + vm_compute. reflexivity.
    + vm_compute. reflexivity.
  - intros Heq.
    assert (diamond_shortcut !! 4 = heap diamond !! 4) as Hfour by (by rewrite Heq).
    vm_compute in Hfour. discriminate.
Defined.

(** ** Task::reset_state, predecessor_at, successor_at *)

(** X7.  [reset_state] on a valid handle makes [state()] READY and leaves the
    edges of every node, and the state of every other node, alone. *)
Theorem reset_state_spec (a : nat) (n : INode) (h : store) :
  h !! a = Some n →
  ∃ h', Task.reset_state (Some a) h = (h', Returns ()) ∧
    Task.state (Some a) h' = Returns Task.READY ∧
    h' !! a = Some (mkINode IRunnable.Ready (_predecessors n) (_successors n)) ∧
    ∀ x, x ≠ a → h' !! x = h !! x.
Proof.
  intros Ha. exists (set_state a IRunnable.Ready h).
  unfold Task.reset_state, Task.state. rewrite Ha. split; [done |].
  simpl. rewrite !lookup_set_state. rewrite decide_True by done. rewrite Ha.
  simpl. repeat split. intros x Hx. rewrite lookup_set_state.
  by rewrite decide_False.
Qed.

Lemma reset_state_spec_witness :
  ∃ h', Task.reset_state (Some 4) (heap diamond_running) = (h', Returns ()) ∧
    Task.state (Some 4) h' = Returns Task.READY ∧
    h' !! 4 = Some (mkINode IRunnable.Ready [Some 2; Some 3] []) ∧
    ∀ x, x ≠ 4 → h' !! x = heap diamond_running !! x.
Proof.
  apply (reset_state_spec 4 (mkINode IRunnable.Executing [Some 2; Some 3] [])
           (heap diamond_running)).
  vm_compute. reflexivity.
Defined.

(** X8.  [predecessor_at] and [successor_at] are bounds-checked: inside the
    vector they give the handle stored there, past its end they throw (and
    do not read out of bounds). *)
Theorem edge_at_bounds (range_message : nat → nat → string) (a : nat) (n : INode)
    (index : nat) (h : store) :
  h !! a = Some n →
  (∀ p, _predecessors n !! index = Some p →
     predecessor_at range_message (Some a) index h = Returns p)
  ∧ (length (_predecessors n) ≤ index →
     ∃ w, predecessor_at range_message (Some a) index h = Throws (std_exception w))
  ∧ (∀ p, _successors n !! index = Some p →
     successor_at range_message (Some a) index h = Returns p)
  ∧ (length (_successors n) ≤ index →
     ∃ w, successor_at range_message (Some a) index h = Throws (std_exception w)).
Proof.
  intros Ha. unfold predecessor_at, successor_at. simpl. rewrite Ha.
  repeat split.
  - by intros p ->.
  - intros Hle. apply lookup_ge_None in Hle. rewrite Hle. eauto.
  - by intros p ->.
  - intros Hle. apply lookup_ge_None in Hle. rewrite Hle. eauto.
Qed.

Lemma edge_at_bounds_witness :
  predecessor_at (λ _ _, EmptyString) (Some 4) 1 (heap diamond) = Returns (Some 3)
  ∧ (∃ w, predecessor_at (λ _ _, EmptyString) (Some 4) 2 (heap diamond)
          = Throws (std_exception w))
  ∧ successor_at (λ _ _, EmptyString) (Some 1) 0 (heap diamond) = Returns (Some 2)
  ∧ (∃ w, successor_at (λ _ _, EmptyString) (Some 4) 0 (heap diamond)
          = Throws (std_exception w)).
Proof.
  assert (heap diamond !! 4 = Some (mkINode IRunnable.Ready [Some 2; Some 3] []))
    as H4 by (vm_compute; reflexivity).
  assert (heap diamond !! 1 = Some (mkINode IRunnable.Ready [] [Some 2; Some 3]))
    as H1 by (vm_compute; reflexivity).
  split; [| split; [| split]].
  - by apply (proj1 (edge_at_bounds (λ _ _, EmptyString) 4 _ 1 (heap diamond) H4)).
  - apply (proj1 (proj2 (edge_at_bounds (λ _ _, EmptyString) 4 _ 2 (heap diamond) H4))).
    simpl. lia.
  - by apply (proj1 (proj2 (proj2
             (edge_at_bounds (λ _ _, EmptyString) 1 _ 0 (heap diamond) H1)))).
  - apply (proj2 (proj2 (proj2
             (edge_at_bounds (λ _ _, EmptyString) 4 _ 0 (heap diamond) H4)))).
    simpl. lia.
Defined.

(** X9.  The newest dependency is the last one: after a [depend] that added an
    edge, [predecessor_at] and [successor_at] find the two handles at the
    former sizes of the two vectors. *)
Theorem depend_appends_last (range_message : nat → nat → string)
    (this t : ptr) (nme ntb : INode) (h h' : store) :
  Task.depend this t h = (h', Returns ()) →
  deref h this = Some nme → deref h t = Some ntb →
  t ∉ _predecessors nme → this ∉ _successors ntb →
  predecessor_at range_message this (length (_predecessors nme)) h' = Returns t
  ∧ successor_at range_message t (length (_successors ntb)) h' = Returns this.
Proof.
  intros Hdep Hme Htb Hp Hs.
  destruct (depend_returns _ _ _ _ Hdep)
    as (me & tb & nme0 & ntb0 & -> & -> & Hne & Hme0 & Htb0 & ->).
  simpl in Hme, Htb. rewrite Hme in Hme0. rewrite Htb in Htb0.
  injection Hme0 as <-. injection Htb0 as <-.
  unfold predecessor_at, successor_at. simpl.
  rewrite lookup_insert_eq. rewrite lookup_insert_ne by done.
  rewrite lookup_insert_eq.
  unfold add_predecessor, add_successor. rewrite !decide_False by done. simpl.
  rewrite !lookup_app_r by lia. by rewrite !Nat.sub_diag.
Qed.

Lemma depend_appends_last_witness :
  predecessor_at (λ _ _, EmptyString) (Some 3) 1
    (Task.depend (Some 3) (Some 2) (heap diamond)).1 = Returns (Some 2)
  ∧ successor_at (λ _ _, EmptyString) (Some 2) 1
      (Task.depend (Some 3) (Some 2) (heap diamond)).1 = Returns (Some 3).
Proof.
  apply (depend_appends_last (λ _ _, EmptyString) (Some 3) (Some 2)
           (mkINode IRunnable.Ready [Some 1] [Some 4])
           (mkINode IRunnable.Ready [Some 1] [Some 4]) (heap diamond)).
  - vm_compute. reflexivity.
  - vm_compute. reflexivity.
  - vm_compute. reflexivity.
  - simpl. intros [[=] | []%elem_of_nil]%elem_of_cons.
  - simpl. intros [[=] | []%elem_of_nil]%elem_of_cons.
Defined.

(** ** TaskIterator *)

Lemma iterator_eq_same owner k i j :
  iterator_eq (Task.into owner k i) (Task.into owner k j)
  = Returns (bool_decide (i = j)).
Proof. unfold iterator_eq. rewrite decide_True by done. by destruct k. Qed.

Lemma traverse_unfold fuel h it last :
  traverse (S fuel) h it last =
  and_then (iterator_eq it last)
    (λ at_end,
      if at_end then Returns []
      else
        and_then (iterator_deref it h)
          (λ p,
            and_then (iterator_next it h)
              (λ it',
                and_then (traverse fuel h it' last)
                  (λ rest, Returns (p :: rest))))).
Proof. reflexivity. Qed.

Lemma traverse_from (h : store) (a : nat) (k : Task.edge_kind) (v : list ptr) :
  iterator_vector h (Task.into a k 0) = Some v →
  ∀ steps i, i + steps = length v →
    traverse (S steps) h (Task.into a k i) (Task.into a k (length v))
    = Returns (drop i v).
Proof.
  intros Hv. assert (∀ i, iterator_vector h (Task.into a k i) = Some v) as Hvi.
  { intros i. exact Hv. }
  induction steps as [| steps IH]; intros i Hi.
  - assert (i = length v) as -> by lia.
    rewrite traverse_unfold, iterator_eq_same.
    rewrite bool_decide_eq_true_2 by done.
    simpl. by rewrite drop_all.
  - assert (i < length v) as Hlt by lia.
    destruct (lookup_lt_is_Some_2 v i Hlt) as [p Hp].
    rewrite traverse_unfold, iterator_eq_same.
    rewrite bool_decide_eq_false_2 by lia. cbn [and_then].
    unfold iterator_deref, iterator_next. rewrite Hvi, Hp.
    rewrite decide_True by done. cbn [and_then].
    rewrite (IH (S i)) by lia. cbn [and_then].
    by rewrite (drop_S v p i Hp).
Qed.

(** X10.  Walking from [begin_predecessors()] to [end_predecessors()] visits the
    predecessors in the order of the vector, each once, and ends; likewise
    for the successors.  On an empty handle the two ends are equal, so the
    walk visits nothing (and dereferences nothing). *)
Theorem traverse_edges (h : store) :
  (∀ a n, h !! a = Some n →
     ∃ first last,
       Task.begin_predecessors (Some a) h = Returns first ∧
       Task.end_predecessors (Some a) h = Returns last ∧
       traverse (S (length (_predecessors n))) h first last
       = Returns (_predecessors n))
  ∧ (∀ a n, h !! a = Some n →
     ∃ first last,
       Task.begin_successors (Some a) h = Returns first ∧
       Task.end_successors (Some a) h = Returns last ∧
       traverse (S (length (_successors n))) h first last
       = Returns (_successors n))
  ∧ (∃ first last,
       Task.begin_predecessors nullptr h = Returns first ∧
       Task.end_predecessors nullptr h = Returns last ∧
       traverse 1 h first last = Returns []).
Proof.
  split; [| split].
  - intros a n Ha. eexists _, _.
    unfold Task.begin_predecessors, Task.end_predecessors. rewrite Ha.
    split; [done |]. split; [done |].
    rewrite (traverse_from h a Task.Predecessors (_predecessors n)); [done | | lia].
    simpl. by rewrite Ha.
  - intros a n Ha. eexists _, _.
    unfold Task.begin_successors, Task.end_successors. rewrite Ha.
    split; [done |]. split; [done |].
    rewrite (traverse_from h a Task.Successors (_successors n)); [done | | lia].
    simpl. by rewrite Ha.
  - by eexists _, _.
Qed.

Lemma traverse_edges_witness :
  ∃ first last,
    Task.begin_predecessors (Some 4) (heap diamond) = Returns first ∧
    Task.end_predecessors (Some 4) (heap diamond) = Returns last ∧
    traverse 3 (heap diamond) first last = Returns [Some 2; Some 3].
Proof.
  apply (proj1 (traverse_edges (heap diamond)) 4
           (mkINode IRunnable.Ready [Some 2; Some 3] [])).
  vm_compute. reflexivity.
Defined.

(** ** ThreadGraph: push, task_at, start, wait, terminate, clear *)

(** X11.  A [push] that returns puts the node at the end of the pool: the size
    grows by one, [task_at] at the old size gives the handle returned, and the
    handles at the smaller indexes are the ones from before. *)
Theorem push_task_at (node : ptr) (m m' : machine) (t : ptr) :
  push node m = (m', Returns t) →
  t = node ∧
  task_size m' = S (task_size m) ∧
  task_at (task_size m) m' = Returns t ∧
  graph_empty m' = false ∧
  (∀ i, i < task_size m → task_at i m' = task_at i m) ∧
  heap m' = heap m.
Proof.
  unfold push. destruct node as [a |]; [| done].
  destruct (executing m); [done |].
  destruct (heap m !! a) as [n |]; [| done].
  destruct (bool_decide (state n = IRunnable.Executing)
            || bool_decide (state n = IRunnable.Completed)); [done |].
  case_decide; [done |]. intros [= <- <-].
  unfold task_size, task_at, graph_empty. simpl.
  split; [done |]. split; [rewrite length_app; simpl; lia |].
  split; [by rewrite lookup_app_r, Nat.sub_diag by lia |].
  split; [apply bool_decide_eq_false_2; by destruct (_task_pool m) |].
  split; [| done]. intros i Hi. by rewrite lookup_app_l.
Qed.

Lemma push_task_at_witness :
  Some 2 = Some 2 ∧
  task_size (push (Some 2) (with_task_pool [Some 1] pair_graph)).1
  = S (task_size (with_task_pool [Some 1] pair_graph)) ∧
  task_at (task_size (with_task_pool [Some 1] pair_graph))
    (push (Some 2) (with_task_pool [Some 1] pair_graph)).1 = Returns (Some 2) ∧
  graph_empty (push (Some 2) (with_task_pool [Some 1] pair_graph)).1 = false ∧
  (∀ i, i < task_size (with_task_pool [Some 1] pair_graph) →
     task_at i (push (Some 2) (with_task_pool [Some 1] pair_graph)).1
     = task_at i (with_task_pool [Some 1] pair_graph)) ∧
  heap (push (Some 2) (with_task_pool [Some 1] pair_graph)).1
  = heap (with_task_pool [Some 1] pair_graph).
Proof.
  apply (push_task_at (Some 2) (with_task_pool [Some 1] pair_graph)).
  vm_compute. reflexivity.
Defined.

(** X12.  The callable overload allocates before it checks: on an executing graph
    it throws RUNTIME_ERROR and the node just allocated stays in the store,
    owned by nobody; otherwise it returns a handle to the new node, now last
    in the pool. *)
Theorem push_callable_spec (a : nat) (m : machine) :
  heap m !! a = None → Some a ∉ _task_pool m →
  (executing m = true →
     ∃ m', push_callable a m = (m', Throws (runtime_error msg_push_executing)) ∧
       heap m' !! a = Some fresh_node ∧ _task_pool m' = _task_pool m)
  ∧ (executing m = false →
     ∃ m', push_callable a m = (m', Returns (Some a)) ∧
       heap m' !! a = Some fresh_node ∧ _task_pool m' = _task_pool m ++ [Some a]).
Proof.
  intros Hfree Hnin. unfold push_callable, push, executing. simpl. split.
  - intros ->. eexists. split; [done |]. simpl. by rewrite lookup_insert_eq.
  - intros ->. rewrite lookup_insert_eq. simpl.
    rewrite decide_False by done. eexists. split; [done |]. simpl.
    by rewrite lookup_insert_eq.
Qed.

Lemma push_callable_spec_witness :
  (∃ m', push_callable 9 diamond_running
         = (m', Throws (runtime_error msg_push_executing)) ∧
     heap m' !! 9 = Some fresh_node ∧ _task_pool m' = _task_pool diamond_running)
  ∧ (∃ m', push_callable 9 diamond = (m', Returns (Some 9)) ∧
       heap m' !! 9 = Some fresh_node ∧ _task_pool m' = _task_pool diamond ++ [Some 9]).
Proof.
  assert (Some 9 ∉ [Some 1; Some 2; Some 3; Some 4]) as Hnin.
  { intros Hin. repeat (apply elem_of_cons in Hin as [[=] | Hin]).
    by apply elem_of_nil in Hin. }
  split.
  - apply (proj1 (push_callable_spec 9 diamond_running
                    ltac:(vm_compute; reflexivity) Hnin)).
    vm_compute. reflexivity.
  - apply (proj2 (push_callable_spec 9 diamond
                    ltac:(vm_compute; reflexivity) Hnin)).
    vm_compute. reflexivity.
Defined.

Lemma reset_all_tasks_state_returns pool h :
  (∀ p, p ∈ pool → ∃ a, p = Some a ∧ is_Some (h !! a)) →
  ∃ h', reset_all_tasks_state pool h = Some h'.
Proof.
  revert h. induction pool as [| t pool IH]; intros h Hlive; [by exists h |].
  destruct (Hlive t) as (a & -> & [n Ha]); [by left |].
  cbn [reset_all_tasks_state deref]. rewrite Ha. apply IH.
  intros p Hp. destruct (Hlive p) as (b & -> & Hb); [by right |].
  exists b. split; [done |]. rewrite lookup_set_state.
  case_decide; [| done]. destruct Hb as [nb ->]. simpl. eauto.
Qed.

(** X13.  [start]: on an executing graph it throws RUNTIME_ERROR and changes
    nothing.  On an idle graph with a well-formed pool it returns with the
    graph executing, the termination flag down, the ready-cache a copy of the
    pool, every node of the pool READY and no edge changed, and with as many
    fresh workers as configured: [_thread_count], or with optimized threads
    the smaller of [_thread_count] and the (32-bit) size of the pool. *)
Theorem start_spec (m : machine) :
  (executing m = true →
     start m = (m, Throws (runtime_error msg_start_executing)))
  ∧ (executing m = false → _worker_contexts m = [] → pool_wf m →
     ∃ m', start m = (m', Returns ()) ∧
       executing m' = true ∧ _termination_flag m' = false ∧
       _ready_tasks_cache m' = _task_pool m ∧ _task_pool m' = _task_pool m ∧
       _worker_contexts m' =
         replicate
           (N.to_nat
              (if _enable_optimized_threads m
               then N.min (_thread_count m)
                      (N.of_nat (length (_task_pool m)) mod 2 ^ 32)%N
               else _thread_count m))
           (Some new_worker_context) ∧
       same_edges (heap m) (heap m') ∧
       ∀ a n, Some a ∈ _task_pool m → heap m' !! a = Some n →
         state n = IRunnable.Ready).
Proof.
  split.
  - intros Hex. unfold start. by rewrite Hex.
  - intros Hex Hctx [_ Hlive].
    destruct (reset_all_tasks_state_returns (_task_pool m) (heap m) Hlive)
      as [h' Hreset].
    assert (wait m = (reset m, WaitReturns)) as Hwait.
    { unfold wait. rewrite Hctx. simpl. done. }
    eexists. split.
    + unfold start. rewrite Hex, Hwait. simpl. rewrite Hreset. reflexivity.
    + simpl. unfold create_worker. simpl. repeat split.
      * intros a. rewrite (reset_all_tasks_state_lookup _ _ _ a Hreset).
        case_decide; [| done]. by destruct (heap m !! a).
      * intros a n Ha. rewrite (reset_all_tasks_state_lookup _ _ _ a Hreset).
        rewrite decide_True by done.
        destruct (heap m !! a); simpl; [| done]. by intros [= <-].
Qed.

Lemma start_spec_witness :
  start diamond_running
    = (diamond_running, Throws (runtime_error msg_start_executing))
  ∧ ∃ m', start diamond = (m', Returns ()) ∧
      executing m' = true ∧ _termination_flag m' = false ∧
      _ready_tasks_cache m' = _task_pool diamond ∧
      _task_pool m' = _task_pool diamond ∧
      _worker_contexts m' =
        replicate
          (N.to_nat
             (if _enable_optimized_threads diamond
              then N.min (_thread_count diamond)
                     (N.of_nat (length (_task_pool diamond)) mod 2 ^ 32)%N
              else _thread_count diamond))
          (Some new_worker_context) ∧
      same_edges (heap diamond) (heap m') ∧
      ∀ a n, Some a ∈ _task_pool diamond → heap m' !! a = Some n →
        state n = IRunnable.Ready.
Proof.
  split.
  - apply (proj1 (start_spec diamond_running)). vm_compute. reflexivity.
  - apply (proj2 (start_spec diamond)).
    + vm_compute. reflexivity.
    + vm_compute. reflexivity.
    + apply graph_inv_diamond.
Defined.

Lemma collect_futures_length contexts exception_msg :
  length (collect_futures contexts exception_msg).1 = length contexts.
Proof.
  revert exception_msg. induction contexts as [| c contexts IH];
    intros exception_msg; [done |].
  cbn [collect_futures]. destruct c as [c |].
  2:{ specialize (IH exception_msg).
      destruct (collect_futures contexts exception_msg). simpl in *. by rewrite IH. }
  destruct (negb (future_valid c)).
  { specialize (IH exception_msg).
    destruct (collect_futures contexts exception_msg). simpl in *. by rewrite IH. }
  destruct (_done c) as [| | e]; [done | |].
  - specialize (IH exception_msg).
    destruct (collect_futures contexts exception_msg). simpl in *. by rewrite IH.
  - destruct (what_of e) as [w |]; [| done].
    specialize (IH (exception_msg +:+ w +:+ newline)).
    destruct (collect_futures contexts (exception_msg +:+ w +:+ newline)).
    simpl in *. by rewrite IH.
Qed.

(** X14.  [wait] settles the graph whenever it returns or throws its own
    [runtime_error]: the graph is reset (not executing, termination flag down,
    cache and worker contexts empty) with nodes and pool untouched, and a
    second [wait] returns at once without throwing.  When an exception without
    a message escapes instead, nothing is reset: the executing flag and the
    worker contexts stay. *)
Theorem wait_settles (m : machine) :
  match (wait m).2 with
  | WaitReturns => (wait m).1 = reset m
  | WaitThrows e =>
      match what_of e with
      | Some _ => (wait m).1 = reset m
      | None =>
          _executing_flag (wait m).1 = _executing_flag m ∧
          _termination_flag (wait m).1 = _termination_flag m ∧
          length (_worker_contexts (wait m).1) = length (_worker_contexts m)
      end
  | WaitBlocks => True
  end
  ∧ wait (reset m) = (reset m, WaitReturns)
  ∧ heap (wait m).1 = heap m ∧ _task_pool (wait m).1 = _task_pool m.
Proof.
  split; [| split; [done |]; split; [apply heap_wait | apply task_pool_wait]].
  pose proof (collect_futures_length (_worker_contexts m) EmptyString) as Hlen.
  unfold wait.
  destruct (collect_futures (_worker_contexts m) EmptyString) as [cs [s | e |]] eqn:Hc;
    simpl in *.
  - case_decide; simpl; done.
  - assert (what_of e = None) as ->; [| done].
    clear Hlen. revert cs Hc. generalize EmptyString.
    induction (_worker_contexts m) as [| c contexts IH]; intros msg cs; [done |].
    cbn [collect_futures]. destruct c as [c |].
    2:{ destruct (collect_futures contexts msg) as [cs' r] eqn:Hrest.
        intros [= <- ->]. by eapply IH. }
    destruct (negb (future_valid c)).
    { destruct (collect_futures contexts msg) as [cs' r] eqn:Hrest.
      intros [= <- ->]. by eapply IH. }
    destruct (_done c) as [| | e']; [done | |].
    + destruct (collect_futures contexts msg) as [cs' r] eqn:Hrest.
      intros [= <- ->]. by eapply IH.
    + destruct (what_of e') as [w |] eqn:Hw.
      * destruct (collect_futures contexts (msg +:+ w +:+ newline)) as [cs' r] eqn:Hrest.
        intros [= <- ->]. by eapply IH.
      * intros [= <- <-]. done.
  - done.
Qed.

(** ** A run after termination is requested *)

Lemma started_app evs1 evs2 : started (evs1 ++ evs2) = started evs1 ++ started evs2.
Proof. unfold started. apply omap_app. Qed.

Lemma count_past_test_insert contexts w x y :
  contexts !! w = Some x →
  count_past_test (<[w := y]> contexts) + Nat.b2n (past_test x)
  = count_past_test contexts + Nat.b2n (past_test y).
Proof.
  revert w. induction contexts as [| c contexts IH]; intros w Hw; [done |].
  destruct w as [| w]; simpl in *.
  - injection Hw as ->. lia.
  - specialize (IH w Hw). lia.
Qed.

Lemma worker_at_lookup w m c :
  worker_at w m = Some c → _worker_contexts m !! w = Some (Some c).
Proof.
  unfold worker_at. destruct (_worker_contexts m !! w) as [[c' |] |]; [| done | done].
  by intros [= ->].
Qed.

(** A step with the flag up: the flag stays up, and a node is started only
    by a worker that leaves the window between the test and the lock; no
    worker enters it. *)
Lemma process_tasks_step_terminated fuel w pe m m' evs :
  _termination_flag m = true →
  process_tasks_step fuel w pe m = Some (m', evs) →
  _termination_flag m' = true ∧
  length (started evs) + workers_past_test m' ≤ workers_past_test m.
Proof.
  intros Hflag Hstep.
  assert (∃ c c', worker_at w m = Some c ∧
            _worker_contexts m' = <[w := Some c']> (_worker_contexts m) ∧
            _termination_flag m' = true ∧
            length (started evs) + Nat.b2n (past_test (Some c'))
            ≤ Nat.b2n (past_test (Some c))) as (c & c' & Hc & Hctx & Hflag' & Hle).
  { revert Hstep. unfold process_tasks_step.
    destruct (worker_at w m) as [c |] eqn:Hc; [| done].
    destruct (phase c) eqn:Hph; [| | | | done].
    - rewrite Hflag. intros [= <- <-]. eexists c, _.
      repeat split; simpl; [done | lia].
    - destruct (trace_ready_node fuel m (nextNode c).2) as [next | e | |]; try done.
      2:{ intros [= <- <-]. eexists c, _. repeat split; simpl; rewrite ?Hph; simpl; lia. }
      destruct next as [[] q]; simpl.
      + destruct q as [a |]; [| done]. destruct (heap m !! a); [| done].
        intros [= <- <-]. eexists c, _. split; [done |]. split.
        { simpl. unfold remove_ready_cache. simpl. by case_decide. }
        split.
        { simpl. unfold remove_ready_cache. simpl. by case_decide. }
        simpl. rewrite Hph. simpl. lia.
      + intros [= <- <-]. eexists c, _.
        repeat split; simpl; rewrite ?Hph; simpl; [done | lia].
      + intros [= <- <-]. eexists c, _.
        repeat split; simpl; rewrite ?Hph; simpl; [done | lia].
    - intros [= <- <-]. eexists c, _.
      repeat split; simpl; [done | lia].
    - destruct pe as [| e].
      + destruct ((nextNode c).2) as [a |]; [| done].
        intros [= <- <-]. eexists c, _.
        repeat split; simpl; [done | lia].
      + intros [= <- <-]. eexists c, _. repeat split; simpl; lia. }
  split; [done |]. unfold workers_past_test. rewrite Hctx.
  pose proof (count_past_test_insert _ w _ (Some c') (worker_at_lookup _ _ _ Hc)).
  lia.
Qed.

Lemma run_terminated fuel schedule :
  ∀ m m' evs,
    _termination_flag m = true →
    run fuel schedule m = Some (m', evs) →
    _termination_flag m' = true ∧
    length (started evs) + workers_past_test m' ≤ workers_past_test m.
Proof.
  induction schedule as [| [w pe] rest IH]; intros m m' evs Hflag.
  - intros [= <- <-]. split; [done |]. simpl. lia.
  - cbn [run].
    destruct (process_tasks_step fuel w pe m) as [[m1 evs1] |] eqn:Hstep; [| done].
    destruct (run fuel rest m1) as [[m2 evs2] |] eqn:Hrun; [| done].
    intros [= <- <-].
    destruct (process_tasks_step_terminated _ _ _ _ _ _ Hflag Hstep) as [Hflag1 Hle1].
    destruct (IH m1 m2 evs2 Hflag1 Hrun) as [Hflag2 Hle2].
    split; [done |]. rewrite started_app, length_app. lia.
Qed.

Lemma elem_of_started a evs : Started a ∈ evs → a ∈ started evs.
Proof.
  intros Hin. unfold started. apply list_elem_of_omap. by exists (Started a).
Qed.

(** X15.  Raising the termination flag does not stop the claims at once.  The
    flag, once up, stays up, and a worker that tests it leaves; but a worker
    that had found it down and has not yet taken the lock still takes a
    verdict and may start a node.  So after the flag is up at most as many
    nodes are started as there were workers between the test and the lock,
    and none when there was none; payloads that are running may still
    finish. *)
Theorem starts_after_termination_bounded (fuel : nat)
    (schedule : list (nat * payload_end)) (m m' : machine) (evs : list event) :
  _termination_flag m = true →
  run fuel schedule m = Some (m', evs) →
  _termination_flag m' = true ∧
  length (started evs) + workers_past_test m' ≤ workers_past_test m ∧
  (workers_past_test m = 0 → ∀ a, Started a ∉ evs).
Proof.
  intros Hflag Hrun.
  destruct (run_terminated _ _ _ _ _ Hflag Hrun) as [Hflag' Hle].
  split; [done |]. split; [done |].
  intros Hnone a Hin%elem_of_started.
  destruct (started evs); [by apply elem_of_nil in Hin | simpl in Hle; lia].
Qed.

Lemma starts_after_termination_bounded_witness :
  _termination_flag
    (default diamond
       (fst <$> run 5 [(0, PayloadReturns); (1, PayloadReturns); (0, PayloadReturns)]
                  diamond_late_flag)) = true
  ∧ length (started [Finished 1; Started 2])
    + workers_past_test
        (default diamond
           (fst <$> run 5 [(0, PayloadReturns); (1, PayloadReturns); (0, PayloadReturns)]
                      diamond_late_flag))
    ≤ workers_past_test diamond_late_flag
  ∧ (workers_past_test diamond_late_flag = 0 →
     ∀ a, Started a ∉ [Finished 1; Started 2]).
Proof.
  apply (starts_after_termination_bounded 5
           [(0, PayloadReturns); (1, PayloadReturns); (0, PayloadReturns)]
           diamond_late_flag).
  - vm_compute. reflexivity.
  - vm_compute. reflexivity.
Defined.

(** ** Invariants of a run *)

(** The exact shape of a step of worker [w]. *)
Lemma process_tasks_step_shape fuel w pe m m' evs :
  process_tasks_step fuel w pe m = Some (m', evs) →
  ∃ c c' k,
    worker_at w m = Some c ∧ phase c ≠ Left ∧
    _worker_contexts m' = <[w := Some c']> (_worker_contexts m) ∧
    _task_pool m' = _task_pool m ∧
    match k with
    | StepQuiet =>
        evs = [] ∧ heap m' = heap m ∧
        _ready_tasks_cache m' = _ready_tasks_cache m ∧ phase c' ≠ InExecute
    | StepClaim a =>
        evs = [Started a] ∧ phase c = AtLock ∧ phase c' = InExecute ∧
        (nextNode c').2 = Some a ∧
        claimable (heap m) ∅ (TraceNodeState.Ready, Some a) ∧
        heap m' = set_state a IRunnable.Executing (heap m) ∧
        _ready_tasks_cache m' =
          (if decide (Some a ∈ _ready_tasks_cache m)
           then erase_first (Some a) (_ready_tasks_cache m)
           else _ready_tasks_cache m)
    | StepFinish a =>
        evs = [Finished a] ∧ phase c = InExecute ∧ phase c' = AtLoopHead ∧
        (nextNode c).2 = Some a ∧
        heap m' = set_state a IRunnable.Completed (heap m) ∧
        _ready_tasks_cache m' = _ready_tasks_cache m
    end.
Proof.
  unfold process_tasks_step.
  destruct (worker_at w m) as [c |] eqn:Hc; [| done].
  destruct (phase c) eqn:Hph; [| | | | done].
  - destruct (_termination_flag m); intros [= <- <-];
      eexists c, _, StepQuiet; repeat split; simpl; congruence.
  - destruct (trace_ready_node fuel m (nextNode c).2) as [next | e | |] eqn:Htr;
      try done.
    2:{ intros [= <- <-]. eexists c, _, StepQuiet. repeat split; simpl; congruence. }
    destruct next as [[] q] eqn:Hnext; simpl.
    + destruct q as [a |]; [| done].
      destruct (heap m !! a) as [n |] eqn:Hn; [| done].
      intros [= <- <-]. eexists c, _, (StepClaim a). split; [done |].
      split; [congruence |]. split.
      { simpl. unfold remove_ready_cache. simpl. by case_decide. }
      split.
      { simpl. unfold remove_ready_cache. simpl. by case_decide. }
      split; [done |]. split; [done |]. split; [done |]. split; [done |].
      split; [by apply (trace_ready_node_ready _ _ _ _ Htr) |].
      simpl. unfold remove_ready_cache. simpl. by case_decide.
    + intros [= <- <-]. eexists c, _, StepQuiet. repeat split; simpl; congruence.
    + intros [= <- <-]. eexists c, _, StepQuiet. repeat split; simpl; congruence.
  - intros [= <- <-]. eexists c, _, StepQuiet. repeat split; simpl; congruence.
  - destruct pe as [| e].
    + destruct ((nextNode c).2) as [a |] eqn:Ha; [| done].
      intros [= <- <-]. eexists c, _, (StepFinish a). repeat split; simpl; congruence.
    + intros [= <- <-]. eexists c, _, StepQuiet. repeat split; simpl; congruence.
Qed.

Lemma state_le_refl s : state_le s s.
Proof. by destruct s. Qed.

Lemma state_le_trans s1 s2 s3 : state_le s1 s2 → state_le s2 s3 → state_le s1 s3.
Proof. by destruct s1, s2, s3. Qed.

Lemma worker_at_insert w w' c c' (m m' : machine) :
  worker_at w m = Some c →
  _worker_contexts m' = <[w := Some c']> (_worker_contexts m) →
  worker_at w' m' = if decide (w' = w) then Some c' else worker_at w' m.
Proof.
  unfold worker_at. intros Hc ->.
  destruct (decide (w' = w)) as [-> | Hne].
  - rewrite list_lookup_insert_eq; [done |].
    destruct (_worker_contexts m !! w) eqn:Hw; [| done].
    by apply lookup_lt_Some in Hw.
  - by rewrite list_lookup_insert_ne.
Qed.

(** One step keeps the invariants of a run, moves no node's state backwards
    and touches no edge. *)
Lemma process_tasks_step_run_inv fuel w pe m m' evs :
  run_inv m →
  process_tasks_step fuel w pe m = Some (m', evs) →
  run_inv m' ∧
  ∀ a n, heap m !! a = Some n →
    ∃ n', heap m' !! a = Some n' ∧ state_le (state n) (state n').
Proof.
  intros [Hwc (Hnd & Hsub & Hlive & Hiff)] Hstep.
  destruct (process_tasks_step_shape _ _ _ _ _ _ Hstep)
    as (c & c' & k & Hc & Hnl & Hctx & Hpool & Hk).
  pose proof (λ w', worker_at_insert w w' c c' m m' Hc Hctx) as Hat.
  destruct k as [| a | a].
  - destruct Hk as (-> & Hh & Hcache & Hph').
    split; [split |].
    + intros w0 c0. rewrite Hat. destruct (decide (w0 = w)) as [Hw0 | Hw0]; [by intros [= <-] |].
      intros Hc0 Hph0. destruct (Hwc w0 c0 Hc0 Hph0) as (a & n & Ha & Hn & Hst & Huniq).
      exists a, n. rewrite Hh. repeat split; try done.
      intros w1 c1. rewrite Hat. destruct (decide (w1 = w)); [by intros [= <-] |]. apply Huniq.
    + unfold cache_tracks_ready. rewrite Hcache, Hpool, Hh. done.
    + intros a n Hn. exists n. rewrite Hh. split; [done | apply state_le_refl].
  - destruct Hk as (-> & Hph & Hph' & Hnode & Hcl & Hh & Hcache).
    destruct Hcl as (a' & na & [= <-] & Hna & Hready & _).
    split; [split |].
    + intros w0 c0. rewrite Hat. destruct (decide (w0 = w)) as [Hw0 | Hw0].
      * intros [= <-] _. subst w0.
        exists a, (mkINode IRunnable.Executing (_predecessors na) (_successors na)).
        split; [done |]. split; [by rewrite Hh, lookup_set_state, decide_True, Hna |].
        split; [done |].
        intros w1 c1. rewrite Hat. destruct (decide (w1 = w)); [done |].
        intros Hc1 Hph1 Hnode1.
        destruct (Hwc w1 c1 Hc1 Hph1) as (b & nb & Hb & Hnb & Hstb & _).
        congruence.
      * intros Hc0 Hph0.
        destruct (Hwc w0 c0 Hc0 Hph0) as (b & nb & Hb & Hnb & Hstb & Huniq).
        assert (a ≠ b) as Hab by (intros <-; congruence).
        exists b, nb. split; [done |].
        split; [by rewrite Hh, lookup_set_state, decide_False |]. split; [done |].
        intros w1 c1. rewrite Hat. destruct (decide (w1 = w)); [| apply Huniq].
        intros [= <-] _ ?. congruence.
    + unfold cache_tracks_ready. rewrite Hcache, Hpool.
      assert (∀ p, p ∈ (if decide (Some a ∈ _ready_tasks_cache m)
                        then erase_first (Some a) (_ready_tasks_cache m)
                        else _ready_tasks_cache m)
                   ↔ p ∈ _ready_tasks_cache m ∧ p ≠ Some a) as Hmem.
      { intros p. case_decide as Hin; [by apply elem_of_erase_first |].
        split; [| tauto]. intros Hp. split; [done |]. by intros ->. }
      split; [destruct (decide (Some a ∈ _ready_tasks_cache m)); [by apply NoDup_erase_first | done] |].
      split; [intros p [Hp _]%Hmem; by apply Hsub |].
      split.
      * intros p Hp. destruct (Hlive p Hp) as (b & -> & [nb Hb]).
        exists b. split; [done |]. rewrite Hh, lookup_set_state, Hb.
        destruct (decide (a = b)); simpl; eauto.
      * intros b nb' Hb. rewrite Hh, lookup_set_state, Hmem.
        destruct (decide (a = b)) as [Hab | Hab].
        -- subst b. rewrite Hna. simpl. intros [= <-]. simpl.
           split; [intros [_ ?]; done | done].
        -- intros Hnb. rewrite (Hiff b nb' Hb Hnb).
           split; [tauto |]. intros Hst. split; [done | congruence].
    + intros b nb Hnb. rewrite Hh, lookup_set_state. destruct (decide (a = b)) as [Hab | Hab].
      * subst b. rewrite Hnb. simpl. eexists. split; [done |].
        rewrite Hna in Hnb. injection Hnb as <-. by rewrite Hready.
      * exists nb. split; [done | apply state_le_refl].
  - destruct Hk as (-> & Hph & Hph' & Hnode & Hh & Hcache).
    destruct (Hwc w c Hc Hph) as (a' & na & Ha' & Hna & Hsta & Huniqa).
    assert (a' = a) as -> by congruence.
    split; [split |].
    + intros w0 c0. rewrite Hat. destruct (decide (w0 = w)) as [Hw0 | Hw0]; [intros [= <-]; congruence |].
      intros Hc0 Hph0.
      destruct (Hwc w0 c0 Hc0 Hph0) as (b & nb & Hb & Hnb & Hstb & Huniq).
      assert (a ≠ b) as Hab.
      { intros <-. apply Hw0. symmetry. by apply (Huniq w c). }
      exists b, nb. split; [done |].
      split; [by rewrite Hh, lookup_set_state, decide_False |]. split; [done |].
      intros w1 c1. rewrite Hat. destruct (decide (w1 = w)); [| apply Huniq].
      intros [= <-]. congruence.
    + unfold cache_tracks_ready. rewrite Hcache, Hpool.
      split; [done |]. split; [done |]. split.
      * intros p Hp. destruct (Hlive p Hp) as (b & -> & [nb Hb]).
        exists b. split; [done |]. rewrite Hh, lookup_set_state, Hb.
        destruct (decide (a = b)); simpl; eauto.
      * intros b nb' Hb. rewrite Hh, lookup_set_state.
        destruct (decide (a = b)) as [Hab | Hab].
        -- subst b. rewrite Hna. simpl. intros [= <-]. simpl.
           rewrite (Hiff a na Hb Hna), Hsta. done.
        -- apply Hiff. done.
    + intros b nb Hnb. rewrite Hh, lookup_set_state. destruct (decide (a = b)) as [Hab | Hab].
      * subst b. rewrite Hnb. simpl. eexists. split; [done |].
        rewrite Hna in Hnb. injection Hnb as <-. by rewrite Hsta.
      * exists nb. split; [done | apply state_le_refl].
Qed.

Lemma start_returns_shape m0 m :
  start m0 = (m, Returns ()) →
  _ready_tasks_cache m = _task_pool m0 ∧
  ∃ k, _worker_contexts m = replicate k (Some new_worker_context).
Proof.
  unfold start. destruct (executing m0); [done |].
  pose proof (task_pool_wait m0) as Hp.
  destruct (wait m0) as [m1 []] eqn:Hwait; try done.
  destruct (reset_all_tasks_state (_task_pool (reset m1)) (heap (reset m1)))
    as [h |] eqn:Hreset; [| done].
  intros [= <-]. simpl in *. split; [done |]. eexists. reflexivity.
Qed.

Lemma start_run_inv m0 m :
  start m0 = (m, Returns ()) → pool_wf m0 → run_inv m.
Proof.
  intros Hstart [Hnd Hlive].
  pose proof (start_ready _ _ Hstart) as (Hpool & Hse & Hready).
  pose proof (start_returns_shape _ _ Hstart) as (Hcache & k & Hctx).
  split.
  - intros w c. unfold worker_at. rewrite Hctx.
    destruct (replicate k (Some new_worker_context) !! w) as [oc |] eqn:Hw; [| done].
    apply lookup_replicate in Hw as [-> _]. by intros [= <-].
  - unfold cache_tracks_ready. rewrite Hcache, Hpool.
    split; [done |]. split; [done |]. split.
    + intros p Hp.
      destruct (Hlive p Hp) as (a & -> & [n Ha]). exists a. split; [done |].
      destruct (same_edges_lookup _ _ _ _ Hse Ha) as (n' & Hn' & _). eauto.
    + intros a n Ha Hn. split; [| done]. intros _. apply (Hready a n); [| done].
      by rewrite Hpool.
Qed.

Lemma run_run_inv fuel schedule :
  ∀ m m' evs,
    run_inv m → run fuel schedule m = Some (m', evs) →
    run_inv m' ∧
    ∀ a n, heap m !! a = Some n →
      ∃ n', heap m' !! a = Some n' ∧ state_le (state n) (state n').
Proof.
  induction schedule as [| [w pe] rest IH]; intros m m' evs Hinv; cbn [run].
  - intros [= <- <-]. split; [done |]. intros a n Hn. exists n.
    split; [done | apply state_le_refl].
  - destruct (process_tasks_step fuel w pe m) as [[m1 evs1] |] eqn:Hstep; [| done].
    destruct (run fuel rest m1) as [[m2 evs2] |] eqn:Hrun; [| done].
    intros [= <- <-].
    destruct (process_tasks_step_run_inv _ _ _ _ _ _ Hinv Hstep) as [Hinv1 Hle1].
    destruct (IH m1 m2 evs2 Hinv1 Hrun) as [Hinv2 Hle2].
    split; [done |]. intros a n Hn.
    destruct (Hle1 a n Hn) as (n1 & Hn1 & Hs1).
    destruct (Hle2 a n1 Hn1) as (n2 & Hn2 & Hs2).
    exists n2. split; [done |]. by eapply state_le_trans.
Qed.

(** X16.  State monotonicity.  [start] on a well-formed pool sets up the invariants
    of a run, every run keeps them, and between the beginning and the end of
    a run no node's state moves backwards: READY, then EXECUTING, then
    COMPLETED. *)
Theorem state_never_regresses (fuel : nat) :
  (∀ m0 m, pool_wf m0 → start m0 = (m, Returns ()) → run_inv m)
  ∧ (∀ schedule m m' evs,
       run_inv m → run fuel schedule m = Some (m', evs) →
       run_inv m' ∧
       ∀ a n, heap m !! a = Some n →
         ∃ n', heap m' !! a = Some n' ∧ state_le (state n) (state n')).
Proof.
  split; [intros m0 m Hwf Hstart; by eapply start_run_inv |].
  intros schedule. apply run_run_inv.
Qed.

Lemma state_never_regresses_witness :
  run_inv diamond_started
  ∧ run_inv diamond_running
  ∧ ∀ a n, heap diamond_started !! a = Some n →
      ∃ n', heap diamond_running !! a = Some n' ∧ state_le (state n) (state n').
Proof.
  assert (run_inv diamond_started) as Hinv.
  { apply (proj1 (state_never_regresses 5) diamond diamond_started).
    - apply graph_inv_diamond.
    - vm_compute. reflexivity. }
  split; [exact Hinv |].
  apply (proj2 (state_never_regresses 5) diamond_schedule diamond_started
           diamond_running
           [Started 1; Finished 1; Started 2; Started 3; Finished 2; Finished 3;
            Started 4] Hinv).
  vm_compute. reflexivity.
Defined.

Lemma process_tasks_step_started fuel w pe m m' evs pre :
  process_tasks_step fuel w pe m = Some (m', evs) →
  started_not_ready m pre → NoDup (started pre) →
  started_not_ready m' (pre ++ evs) ∧ NoDup (started (pre ++ evs)).
Proof.
  intros Hstep Hnr Hnd. apply process_tasks_step_cases in Hstep as [_ Hc].
  unfold started_not_ready. rewrite started_app.
  destruct Hc as [[-> Hh] | [(a & -> & Hcl & Hh) | (a & -> & Hh)]].
  - change (started []) with (@nil nat). rewrite app_nil_r. split; [| done].
    intros b n Hb. rewrite Hh. by apply Hnr.
  - destruct Hcl as (a' & na & [= <-] & Hna & Hready & _).
    change (started [Started a]) with [a]. split.
    + intros b n [Hb | Hb%list_elem_of_singleton]%elem_of_app;
        rewrite Hh, lookup_set_state.
      * destruct (decide (a = b)); [| by apply Hnr].
        destruct (heap m !! b); simpl; [| done]. by intros [= <-].
      * subst b. rewrite decide_True by done. rewrite Hna. simpl. by intros [= <-].
    + apply NoDup_app. split; [done |]. split; [| apply NoDup_singleton].
      intros b Hb ->%list_elem_of_singleton. by apply (Hnr a na).
  - change (started [Finished a]) with (@nil nat). rewrite app_nil_r.
    split; [| done].
    intros b n Hb. rewrite Hh, lookup_set_state.
    destruct (decide (a = b)); [| by apply Hnr].
    destruct (heap m !! b); simpl; [| done]. by intros [= <-].
Qed.

Lemma run_started fuel schedule :
  ∀ m m' evs pre,
    run fuel schedule m = Some (m', evs) →
    started_not_ready m pre → NoDup (started pre) →
    NoDup (started (pre ++ evs)).
Proof.
  induction schedule as [| [w pe] rest IH]; intros m m' evs pre; cbn [run].
  - intros [= <- <-] _ Hnd. by rewrite app_nil_r.
  - destruct (process_tasks_step fuel w pe m) as [[m1 evs1] |] eqn:Hstep; [| done].
    destruct (run fuel rest m1) as [[m2 evs2] |] eqn:Hrun; [| done].
    intros [= <- <-] Hnr Hnd.
    destruct (process_tasks_step_started _ _ _ _ _ _ pre Hstep Hnr Hnd) as [Hnr1 Hnd1].
    rewrite app_assoc. by apply (IH m1 m2 evs2 (pre ++ evs1)).
Qed.

(** X17.  At-most-once execution.  In a run, from whatever state of the graph, no
    node is started twice: the payload of a node is invoked at most once. *)
Theorem started_at_most_once (fuel : nat) (schedule : list (nat * payload_end))
    (m m' : machine) (evs : list event) :
  run fuel schedule m = Some (m', evs) →
  NoDup (started evs)
  ∧ ∀ i j a, evs !! i = Some (Started a) → evs !! j = Some (Started a) → i = j.
Proof.
  intros Hrun.
  assert (NoDup (started evs)) as Hnd.
  { apply (run_started fuel schedule m m' evs [] Hrun); [| constructor].
    intros a n Ha. by apply elem_of_nil in Ha. }
  split; [done |].
  clear Hrun. revert Hnd. induction evs as [| ev evs IH]; intros Hnd i j a Hi Hj.
  - done.
  - destruct ev as [b | b].
    + unfold started in Hnd. simpl in Hnd. apply NoDup_cons in Hnd as [Hb Hnd].
      assert (∀ k, evs !! k = Some (Started b) → False) as Hno.
      { intros k Hk. apply Hb.
        apply (list_elem_of_omap (λ ev, match ev with
                                      | Started a => Some a
                                      | Finished _ => None
                                      end)).
        exists (Started b). split; [| done]. by eapply list_elem_of_lookup_2. }
      destruct i as [| i], j as [| j]; simpl in *.
      * done.
      * injection Hi as ->. by destruct (Hno j).
      * injection Hj as ->. by destruct (Hno i).
      * f_equal. by apply (IH Hnd i j a).
    + unfold started in Hnd. simpl in Hnd.
      destruct i as [| i], j as [| j]; simpl in *; try done.
      f_equal. by apply (IH Hnd i j a).
Qed.

Lemma started_at_most_once_witness :
  NoDup (started [Started 1; Finished 1; Started 2; Started 3; Finished 2;
                  Finished 3; Started 4])
  ∧ ∀ i j a,
      [Started 1; Finished 1; Started 2; Started 3; Finished 2; Finished 3;
       Started 4] !! i = Some (Started a) →
      [Started 1; Finished 1; Started 2; Started 3; Finished 2; Finished 3;
       Started 4] !! j = Some (Started a) → i = j.
Proof.
  apply (started_at_most_once 5 diamond_schedule diamond_started diamond_running).
  vm_compute. reflexivity.
Defined.

(** ** When the trace says COMPLETED, and when it must say READY *)

Lemma first_executing_completed h pool r :
  first_executing h pool = Returns r → r.1 = TraceNodeState.Completed →
  r = (TraceNodeState.Completed, nullptr) ∧
  ∀ p, p ∈ pool → ∃ n, deref h p = Some n ∧ state n ≠ IRunnable.Executing.
Proof.
  induction pool as [| t pool IH]; cbn [first_executing].
  - intros [= <-] _. split; [done |]. by intros p ?%elem_of_nil.
  - destruct (deref h t) as [n |] eqn:Ht; [| done].
    destruct (decide (state n = IRunnable.Executing)) as [Hex | Hex].
    + intros [= <-]. done.
    + intros Hr Hc. destruct (IH Hr Hc) as [-> Hall]. split; [done |].
      intros p [-> | Hp]%elem_of_cons; eauto.
Qed.

Lemma trace_ready_node_null_completed fuel m r :
  cache_tracks_ready m →
  trace_ready_node_null fuel m = Returns r → r.1 = TraceNodeState.Completed →
  r = (TraceNodeState.Completed, nullptr) ∧
  ∀ a n, Some a ∈ _task_pool m → heap m !! a = Some n →
    state n = IRunnable.Completed.
Proof.
  intros (Hnd & Hsub & Hlive & Hiff). unfold trace_ready_node_null.
  destruct (_ready_tasks_cache m) as [| c0 cache] eqn:Hcache.
  - intros Hfe Hc. destruct (first_executing_completed _ _ _ Hfe Hc) as [-> Hall].
    split; [done |]. intros a n Ha Hn.
    destruct (Hall (Some a) Ha) as (n' & Hn' & Hex). simpl in Hn'.
    rewrite Hn in Hn'. injection Hn' as <-.
    pose proof (Hiff a n Ha Hn) as [_ Hready].
    destruct (state n); [| done | done].
    specialize (Hready eq_refl). by apply elem_of_nil in Hready.
  - intros Htr Hc. exfalso.
    assert (c0 ∈ c0 :: cache) as Hin by left.
    destruct (Hlive c0 (Hsub c0 Hin)) as (a & -> & [n Hn]).
    pose proof (proj1 (Hiff a n (Hsub _ Hin) Hn) Hin) as Hready.
    by apply (trace_ready_depend_of_ready _ _ _ _ _ _ Hn Hready Htr).
Qed.

(** X18.  The verdict COMPLETED means the whole graph has finished.  During a run,
    whatever node the hint is, when [trace_ready_node] gives the verdict
    COMPLETED it gives it with a null node, and every node of the pool is
    COMPLETED: a worker leaves the loop on that verdict only. *)
Theorem completed_verdict_means_done (fuel : nat) (m : machine) (hint : ptr)
    (r : verdict) :
  run_inv m →
  trace_ready_node fuel m hint = Returns r → r.1 = TraceNodeState.Completed →
  r = (TraceNodeState.Completed, nullptr) ∧
  ∀ a n, Some a ∈ _task_pool m → heap m !! a = Some n →
    state n = IRunnable.Completed.
Proof.
  intros [_ Hcache]. unfold trace_ready_node.
  destruct hint as [e |]; [| by apply trace_ready_node_null_completed].
  destruct (heap m !! e) as [n |] eqn:He; [| done].
  destruct (state n) eqn:Hst.
  - destruct (trace_ready_depend fuel (heap m) (Some e) ∅) as [rd | | |] eqn:Hrd;
      simpl; try done.
    pose proof (trace_ready_depend_of_ready _ _ _ _ _ _ He Hst Hrd) as Hne.
    destruct rd as [[] q]; simpl in *; [by intros [= <-] | | done].
    destruct (trace_ready_node_null fuel m) as [nx | | |]; simpl; try done.
    case_decide; intros [= <-]; simpl; congruence.
  - destruct (scan_successors_executing fuel (heap m) (_successors n))
      as [[t |] | | |] eqn:Hscan; simpl; try done.
    + apply scan_successors_executing_ready in Hscan as [Ht _].
      intros [= <-]. congruence.
    + destruct (trace_ready_node_null fuel m) as [nx | | |]; simpl; try done.
      case_decide; intros [= <-]; simpl; congruence.
  - destruct (scan_successors_completed fuel (heap m) (_successors n)
                (TraceNodeState.Pending, nullptr)) as [[t | d] | | |] eqn:Hscan;
      simpl; try done.
    + apply scan_successors_completed_ready in Hscan as [Ht _]; [| done].
      intros [= <-]. congruence.
    + apply scan_successors_completed_ready in Hscan; [| done].
      destruct (trace_ready_node_null fuel m) as [nx | | |] eqn:Hnx; simpl; try done.
      destruct (decide (nx.1 = TraceNodeState.Ready)); [intros [= <-]; congruence |].
      destruct (decide (is_Some d.2)); [intros [= <-]; congruence |].
      destruct (decide (nx.1 = TraceNodeState.Pending)); [intros [= <-]; congruence |].
      intros [= <-] _. split; [done |].
      apply (trace_ready_node_null_completed fuel m nx Hcache Hnx).
      by destruct nx as [[] ?].
Qed.

Lemma run_inv_diamond_started : run_inv diamond_started.
Proof.
  apply (start_run_inv diamond); [vm_compute; reflexivity | apply graph_inv_diamond].
Qed.

Lemma completed_verdict_means_done_witness :
  (TraceNodeState.Completed, nullptr) = (TraceNodeState.Completed, nullptr) ∧
  ∀ a n, Some a ∈ _task_pool diamond_done →
    heap diamond_done !! a = Some n → state n = IRunnable.Completed.
Proof.
  apply (completed_verdict_means_done 5 diamond_done (Some 4)
           (TraceNodeState.Completed, nullptr)).
  - apply (run_run_inv 5 diamond_full_schedule diamond_started diamond_done
             [Started 1; Finished 1; Started 2; Started 3; Finished 2; Finished 3;
              Started 4; Finished 4] run_inv_diamond_started).
    vm_compute. reflexivity.
  - vm_compute. reflexivity.
  - reflexivity.
Defined.

Lemma avoided_empty (p : ptr) : avoided ∅ p = false.
Proof.
  destruct (avoided ∅ p) eqn:Hav; [| done].
  apply avoided_spec in Hav. set_solver.
Qed.

Lemma scan_predecessors_idle self h E preds :
  (∀ p, p ∈ preds → ∃ a n, p = Some a ∧ h !! a = Some n ∧
     state n ≠ IRunnable.Executing ∧
     (state n = IRunnable.Ready →
        ∃ r, self (Some a) ∅ = Returns r ∧ r.1 = TraceNodeState.Ready)) →
  ∃ r, scan_predecessors self h ∅ E preds (TraceNodeState.Ready, nullptr)
       = Returns r ∧ r.1 = TraceNodeState.Ready.
Proof.
  induction preds as [| p preds IH]; intros Hall; cbn [scan_predecessors].
  - simpl. eauto.
  - destruct (Hall p) as (a & n & -> & Hn & Hex & Hself); [by left |].
    rewrite avoided_empty, Hn.
    destruct (state n) eqn:Hst.
    + destruct (Hself eq_refl) as (r & -> & Hr). rewrite Hr. eauto.
    + done.
    + apply IH. intros q Hq. apply Hall. by right.
Qed.

(** X19.  No deadlock on an idle DAG.  On an acyclic graph without dangling
    edges, when no node is EXECUTING, the trace from any READY node returns
    the verdict READY: with work left and nobody running, a worker always
    finds a node to claim. *)
Theorem ready_when_idle (h : store) (rank : nat → nat) (fuel : nat) (e : nat)
    (n : INode) :
  ranked h rank → edges_closed h →
  (∀ a na, h !! a = Some na → state na ≠ IRunnable.Executing) →
  h !! e = Some n → state n = IRunnable.Ready → rank e < fuel →
  ∃ r, trace_ready_depend fuel h (Some e) ∅ = Returns r
       ∧ r.1 = TraceNodeState.Ready.
Proof.
  intros Hrank Hclosed Hidle. revert e n.
  induction fuel as [| fuel IH]; intros e n He Hst Hlt; [lia |].
  cbn [trace_ready_depend]. rewrite He, Hst.
  apply scan_predecessors_idle. intros p Hp.
  destruct (Hclosed e n p He) as (a & -> & [na Ha]); [by left |].
  exists a, na. split; [done |]. split; [done |]. split; [by eapply Hidle |].
  intros Hsta. apply (IH a na Ha Hsta).
  specialize (Hrank e n a He Hp). lia.
Qed.

Lemma ready_when_idle_witness :
  ∃ r, trace_ready_depend 5 (heap diamond) (Some 4) ∅ = Returns r
       ∧ r.1 = TraceNodeState.Ready.
Proof.
  assert (∀ a na, heap diamond !! a = Some na →
            a ∈ [1; 2; 3; 4] ∧ state na = IRunnable.Ready ∧
            ∀ p, p ∈ _predecessors na ∨ p ∈ _successors na →
              ∃ b, p = Some b ∧ b ∈ [1; 2; 3; 4] ∧
                   (p ∈ _predecessors na → b < a)) as Hall.
  { intros a na Ha.
    assert (a ∈ [1; 2; 3; 4]) as Hin.
    { apply (elem_of_dom_2 (heap diamond)) in Ha. revert Ha.
      assert (dom (heap diamond) = ({[1; 2; 3; 4]} : gset nat)) as ->
        by (vm_compute; reflexivity).
      set_solver. }
    split; [done |].
    repeat (apply elem_of_cons in Hin as [-> | Hin]);
      [| | | | by apply elem_of_nil in Hin];
      vm_compute in Ha; injection Ha as <-; (split; [done |]);
      simpl; intros p [Hp | Hp];
      repeat (apply elem_of_cons in Hp as [-> | Hp]);
      try (by apply elem_of_nil in Hp);
      eexists; (split; [reflexivity |]); (split; [set_solver |]);
      intros Hq; try lia;
      repeat (apply elem_of_cons in Hq as [[=] | Hq]);
      by apply elem_of_nil in Hq. }
  apply (ready_when_idle (heap diamond) (λ a, a) 5 4
           (mkINode IRunnable.Ready [Some 2; Some 3] [])).
  - intros a na p Ha Hp. destruct (Hall a na Ha) as (_ & _ & Hedges).
    destruct (Hedges (Some p)) as (b & [= <-] & _ & Hlt); [by left |]. by apply Hlt.
  - intros a na p Ha Hp. destruct (Hall a na Ha) as (_ & _ & Hedges).
    destruct (Hedges p Hp) as (b & -> & Hb & _). exists b. split; [done |].
    repeat (apply elem_of_cons in Hb as [-> | Hb]);
      [| | | | by apply elem_of_nil in Hb]; vm_compute; eauto.
  - intros a na Ha. destruct (Hall a na Ha) as (_ & -> & _). done.
  - vm_compute. reflexivity.
  - reflexivity.
  - lia.
Defined.

(** ** Cycles longer than two *)

(** X20.  [depend]'s only cycle test is the direct one: it returns for any two
    distinct live nodes unless [this] is already a predecessor of [t], whatever
    paths exist between them.  And on a ring of READY nodes, each having a
    node of the ring as its first predecessor, the recursion of
    [trace_ready_depend] has no end: no amount of fuel gives a result. *)
Theorem longer_cycle_undetected (h : store) :
  (∀ me tb nme ntb, me ≠ tb → h !! me = Some nme → h !! tb = Some ntb →
     Some me ∉ _predecessors ntb →
     ∃ h', Task.depend (Some me) (Some tb) h = (h', Returns ()))
  ∧ (∀ on_ring : nat → Prop,
       (∀ a, on_ring a →
          ∃ n p rest, h !! a = Some n ∧ state n = IRunnable.Ready ∧
            _predecessors n = Some p :: rest ∧ on_ring p) →
       ∀ fuel a, on_ring a → trace_ready_depend fuel h (Some a) ∅ = Diverges).
Proof.
  split.
  - intros me tb nme ntb Hne Hme Htb Hnin. unfold Task.depend.
    rewrite decide_False by congruence. rewrite Htb.
    rewrite decide_False by done. rewrite Hme.
    destruct (decide (Some tb ∈ _predecessors nme)).
    + rewrite Htb. eauto.
    + rewrite lookup_insert_ne by done. rewrite Htb. eauto.
  - intros on_ring Hring.
    induction fuel as [| fuel IH]; intros a Ha; [done |].
    destruct (Hring a Ha) as (n & p & rest & Hn & Hst & Hpreds & Hp).
    destruct (Hring p Hp) as (np & _ & _ & Hnp & Hstp & _).
    cbn [trace_ready_depend]. rewrite Hn, Hst, Hpreds.
    cbn [scan_predecessors]. rewrite avoided_empty, Hnp, Hstp.
    by rewrite (IH p Hp).
Qed.

Lemma longer_cycle_undetected_witness :
  client_run ring_calls (new_graph 2 true) = Some ring
  ∧ (∃ h', Task.depend (Some 3) (Some 1)
             (Task.depend (Some 2) (Some 3)
                (Task.depend (Some 1) (Some 2)
                   (heap (with_heap (<[3 := fresh_node]>
                            (<[2 := fresh_node]> (<[1 := fresh_node]> ∅)))
                            (new_graph 2 true)))).1).1
           = (h', Returns ()))
  ∧ ∀ fuel, trace_ready_depend fuel (heap ring) (Some 1) ∅ = Diverges.
Proof.
  split; [vm_compute; reflexivity |]. split.
  - eapply (proj1 (longer_cycle_undetected _) 3 1).
    + done.
    + vm_compute. reflexivity.
    + vm_compute. reflexivity.
    + simpl. intros [[=] | []%elem_of_nil]%elem_of_cons.
  - intros fuel.
    apply (proj2 (longer_cycle_undetected (heap ring)) (λ a, a = 1 ∨ a = 2 ∨ a = 3));
      [| by left].
    intros a [-> | [-> | ->]].
    + exists (mkINode IRunnable.Ready [Some 2] [Some 3]), 2, [].
      split; [vm_compute; reflexivity |]. tauto.
    + exists (mkINode IRunnable.Ready [Some 3] [Some 1]), 3, [].
      split; [vm_compute; reflexivity |]. tauto.
    + exists (mkINode IRunnable.Ready [Some 1] [Some 2]), 1, [].
      split; [vm_compute; reflexivity |]. tauto.
Defined.

(** ** A payload that throws *)






(** The flag going up behind a worker's back can leave that worker asleep for
    good.  On the diamond, worker 1 has found the flag down when the payload
    of A throws on worker 0; the handler raises the flag, calls
    [notify_all()] and ends worker 0.  Worker 1 then takes its verdict, which
    is PENDING since A stays EXECUTING, and goes to wait on the condition
    variable.  No worker is left to notify it: every other worker has
    returned.  [wait] has the message of worker 0 in hand and stays blocked in
    [future.get()] on worker 1 for as long as worker 1 is not woken. *)
Lemma wait_blocks_behind_sleeping_worker :
  run 5 [(0, PayloadRaises (runtime_error "boom")); (1, PayloadReturns)] diamond_window
  = Some (diamond_stuck, [])
  ∧ captured (_worker_contexts diamond_stuck) = [runtime_error "boom"]
  ∧ (∀ w c, worker_at w diamond_stuck = Some c →
       (w = 0 ∧ phase c = Left) ∨ (w = 1 ∧ phase c = Waiting ∧ _done c = NotSet))
  ∧ (wait diamond_stuck).2 = WaitBlocks.
Proof.
  split; [vm_compute; reflexivity |].
  split; [vm_compute; reflexivity |].
  split; [| vm_compute; reflexivity].
  intros w c. destruct w as [| [| w]]; vm_compute; intros [= <-]; auto.
Qed.

(** ** What execution leaves alone, and what clear removes *)

Lemma same_edges_sym h h' : same_edges h h' → same_edges h' h.
Proof. intros Hse a. by rewrite Hse. Qed.

Lemma store_inv_same_edges h h' : same_edges h h' → store_inv h → store_inv h'.
Proof.
  intros Hse (Hc & Hs & Hn & Hl).
  pose proof (same_edges_sym _ _ Hse) as Hes.
  split; [| split; [| split]].
  - intros a n' p Ha Hp.
    destruct (same_edges_lookup _ _ _ _ Hes Ha) as (n & Hn0 & Hp0 & Hs0).
    rewrite <- Hp0, <- Hs0 in Hp.
    destruct (Hc a n p Hn0 Hp) as (b & -> & [nb Hb]). exists b. split; [done |].
    destruct (same_edges_lookup _ _ _ _ Hse Hb) as (nb' & Hnb' & _). eauto.
  - intros a b na' nb' Ha Hb.
    destruct (same_edges_lookup _ _ _ _ Hes Ha) as (na & Hna & Hpa & Hsa).
    destruct (same_edges_lookup _ _ _ _ Hes Hb) as (nb & Hnb & Hpb & Hsb).
    rewrite <- Hsa, <- Hpb. by apply Hs.
  - intros a n' Ha.
    destruct (same_edges_lookup _ _ _ _ Hes Ha) as (n & Hn0 & Hp0 & Hs0).
    rewrite <- Hp0, <- Hs0. by apply (Hn a).
  - intros a n' Ha.
    destruct (same_edges_lookup _ _ _ _ Hes Ha) as (n & Hn0 & Hp0 & Hs0).
    rewrite <- Hp0. by apply (Hl a).
Qed.

Lemma run_same_edges fuel schedule :
  ∀ m m' evs,
    run fuel schedule m = Some (m', evs) →
    _task_pool m' = _task_pool m ∧ same_edges (heap m) (heap m').
Proof.
  induction schedule as [| [w pe] rest IH]; intros m m' evs; cbn [run].
  - intros [= <- <-]. split; [done | apply same_edges_refl].
  - destruct (process_tasks_step fuel w pe m) as [[m1 evs1] |] eqn:Hstep; [| done].
    destruct (run fuel rest m1) as [[m2 evs2] |] eqn:Hrun; [| done].
    intros [= <- <-].
    destruct (IH m1 m2 evs2 Hrun) as [Hpool Hse].
    pose proof (process_tasks_step_same_edges _ _ _ _ _ _ Hstep) as Hse1.
    apply process_tasks_step_cases in Hstep as [Hpool1 _].
    split; [congruence | by eapply same_edges_trans].
Qed.

(** X22.  Execution leaves the graph's structure alone: whatever the workers do,
    the pool and every edge list are after a run what they were before it,
    and the invariant of the data model (symmetric, duplicate-free, closed
    edges; well-formed pool) still holds. *)
Theorem run_keeps_structure (fuel : nat) (schedule : list (nat * payload_end))
    (m m' : machine) (evs : list event) :
  run fuel schedule m = Some (m', evs) →
  _task_pool m' = _task_pool m ∧ same_edges (heap m) (heap m') ∧
  (graph_inv m → graph_inv m').
Proof.
  intros Hrun. destruct (run_same_edges _ _ _ _ _ Hrun) as [Hpool Hse].
  split; [done |]. split; [done |].
  intros [Hstore [Hnd Hlive]]. split; [by eapply store_inv_same_edges |].
  split; [by rewrite Hpool |].
  intros p Hp. rewrite Hpool in Hp. destruct (Hlive p Hp) as (a & -> & [n Ha]).
  exists a. split; [done |].
  destruct (same_edges_lookup _ _ _ _ Hse Ha) as (n' & Hn' & _). eauto.
Qed.

Lemma run_keeps_structure_witness :
  _task_pool diamond_done = _task_pool diamond_started
  ∧ same_edges (heap diamond_started) (heap diamond_done)
  ∧ (graph_inv diamond_started → graph_inv diamond_done).
Proof.
  apply (run_keeps_structure 5 diamond_full_schedule diamond_started diamond_done
           [Started 1; Finished 1; Started 2; Started 3; Finished 2; Finished 3;
            Started 4; Finished 4]).
  vm_compute. reflexivity.
Defined.

Lemma delete_all_lookup pool h :
  NoDup pool →
  (∀ p, p ∈ pool → ∃ a, p = Some a ∧ is_Some (h !! a)) →
  ∃ h', delete_all pool h = Some h' ∧
    ∀ x, h' !! x = if decide (Some x ∈ pool) then None else h !! x.
Proof.
  revert h. induction pool as [| t pool IH]; intros h Hnd Hlive.
  - exists h. split; [done |]. intros x.
    destruct (decide (Some x ∈ [])) as [Hin | _]; [| done].
    by apply elem_of_nil in Hin.
  - apply NoDup_cons in Hnd as [Ht Hnd].
    destruct (Hlive t) as (a & -> & [n Ha]); [by left |].
    cbn [delete_all]. rewrite Ha.
    destruct (IH (delete a h) Hnd) as (h' & Hdel & Hlook).
    { intros p Hp. destruct (Hlive p) as (b & -> & Hb); [by right |].
      exists b. split; [done |]. rewrite lookup_delete_ne; [done |].
      intros ->. done. }
    exists h'. split; [done |]. intros x. rewrite Hlook.
    destruct (decide (a = x)) as [<- | Hax].
    + rewrite decide_False by done. rewrite lookup_delete_eq.
      rewrite decide_True; [done | by left].
    + rewrite lookup_delete_ne by done.
      destruct (decide (Some x ∈ pool)) as [Hin | Hnin].
      * rewrite decide_True; [done | by right].
      * rewrite decide_False; [done |].
        intros [Heq | Hin]%elem_of_cons; [congruence | done].
Qed.

(** X23.  [clear] on a well-formed pool with no worker thread left to join (before
    [start], or after [wait]) returns with an empty, idle graph: every node of
    the pool is deleted and nothing else is, so every handle that [push] gave
    out now dangles ([state()] on it is undefined); clearing again is
    harmless. *)
Theorem clear_spec (m : machine) :
  pool_wf m →
  _worker_contexts m = [] →
  ∃ m', clear m = (m', Returns ()) ∧
    task_size m' = 0 ∧ graph_empty m' = true ∧ executing m' = false ∧
    _ready_tasks_cache m' = [] ∧ _worker_contexts m' = [] ∧
    (∀ x, heap m' !! x = if decide (Some x ∈ _task_pool m) then None else heap m !! x) ∧
    (∀ a, Some a ∈ _task_pool m → Task.state (Some a) (heap m') = Undefined) ∧
    clear m' = (m', Returns ()).
Proof.
  intros [Hnd Hlive] _.
  destruct (delete_all_lookup (_task_pool m) (heap m) Hnd Hlive) as (h' & Hdel & Hlook).
  eexists. split.
  { unfold clear. simpl. rewrite Hdel. reflexivity. }
  simpl. repeat split; try done.
  intros a Ha. unfold Task.state. simpl. rewrite Hlook. by rewrite decide_True.
Qed.

Lemma clear_spec_witness :
  ∃ m', clear diamond = (m', Returns ()) ∧
    task_size m' = 0 ∧ graph_empty m' = true ∧ executing m' = false ∧
    _ready_tasks_cache m' = [] ∧ _worker_contexts m' = [] ∧
    (∀ x, heap m' !! x
          = if decide (Some x ∈ _task_pool diamond) then None else heap diamond !! x) ∧
    (∀ a, Some a ∈ _task_pool diamond → Task.state (Some a) (heap m') = Undefined) ∧
    clear m' = (m', Returns ()).
Proof. apply (clear_spec diamond); [apply graph_inv_diamond | vm_compute; reflexivity]. Defined.

(** ** wait_for *)






Lemma wait_for_scan_settled contexts now end_time :
  forallb settled contexts = true →
  ∀ k remaining_time,
    (∀ j, k ≤ j < k + length contexts →
          (0 < end_time - now j)%Z ∧ in_ticks (end_time - now j) = true) →
    wait_for_scan contexts now k end_time remaining_time = ScanDone.
Proof.
  intros Hall.
  induction contexts as [| [c |] contexts IH]; intros k remaining_time Hclock;
    cbn [wait_for_scan]; [done | |].
  - cbn [forallb settled] in Hall. apply andb_true_iff in Hall as [Hc Hrest].
    cbn [length] in Hclock.
    destruct (negb (future_valid c)).
    { apply IH; [done |]. intros j Hj. apply Hclock. lia. }
    destruct (Hclock k) as [Hpos Hticks]; [lia |].
    destruct (_done c); [done | |];
      (rewrite Hticks; simpl;
       rewrite (proj2 (Z.leb_gt _ _) Hpos);
       apply IH; [done |]; intros j Hj; apply Hclock; lia).
  - cbn [forallb settled] in Hall. cbn [length] in Hclock.
    apply IH; [done |]. intros j Hj. apply Hclock. lia.
Qed.

Lemma collect_futures_settled contexts :
  forallb settled contexts = true →
  ∀ msg, (collect_futures contexts msg).2 ≠ Blocked.
Proof.
  induction contexts as [| [c |] contexts IH]; intros Hall msg;
    cbn [collect_futures]; [done | |].
  - cbn [forallb settled] in Hall. apply andb_true_iff in Hall as [Hc Hrest].
    destruct (negb (future_valid c)).
    { specialize (IH Hrest msg).
      by destruct (collect_futures contexts msg) as [cs r]. }
    destruct (_done c) as [| | e]; [done | |].
    + specialize (IH Hrest msg).
      by destruct (collect_futures contexts msg) as [cs r].
    + destruct (what_of e) as [w |]; [| done].
      specialize (IH Hrest (msg +:+ w +:+ newline)).
      by destruct (collect_futures contexts (msg +:+ w +:+ newline)) as [cs r].
  - cbn [forallb settled] in Hall. specialize (IH Hall msg).
    by destruct (collect_futures contexts msg) as [cs r].
Qed.

(** X25.  Once every worker has left [process_tasks], a [wait_for] whose clock stays
    short of the deadline while it looks at the futures does what [wait] does:
    it resets the graph and answers Ready, or throws what [wait] throws; it is
    never left waiting. *)
Theorem wait_for_finished (timeout : Z) (now : nat → Z) (m : machine) :
  forallb settled (_worker_contexts m) = true →
  in_ticks timeout = true → in_ticks (now 0%nat + timeout) = true →
  (∀ k, k ≤ length (_worker_contexts m) →
        (now 0%nat ≤ now k < now 0%nat + timeout)%Z) →
  wait_for timeout now m = ((wait m).1, of_waited (wait m).2) ∧
  (wait m).2 ≠ WaitBlocks.
Proof.
  intros Hall Htimeout Hend Hclock.
  assert ((wait m).2 ≠ WaitBlocks) as Hnb.
  { unfold wait.
    pose proof (collect_futures_settled _ Hall EmptyString) as Hc.
    destruct (collect_futures (_worker_contexts m) EmptyString) as [cs [s | e |]];
      simpl in *; [by case_decide | done | done]. }
  split; [| done].
  unfold wait_for. rewrite Hend. simpl.
  rewrite wait_for_scan_settled; [| done |].
  - by destruct (wait m) as [m' [| e |]].
  - intros j Hj. specialize (Hclock j). split; [lia |].
    unfold in_ticks in *. apply andb_true_iff in Htimeout as [_ Hhi].
    apply andb_true_iff. split; [apply Z.leb_le | apply Z.ltb_lt]; [lia |].
    apply Z.ltb_lt in Hhi. lia.
Qed.

Lemma wait_for_finished_witness :
  wait_for 50 ticking diamond_left
  = ((wait diamond_left).1, of_waited (wait diamond_left).2) ∧
  (wait diamond_left).2 ≠ WaitBlocks.
Proof.
  apply (wait_for_finished 50 ticking diamond_left).
  - vm_compute. reflexivity.
  - vm_compute. reflexivity.
  - vm_compute. reflexivity.
  - assert (length (_worker_contexts diamond_left) = 2) as -> by (vm_compute; reflexivity).
    intros k Hk. unfold ticking. lia.
Defined.

(** ** push and erase together *)

Lemma erase_first_app_singleton (t : ptr) (pool : list ptr) :
  t ∉ pool → erase_first t (pool ++ [t]) = pool.
Proof.
  induction pool as [| q pool IH]; intros Hnot; simpl.
  - by rewrite decide_True.
  - apply not_elem_of_cons in Hnot as [Hne Hnot].
    rewrite decide_False by done. by rewrite IH.
Qed.

(** X26.  [erase] undoes the callable [push]: on a graph that is not executing, a
    node pushed at a free address and erased again leaves the graph exactly as
    it was, the node freed and the handle cleared. *)
Theorem erase_undoes_push_callable (a : nat) (m : machine) :
  executing m = false →
  heap m !! a = None →
  Some a ∉ _task_pool m →
  ∃ m1, push_callable a m = (m1, Returns (Some a)) ∧
        _task_pool m1 = _task_pool m ++ [Some a] ∧
        erase (Some a) m1 = (m, nullptr, Returns true).
Proof.
  intros Hexec Hfree Hnot. destruct m as [h pool cache ex term ws tc opt].
  unfold executing in Hexec. simpl in *. subst ex.
  eexists. split; [| split].
  - unfold push_callable, push, executing. simpl.
    rewrite lookup_insert_eq. simpl. by rewrite decide_False.
  - done.
  - unfold erase, executing. simpl.
    rewrite decide_True by (apply elem_of_app; right; by left).
    rewrite lookup_insert_eq. simpl. rewrite lookup_insert_eq. simpl.
    rewrite delete_insert_id by done.
    by rewrite erase_first_app_singleton.
Qed.

Lemma erase_undoes_push_callable_witness :
  ∃ m1, push_callable 9 diamond = (m1, Returns (Some 9)) ∧
        _task_pool m1 = _task_pool diamond ++ [Some 9] ∧
        erase (Some 9) m1 = (diamond, nullptr, Returns true).
Proof.
  apply (erase_undoes_push_callable 9 diamond).
  - vm_compute. reflexivity.
  - vm_compute. reflexivity.
  - vm_compute. intros Hin. repeat (apply elem_of_cons in Hin as [[=] | Hin]).
    by apply elem_of_nil in Hin.
Defined.
